(** * AIOStreams core: identifier parsing, presets, Torznab normalisation
      and the database connection

    A shallow embedding of
    - [IdParser], with [ID_PARSERS], [getPrefixes] and [parse]
      (src/unnamed/part_000),
    - [CustomPreset], with [generateAddons] and [generateAddon]
      (src/unnamed/part_001),
    - [JackettPreset] and [KnabenPreset], with [METADATA] and
      [generateManifestUrl] (src/packages/core/src/presets/jackett.ts),
    - [BitmagnetPreset], with [METADATA] and [generateManifestUrl]
      (src/packages/core/src/presets/bitmagnet.ts),
    - [DB], with [initialise], [open], [close], [ping], [execute], [query],
      [getRowsAffected] and the transactions of [begin]
      (the first unit of src/packages/core/src/db/db.ts),
    - [TorznabAddon], with [_searchTorrents] and [extractInfoHash]
      (the second unit of src/packages/core/src/db/db.ts),
    together with the properties stated about them.

    JavaScript values are kept as the code sees them: [undefined] is [None]
    (or [JsUndefined]), numbers are IEEE-754 doubles ([float]), and the
    operators [||], [??], [!] and [typeof] are written out through [truthy]
    and [nullish].  Strings are sequences of code units; every literal and
    every pattern of the code is ASCII, so a character outside ASCII matches
    none of them, whatever its encoding.  An [async] method is the function
    from its arguments to its outcome, a rejection being a thrown
    exception. *)

From Stdlib Require Import ZArith Lia List Bool Ascii String.
From Stdlib Require Import DecimalString DecimalZ DecimalPos DecimalN.
From Stdlib Require Import Floats.PrimFloat.
From stdpp Require Import base decidable option list strings gmap.

Local Open Scope string_scope.

(* stdpp keeps [simpl] from unfolding string concatenation; the proofs below
   compute with strings whose head is a literal. *)
#[local] Arguments String.append !_ _ : simpl nomatch.

(* ------------------------------------------------------------------ *)
(** ** JavaScript values and string primitives *)

Module Js.

(** The values an [any]-typed option or attribute holds in the code below. *)
Inductive JsValue : Type :=
| JsUndefined
| JsNull
| JsBoolean (b : bool)
| JsNumber (n : float)
| JsString (s : string)
| JsArray (xs : list string).

(** ToBoolean: [undefined], [null], [false], [0], [-0], [NaN] and the empty
    string are falsy; every object (arrays included) is truthy. *)
Definition truthy (v : JsValue) : bool :=
  match v with
  | JsUndefined | JsNull => false
  | JsBoolean b => b
  | JsNumber n => negb (PrimFloat.is_zero n || PrimFloat.is_nan n)
  | JsString s => negb (String.eqb s "")
  | JsArray _ => true
  end.

(** What [??] and [?.] test. *)
Definition nullish (v : JsValue) : bool :=
  match v with
  | JsUndefined | JsNull => true
  | _ => false
  end.

(** [a || b] *)
Definition or_else (a b : JsValue) : JsValue := if truthy a then a else b.

(** [a ?? b] *)
Definition coalesce (a b : JsValue) : JsValue := if nullish a then b else a.

(** Truthiness of a [string | undefined]. *)
Definition truthy_str (o : option string) : bool :=
  match o with
  | Some s => negb (String.eqb s "")
  | None => false
  end.

(** [String.prototype.startsWith] *)
Fixpoint startsWith (needle s : string) : bool :=
  match needle, s with
  | EmptyString, _ => true
  | String a n', String b s' => Ascii.eqb a b && startsWith n' s'
  | String _ _, EmptyString => false
  end.

(** [String.prototype.includes]: the needle starts at some index. *)
Fixpoint includes (needle s : string) : bool :=
  startsWith needle s ||
  match s with
  | EmptyString => false
  | String _ s' => includes needle s'
  end.

(** [String.prototype.endsWith]: the needle is the suffix that starts at
    index [length s - length needle]. *)
Fixpoint endsWith (needle s : string) : bool :=
  String.eqb needle s ||
  match s with
  | EmptyString => false
  | String _ s' => endsWith needle s'
  end.

Definition lower_ascii (a : ascii) : ascii :=
  let n := nat_of_ascii a in
  if (65 <=? n)%nat && (n <=? 90)%nat then ascii_of_nat (n + 32) else a.

Definition upper_ascii (a : ascii) : ascii :=
  let n := nat_of_ascii a in
  if (97 <=? n)%nat && (n <=? 122)%nat then ascii_of_nat (n - 32) else a.

(** [String.prototype.toLowerCase] on the code units below 128. *)
Fixpoint toLowerCase (s : string) : string :=
  match s with
  | EmptyString => EmptyString
  | String a s' => String (lower_ascii a) (toLowerCase s')
  end.

(** Every character of [s] satisfies [p]. *)
Fixpoint all_chars (p : ascii -> bool) (s : string) : bool :=
  match s with
  | EmptyString => true
  | String a s' => p a && all_chars p s'
  end.

(** Does [s] begin with a character satisfying [p]? *)
Definition head_in (p : ascii -> bool) (s : string) : bool :=
  match s with
  | EmptyString => false
  | String a _ => p a
  end.

End Js.

(* ------------------------------------------------------------------ *)
(** ** Regular expressions

    The fragment of ECMAScript regular expressions that [IdParser] and
    [TorznabAddon] use, with the backtracking semantics of the language:
    alternatives are tried left to right, quantifiers are greedy, and the
    first successful path is the match.  The matcher is written in
    continuation-passing style, the continuation being the rest of the
    pattern. *)

Module Regex.

Inductive pattern : Type :=
| Lit (l : string)                    (* literal text *)
| Cls (p : ascii -> bool)             (* one character of a class: [..], \d *)
| Cat (r1 r2 : pattern)               (* r1 r2 *)
| Or (r1 r2 : pattern)                (* r1|r2 *)
| Opt (r : pattern)                   (* r? *)
| Plus (p : ascii -> bool)            (* [..]+ *)
| Rep (n : nat) (p : ascii -> bool)   (* [..]{n} *)
| Grp (g : string) (r : pattern)      (* (?<g>r), or a numbered group *)
| Eos.                                (* $ *)

Declare Scope regex_scope.
Delimit Scope regex_scope with re.
Infix ">>" := Cat (at level 55, right associativity) : regex_scope.
Infix "<|>" := Or (at level 60, right associativity) : regex_scope.

(** The groups that took part in a match, most recent first. *)
Definition captures : Type := list (string * string).

Fixpoint group (g : string) (c : captures) : option string :=
  match c with
  | [] => None
  | (g', v) :: c' => if String.eqb g g' then Some v else group g c'
  end.

(** Character classes *)
Definition digit (a : ascii) : bool :=
  let n := nat_of_ascii a in (48 <=? n)%nat && (n <=? 57)%nat.

Definition alnum (a : ascii) : bool :=
  let n := nat_of_ascii a in
  (97 <=? n)%nat && (n <=? 122)%nat || (65 <=? n)%nat && (n <=? 90)%nat
  || (48 <=? n)%nat && (n <=? 57)%nat.

(** [[:-]] *)
Definition colon_dash (a : ascii) : bool :=
  Ascii.eqb a ":" || Ascii.eqb a "-".

(** [[a-f0-9]] *)
Definition hex_lower (a : ascii) : bool :=
  let n := nat_of_ascii a in
  (97 <=? n)%nat && (n <=? 102)%nat || (48 <=? n)%nat && (n <=? 57)%nat.

(** Under the [i] flag two characters match when their canonical (upper-case)
    forms agree; a class matches a character when one of its members does. *)
Definition chr_eq (ci : bool) (a b : ascii) : bool :=
  if ci then Ascii.eqb (Js.upper_ascii a) (Js.upper_ascii b) else Ascii.eqb a b.

Definition cls (ci : bool) (p : ascii -> bool) (a : ascii) : bool :=
  if ci then p a || p (Js.lower_ascii a) || p (Js.upper_ascii a) else p a.

(** Equality of two texts under the [i] flag. *)
Fixpoint eq_ci (ci : bool) (l s : string) : bool :=
  match l, s with
  | EmptyString, EmptyString => true
  | String a l', String b s' => chr_eq ci a b && eq_ci ci l' s'
  | _, _ => false
  end.

(** Consume the literal [l] at the head of [s]. *)
Fixpoint strip (ci : bool) (l s : string) : option string :=
  match l, s with
  | EmptyString, _ => Some s
  | String a l', String b s' => if chr_eq ci a b then strip ci l' s' else None
  | String _ _, EmptyString => None
  end.

(** Greedy [p+]: take as many characters as possible, give back one at a
    time while the rest of the pattern fails. *)
Fixpoint plus {A} (p : ascii -> bool) (s : string) (k : string -> option A)
  : option A :=
  match s with
  | EmptyString => None
  | String a s' =>
      if p a then
        match plus p s' k with
        | Some x => Some x
        | None => k s'
        end
      else None
  end.

(** [p{n}] *)
Fixpoint rep {A} (n : nat) (p : ascii -> bool) (s : string)
  (k : string -> option A) : option A :=
  match n with
  | O => k s
  | S n' =>
      match s with
      | String a s' => if p a then rep n' p s' k else None
      | EmptyString => None
      end
  end.

(** The text between the position [s] and the later position [s'] (a suffix
    of [s]). *)
Definition consumed (s s' : string) : string :=
  String.substring 0 (String.length s - String.length s') s.

Fixpoint mt (ci : bool) (r : pattern) (s : string) (c : captures)
  (k : captures -> string -> option captures) : option captures :=
  match r with
  | Lit l =>
      match strip ci l s with
      | Some s' => k c s'
      | None => None
      end
  | Cls p =>
      match s with
      | String a s' => if cls ci p a then k c s' else None
      | EmptyString => None
      end
  | Cat r1 r2 => mt ci r1 s c (fun c' s' => mt ci r2 s' c' k)
  | Or r1 r2 =>
      match mt ci r1 s c k with
      | Some x => Some x
      | None => mt ci r2 s c k
      end
  | Opt r' =>
      match mt ci r' s c k with
      | Some x => Some x
      | None => k c s
      end
  | Plus p => plus (cls ci p) s (k c)
  | Rep n p => rep n (cls ci p) s (k c)
  | Grp g r' => mt ci r' s c (fun c' s' => k ((g, consumed s s') :: c') s')
  | Eos =>
      match s with
      | EmptyString => k c s
      | String _ _ => None
      end
  end.

(** The continuation that ends a pattern: the match is complete. *)
Definition done : captures -> string -> option captures := fun c _ => Some c.

(** Patterns without groups; they leave the captures as they are. *)
Fixpoint capture_free (r : pattern) : bool :=
  match r with
  | Lit _ | Cls _ | Plus _ | Rep _ _ | Eos => true
  | Cat r1 r2 | Or r1 r2 => capture_free r1 && capture_free r2
  | Opt r' => capture_free r'
  | Grp _ _ => false
  end.

(** A non-empty run of decimal digits: what [\d+] matches. *)
Definition digits (s : string) : Prop :=
  Js.all_chars digit s = true /\ s <> "".

(** A regular expression literal: [/^body/] when [anchored], [/body/]
    otherwise, with the [i] flag when [ignoreCase]. *)
Record RegExp : Type := mkRegExp {
  anchored : bool;
  ignoreCase : bool;
  body : pattern;
}.

Definition match_here (re : RegExp) (s : string) : option captures :=
  mt (ignoreCase re) (body re) s [] done.

(** The leftmost start index at which the pattern matches. *)
Fixpoint search (re : RegExp) (s : string) : option captures :=
  match match_here re s with
  | Some c => Some c
  | None =>
      match s with
      | EmptyString => None
      | String _ s' => search re s'
      end
  end.

(** [s.match(re)] for a regular expression without the [g] flag: the groups
    of the first match, or [None] for [null]. *)
Definition String_match (s : string) (re : RegExp) : option captures :=
  if anchored re then match_here re s else search re s.

End Regex.

(* ------------------------------------------------------------------ *)
(** ** [IdParser] (src/unnamed/part_000) *)

Module IdParser.
Import Regex.

(** [ID_TYPES] *)
Inductive IdType : Type :=
| animePlanetId | animecountdownId | anidbId | anilistId | anisearchId
| imdbId | kitsuId | livechartId | malId | notifyMoeId | simklId
| themoviedbId | thetvdbId | traktId.

(** [ExternalIdType] *)
Inductive ExternalIdType : Type :=
| anime_planet_id | animecountdown_id | anidb_id | anilist_id | anisearch_id
| imdb_id | kitsu_id | livechart_id | mal_id | notify_moe_id | simkl_id
| themoviedb_id | thetvdb_id.

(** [string | number].  A number produced here is [Number(id)] for a string
    of decimal digits: the embedding keeps the integer the digits denote,
    which is the double itself up to [MAX_SAFE_INTEGER]; statements about
    numeric values are made in that range. *)
Inductive IdValue : Type :=
| VString (s : string)
| VNumber (z : Z)
| VNaN.


(** [Number(id)] on the strings the regular expressions capture. *)
Definition Number (id : string) : IdValue :=
  match NilEmpty.uint_of_string id with
  | Some d => VNumber (Z.of_uint d)
  | None => VNaN
  end.

(** ToString, as a template literal applies it. *)
Definition ToString (v : IdValue) : string :=
  match v with
  | VString s => s
  | VNumber z => NilZero.string_of_int (Z.to_int z)
  | VNaN => "NaN"
  end.

(** ToString of a [string | undefined] argument. *)
Definition ToString_opt (o : option string) : string :=
  match o with
  | Some s => s
  | None => "undefined"
  end.

Record ParsedId : Type := mkParsedId {
  type : IdType;
  value : IdValue;
  fullId : string;
  externalType : ExternalIdType;
  mediaType : string;
  season : option string;
  episode : option string;
  generator : IdValue -> option string -> option string -> string;
}.

Record IdParserDefinition : Type := mkIdParserDefinition {
  def_type : IdType;
  def_externalType : ExternalIdType;
  prefixes : list string;
  regex : RegExp;
  format : string -> IdValue;
  def_generator : IdValue -> option string -> option string -> string;
}.

(** [(?::(?<season>\d+):(?<episode>\d+))?] *)
Definition season_episode_tail : pattern :=
  Opt (Lit ":" >> Grp "season" (Plus digit) >> Lit ":" >>
       Grp "episode" (Plus digit))%re.

(** [(?::(?<episode>\d+))?] *)
Definition episode_tail : pattern :=
  Opt (Lit ":" >> Grp "episode" (Plus digit))%re.

(** [`${a}:${b}:${c}`] and its prefixed variants *)
Definition colons (parts : list string) : string :=
  String.concat ":" parts.

Definition ID_PARSERS : list IdParserDefinition := [
  {| def_type := imdbId;
     def_externalType := imdb_id;
     prefixes := ["tt"; "imdb"];
     regex := mkRegExp true false
       ((Lit "tt" <|> Lit "imdb") >> Opt (Cls colon_dash) >>
        Grp "id" (Plus digit) >> season_episode_tail >> Eos)%re;
     format := fun id => VString ("tt" +:+ id);
     def_generator := fun value season episode =>
       colons [ToString value; ToString_opt season; ToString_opt episode] |};
  {| def_type := malId;
     def_externalType := mal_id;
     prefixes := ["mal"];
     regex := mkRegExp true false
       (Lit "mal" >> Opt (Cls colon_dash) >>
        Grp "id" (Plus digit) >> episode_tail >> Eos)%re;
     format := Number;
     def_generator := fun value season episode =>
       colons ["mal"; ToString value; ToString_opt episode] |};
  {| def_type := thetvdbId;
     def_externalType := thetvdb_id;
     prefixes := ["tvdb"];
     regex := mkRegExp true false
       (Lit "tvdb" >> Opt (Cls colon_dash) >>
        Grp "id" (Plus digit) >> season_episode_tail >> Eos)%re;
     format := Number;
     def_generator := fun value season episode =>
       colons ["tvdb"; ToString value; ToString_opt season;
               ToString_opt episode] |};
  {| def_type := themoviedbId;
     def_externalType := themoviedb_id;
     prefixes := ["tmdb"];
     regex := mkRegExp true false
       (Lit "tmdb" >> Opt (Cls colon_dash) >>
        Grp "id" (Plus digit) >> season_episode_tail >> Eos)%re;
     format := Number;
     def_generator := fun value season episode =>
       colons ["tmdb"; ToString value; ToString_opt season;
               ToString_opt episode] |};
  {| def_type := kitsuId;
     def_externalType := kitsu_id;
     prefixes := ["kitsu"];
     regex := mkRegExp true false
       (Lit "kitsu" >> Opt (Cls colon_dash) >>
        Grp "id" (Plus digit) >> episode_tail >> Eos)%re;
     format := Number;
     def_generator := fun value season episode =>
       colons ["kitsu"; ToString value; ToString_opt episode] |};
  {| def_type := anilistId;
     def_externalType := anilist_id;
     prefixes := ["anilist"];
     regex := mkRegExp true false
       (Lit "anilist" >> Opt (Cls colon_dash) >>
        Grp "id" (Plus digit) >> episode_tail >> Eos)%re;
     format := Number;
     def_generator := fun value season episode =>
       colons ["anilist"; ToString value; ToString_opt episode] |};
  {| def_type := anidbId;
     def_externalType := anidb_id;
     prefixes := ["anidb"; "anidb_id"; "anidbid"];
     regex := mkRegExp true false
       ((Lit "anidb" <|> Lit "anidb_id" <|> Lit "anidbid") >>
        Opt (Cls colon_dash) >>
        Grp "id" (Plus digit) >> episode_tail >> Eos)%re;
     format := Number;
     def_generator := fun value season episode =>
       colons ["anidb"; ToString value; ToString_opt episode] |};
  {| def_type := animePlanetId;
     def_externalType := anime_planet_id;
     prefixes := ["animeplanet"; "ap"];
     regex := mkRegExp true false
       ((Lit "animeplanet" <|> Lit "ap") >> Opt (Cls colon_dash) >>
        Grp "id" (Plus digit) >> Eos)%re;
     format := Number;
     def_generator := fun value season episode =>
       colons ["animeplanet"; ToString value; ToString_opt episode] |};
  {| def_type := animecountdownId;
     def_externalType := animecountdown_id;
     prefixes := ["acd"];
     regex := mkRegExp true false
       (Lit "acd" >> Opt (Cls colon_dash) >>
        Grp "id" (Plus digit) >> Eos)%re;
     format := Number;
     def_generator := fun value season episode =>
       colons ["acd"; ToString value; ToString_opt episode] |};
  {| def_type := anisearchId;
     def_externalType := anisearch_id;
     prefixes := ["anisearch"];
     regex := mkRegExp true false
       (Lit "anisearch" >> Opt (Cls colon_dash) >>
        Grp "id" (Plus digit) >> Eos)%re;
     format := Number;
     def_generator := fun value season episode =>
       colons ["anisearch"; ToString value; ToString_opt episode] |};
  {| def_type := notifyMoeId;
     def_externalType := notify_moe_id;
     prefixes := ["notifymoe"; "nm"];
     regex := mkRegExp true false
       ((Lit "notifymoe" <|> Lit "nm") >> Opt (Cls colon_dash) >>
        Grp "id" (Plus alnum) >> Eos)%re;
     format := VString;
     def_generator := fun value season episode =>
       colons ["notifymoe"; ToString value; ToString_opt episode] |};
  {| def_type := simklId;
     def_externalType := simkl_id;
     prefixes := ["simkl"];
     regex := mkRegExp true false
       (Lit "simkl" >> Opt (Cls colon_dash) >>
        Grp "id" (Plus digit) >> Eos)%re;
     format := Number;
     def_generator := fun value season episode =>
       colons ["simkl"; ToString value; ToString_opt episode] |}
].

(** [IdParser.getPrefixes] *)
Definition IdType_eqb (a b : IdType) : bool :=
  match a, b with
  | animePlanetId, animePlanetId | animecountdownId, animecountdownId
  | anidbId, anidbId | anilistId, anilistId | anisearchId, anisearchId
  | imdbId, imdbId | kitsuId, kitsuId | livechartId, livechartId
  | malId, malId | notifyMoeId, notifyMoeId | simklId, simklId
  | themoviedbId, themoviedbId | thetvdbId, thetvdbId
  | traktId, traktId => true
  | _, _ => false
  end.

Definition getPrefixes (types : list IdType) : list string :=
  flat_map prefixes
    (filter (fun p => existsb (IdType_eqb (def_type p)) types) ID_PARSERS).

(** The object [parse] builds from a matching definition.  The [id] group
    takes part in every match of every definition ([matched_id] below), so
    the default is never read. *)
Definition build (parser : IdParserDefinition) (groups : captures)
  (stremioId mediaType : string) : ParsedId :=
  let id := default "" (group "id" groups) in
  let season := group "season" groups in
  let episode := group "episode" groups in
  {| type := def_type parser;
     value := format parser id;
     fullId := stremioId;
     externalType := def_externalType parser;
     mediaType := mediaType;
     season := if Js.truthy_str season then season else None;
     episode := if Js.truthy_str episode then episode else None;
     generator := def_generator parser |}.

(** The loop of [parse] over a list of definitions. *)
Fixpoint parse_with (parsers : list IdParserDefinition)
  (stremioId mediaType : string) : option ParsedId :=
  match parsers with
  | [] => None
  | parser :: rest =>
      match String_match stremioId (regex parser) with
      | Some groups => Some (build parser groups stremioId mediaType)
      | None => parse_with rest stremioId mediaType
      end
  end.

(** [IdParser.parse] *)
Definition parse (stremioId mediaType : string) : option ParsedId :=
  parse_with ID_PARSERS stremioId mediaType.

(** The literal texts a pattern can begin with; the empty text when it begins
    with something else. *)
Fixpoint lead (r : pattern) : list string :=
  match r with
  | Lit l => [l]
  | Cat r1 _ => lead r1
  | Or r1 r2 => lead r1 ++ lead r2
  | _ => [""]
  end.

(** Can one text begin like the patterns of both definitions? *)
Definition overlap (d1 d2 : IdParserDefinition) : bool :=
  existsb
    (fun l1 =>
       existsb (fun l2 => Js.startsWith l1 l2 || Js.startsWith l2 l1)
         (lead (body (regex d2))))
    (lead (body (regex d1))).



(** An alternation of literal texts, as the prefix group of every pattern
    is. *)
Fixpoint literals (r : pattern) : bool :=
  match r with
  | Lit _ => true
  | Or r1 r2 => literals r1 && literals r2
  | _ => false
  end.

(** What [[:-]?] can consume between the prefix and the id. *)
Definition SEPARATORS : list string := [""; ":"; "-"].

(** The text of the optional segments of an identifier: [":season:episode"],
    [":episode"], or nothing. *)
Definition segments (season episode : option string) : string :=
  match season, episode with
  | Some se, Some ep => ":" +:+ se +:+ ":" +:+ ep
  | None, Some ep => ":" +:+ ep
  | _, None => ""
  end.

(** The groups that take part in the match of such a text, most recent
    first. *)
Definition groups_of (id : string) (season episode : option string)
  : captures :=
  (match episode with Some ep => [("episode", ep)] | None => [] end ++
   match season with Some se => [("season", se)] | None => [] end ++
   [("id", id)])%list.

(** The schemes whose pattern has the segment [:season:episode], and those
    whose pattern has the segment [:episode]. *)
Definition SEASON_SCHEMES : list IdType := [imdbId; thetvdbId; themoviedbId].
Definition EPISODE_SCHEMES : list IdType := [malId; kitsuId; anilistId; anidbId].

(** The text the [id] group of a scheme captures: a non-empty run of
    [[a-zA-Z0-9]] for [notifyMoeId], of digits for the others. *)
Definition id_text (t : IdType) (id : string) : Prop :=
  id <> "" /\
  Js.all_chars (if IdType_eqb t notifyMoeId then alnum else digit) id = true.

(** The optional segments the pattern of a scheme admits: season and
    episode together, for the schemes with [:season:episode]; an episode
    alone, for the schemes with [:episode]; or none. *)
Definition segments_ok (t : IdType) (season episode : option string) : Prop :=
  match season, episode with
  | None, None => True
  | Some se, Some ep => t ∈ SEASON_SCHEMES /\ digits se /\ digits ep
  | None, Some ep => t ∈ EPISODE_SCHEMES /\ digits ep
  | Some _, None => False
  end.

End IdParser.

(* ------------------------------------------------------------------ *)
(** ** [TorznabAddon] (src/packages/core/src/db/db.ts, second unit) *)

Module Torznab.
Import Js Regex.

(** The raw result objects [performSearch] returns. *)
Module Raw.

(** [result.torznab]: the attributes of the item, a [string] field holding
    the attribute as [toString()] gives it. *)
Module Attr.
Record t : Type := mk {
  infohash : option string;
  magneturl : option string;
  seeders : JsValue;
  size : option string;
}.
End Attr.

Record Enclosure : Type := mkEnclosure {
  type : string;
  url : string;
}.

Record Result : Type := mkResult {
  title : string;
  size : option float;
  enclosure : list Enclosure;
  torznab : option Attr.t;
  jackettindexer_name : option string;     (* result.jackettindexer?.name *)
}.

End Raw.

(** [UnprocessedTorrent] *)
Record UnprocessedTorrent : Type := mkUnprocessedTorrent {
  hash : option string;
  downloadUrl : option string;
  sources : list string;
  seeders : option float;
  indexer : option string;
  title : string;
  size : float;
  type : string;
}.

(** [/(?:urn(?::|%3A)btih(?::|%3A))([a-f0-9]{40})/i] *)
Definition btih : RegExp :=
  mkRegExp false true
    (Lit "urn" >> (Lit ":" <|> Lit "%3A") >> Lit "btih" >>
     (Lit ":" <|> Lit "%3A") >> Grp "1" (Rep 40 hex_lower))%re.

(** [s?.match(btih)?.[1]?.toLowerCase()] *)
Definition btih_of (s : option string) : option string :=
  s ≫= fun s' => String_match s' btih ≫= fun groups =>
  option_map toLowerCase (group "1" groups).

(** [a || b] on [string | undefined] *)
Definition or_str (a b : option string) : option string :=
  if truthy_str a then a else b.

(** The enclosure entry that carries a magnet link. *)
Definition is_magnet_enclosure (e : Raw.Enclosure) : bool :=
  String.eqb (Raw.type e) "application/x-bittorrent"
  && includes "magnet:" (Raw.url e).

(** The enclosure entry that points at a torrent file. *)
Definition is_torrent_enclosure (e : Raw.Enclosure) : bool :=
  String.eqb (Raw.type e) "application/x-bittorrent"
  && negb (includes "magnet:" (Raw.url e)).

(** [SameValueZero] on numbers, the test of [Array.prototype.includes]. *)
Definition sameValueZero (x y : float) : bool :=
  PrimFloat.eqb x y || PrimFloat.is_nan x && PrimFloat.is_nan y.

(** The sentinels [[-1, 999]]. *)
Definition UNKNOWN_SEEDERS : list float := [(-1)%float; 999%float].

(** The [seeders] property of the pushed object. *)
Definition seeders_of (result : Raw.Result) : option float :=
  match Raw.torznab result with
  | Some t =>
      match Raw.Attr.seeders t with
      | JsNumber n =>
          if negb (existsb (fun s => sameValueZero s n) UNKNOWN_SEEDERS)
          then Some n else None
      | _ => None
      end
  | None => None
  end.

(** [infoHash ?? downloadUrl!] *)
Definition dedup_key (infoHash downloadUrl : option string) : option string :=
  match infoHash with
  | Some h => Some h
  | None => downloadUrl
  end.

(** The key under which a pushed object was recorded in [seenTorrents]. *)
Definition record_key (t : UnprocessedTorrent) : option string :=
  dedup_key (hash t) (downloadUrl t).

Section Addon.

(** Imported from [../utils/debrid.js] and from the language. *)
Variable validateInfoHash : option string -> option string.
Variable extractTrackersFromMagnet : string -> list string.
Variable Number : string -> float.

(** [TorznabAddon.extractInfoHash] *)
Definition extractInfoHash (result : Raw.Result) : option string :=
  validateInfoHash
    (or_str
       (Raw.torznab result ≫= Raw.Attr.infohash)
       (btih_of
          (or_str
             (Raw.torznab result ≫= Raw.Attr.magneturl)
             (option_map Raw.url
                (find is_magnet_enclosure (Raw.enclosure result)))))).

(** The [downloadUrl] of one iteration. *)
Definition downloadUrl_of (result : Raw.Result) : option string :=
  option_map Raw.url (find is_torrent_enclosure (Raw.enclosure result)).

(** The [sources] property of the pushed object. *)
Definition sources_of (result : Raw.Result) : list string :=
  match Raw.torznab result ≫= Raw.Attr.magneturl with
  | Some m =>
      if negb (String.eqb m "") then extractTrackersFromMagnet m else []
  | None => []
  end.

(** The [size] property of the pushed object. *)
Definition size_of (result : Raw.Result) : float :=
  match Raw.size result with
  | Some n => n
  | None =>
      match Raw.torznab result ≫= Raw.Attr.size with
      | Some s => if negb (String.eqb s "") then Number s else 0%float
      | None => 0%float
      end
  end.

(** The object literal pushed for [result]. *)
Definition torrent_of (result : Raw.Result) : UnprocessedTorrent :=
  {| hash := extractInfoHash result;
     downloadUrl := downloadUrl_of result;
     sources := sources_of result;
     seeders := seeders_of result;
     indexer := Raw.jackettindexer_name result;
     title := Raw.title result;
     size := size_of result;
     type := "torrent" |}.

(** [!infoHash && !downloadUrl] *)
Definition unusable (result : Raw.Result) : bool :=
  negb (truthy_str (extractInfoHash result))
  && negb (truthy_str (downloadUrl_of result)).

(** The key of [result] in [seenTorrents]. *)
Definition key_of (result : Raw.Result) : option string :=
  dedup_key (extractInfoHash result) (downloadUrl_of result).

(** The state of the loop: [seenTorrents] and [torrents]. *)
Record LoopState : Type := mkLoopState {
  seenTorrents : gset (option string);
  torrents : list UnprocessedTorrent;
}.

(** One iteration of [for (const result of results)]. *)
Definition step (st : LoopState) (result : Raw.Result) : LoopState :=
  if unusable result then st
  else if decide (key_of result ∈ seenTorrents st) then st
  else {| seenTorrents := seenTorrents st ∪ {[ key_of result ]};
          torrents := torrents st ++ [torrent_of result] |}.

Definition run (st : LoopState) (results : list Raw.Result) : LoopState :=
  fold_left step results st.

Definition initial : LoopState :=
  {| seenTorrents := ∅; torrents := [] |}.

(** [TorznabAddon._searchTorrents], from the results of [performSearch]
    on. *)
Definition _searchTorrents (results : list Raw.Result)
  : list UnprocessedTorrent :=
  torrents (run initial results).

(** The loop invariant: the recorded keys are those of the pushed objects,
    and no key was pushed twice. *)
Record invariant (st : LoopState) : Prop := mkInvariant {
  inv_seen : forall k, k ∈ seenTorrents st <->
                       exists t, t ∈ torrents st /\ record_key t = k;
  inv_nodup : NoDup (map record_key (torrents st));
}.

End Addon.

(** An info hash as the records hold it: 40 characters of [[a-f0-9]]. *)
Definition is_info_hash (s : string) : bool :=
  (String.length s =? 40)%nat && all_chars hex_lower s.

(** 40 hexadecimal characters of either case: what [[a-f0-9]{40}] matches
    under the [i] flag. *)
Definition is_hex40 (s : string) : bool :=
  (String.length s =? 40)%nat && all_chars (cls true hex_lower) s.

(** The spellings of the marker [urn(?::|%3A)btih(?::|%3A)]; under the [i]
    flag each is matched in either case. *)
Definition URN_MARKERS : list string :=
  ["urn:btih:"; "urn:btih%3A"; "urn%3Abtih:"; "urn%3Abtih%3A"].

Definition is_urn_marker (u : string) : bool :=
  existsb (fun m => eq_ci true m u) URN_MARKERS.

(** Modelled from the spec: [validateInfoHash] of [../utils/debrid.js], which
    is not among the sources.  The spec calls it "a dedicated hash-format
    validator -- a hash failing validation is treated as absent, not as an
    error", and an info hash a "lower-case 40-hex-character SHA-1". *)
Definition validateInfoHash_model (infoHash : option string) : option string :=
  match infoHash with
  | Some s => if is_hex40 s then Some (toLowerCase s) else None
  | None => None
  end.

(** What the claims use of a validator: an absent candidate stays absent, a
    lower-case 40-hex hash passes unchanged, and a candidate that is not 40
    hexadecimal characters is absent. *)
Record validator (validateInfoHash : option string -> option string) : Prop :=
  mkValidator {
    validator_absent : validateInfoHash None = None;
    validator_accepts :
      forall s, is_info_hash s = true -> validateInfoHash (Some s) = Some s;
    validator_rejects :
      forall s, is_hex40 s = false -> validateInfoHash (Some s) = None;
  }.

(** Stand-ins for [extractTrackersFromMagnet] and [Number] in the examples,
    which do not depend on them. *)
Definition no_trackers : string -> list string := fun _ => [].
Definition number_zero : string -> float := fun _ => 0%float.

(** Results used as examples: one info hash reached through the dedicated
    attribute, through the magnet attribute (in upper case) and through a
    magnet enclosure; a torrent file; a link that is no torrent; and a hash
    attribute of 39 characters. *)
Definition example_hash : string := "abcdef0123456789abcdef0123456789abcdef01".

Definition example_magnet : string :=
  "magnet:?xt=urn:btih:ABCDEF0123456789ABCDEF0123456789ABCDEF01&dn=example&tr=udp%3A%2F%2Ftracker.example%3A6969".

Definition by_field : Raw.Result :=
  Raw.mkResult "by field" None []
    (Some (Raw.Attr.mk (Some example_hash) None (JsNumber 42) None)) None.

Definition by_magnet : Raw.Result :=
  Raw.mkResult "by magnet" None []
    (Some (Raw.Attr.mk None (Some example_magnet) (JsNumber 999) None)) None.

Definition by_enclosure : Raw.Result :=
  Raw.mkResult "by enclosure" None
    [Raw.mkEnclosure "application/x-bittorrent" example_magnet] None None.

Definition torrent_file : Raw.Result :=
  Raw.mkResult "torrent file" None
    [Raw.mkEnclosure "application/x-bittorrent"
       "https://indexer.example/download/1.torrent"]
    (Some (Raw.Attr.mk None None (JsNumber 0) None)) None.

Definition other_link : Raw.Result :=
  Raw.mkResult "other link" None
    [Raw.mkEnclosure "text/html" "https://indexer.example/details/1"]
    None None.

Definition short_hash : Raw.Result :=
  Raw.mkResult "short hash" None []
    (Some (Raw.Attr.mk (Some "abcdef0123456789abcdef0123456789abcdef0")
             (Some example_magnet) JsUndefined None)) None.

End Torznab.

(* ------------------------------------------------------------------ *)
(** ** What [CustomPreset] and [JackettPreset] share *)

Module Preset.
Import Js.

(** [options: Record<string, any>]; a key that is not set reads as
    [undefined]. *)
Abbreviation Options := (gmap string JsValue).

Definition get (options : Options) (key : string) : JsValue :=
  default JsUndefined (options !! key).

(** The exceptions that occur: the [Error] the presets throw themselves and
    the [TypeError] of the platform ([new URL], a call on a value that has no
    such method). *)
Inductive Exception : Type :=
| Error (message : string)
| TypeError (message : string).

(** The outcome of a call: a value, or a thrown exception. *)
Inductive Completion (A : Type) : Type :=
| Return (a : A)
| Throw (e : Exception).

Arguments Return {A} a.
Arguments Throw {A} e.

(** [error.message]: what an exception carries besides its class. *)
Definition message_of (e : Exception) : string :=
  match e with
  | Error message | TypeError message => message
  end.

(** Modelled from the spec: an error "naming the offending field".  An
    exception of this code carries no field of its own, so it can name an
    option only in its message: [names_field] asks whether the identifier
    of the option occurs there. *)
Definition names_field (field : string) (e : Exception) : bool :=
  includes field (message_of e).

(** [try { body } catch (error) { throw handler }] *)
Definition try_catch_rethrow {A} (body : Completion A) (handler : Exception)
  : Completion A :=
  match body with
  | Return a => Return a
  | Throw _ => Throw handler
  end.

(** The values of [Env] the two presets read. *)
Record Env : Type := mkEnv {
  DEFAULT_TIMEOUT : float;
  DEFAULT_USER_AGENT : string;
  INTERNAL_URL : string;
  BUILTIN_JACKETT_URL : option string;
  BUILTIN_JACKETT_API_KEY : option string;
  BUILTIN_DEFAULT_JACKETT_TIMEOUT : option float;
}.

(** A [string | undefined] as a value. *)
Definition of_opt_string (o : option string) : JsValue :=
  match o with
  | Some s => JsString s
  | None => JsUndefined
  end.

(** An environment for the examples, without a built-in Jackett instance,
    and the same with one. *)
Definition example_env : Env :=
  mkEnv 15000 "AIOStreams" "http://localhost:3000" None None None.

Definition example_env_builtin : Env :=
  mkEnv 15000 "AIOStreams" "http://localhost:3000"
    (Some "http://jackett:9117/") (Some "builtin-key") None.

(** [a || b] on a [number | undefined] and a number. *)
Definition or_number (a : option float) (b : float) : float :=
  match a with
  | Some x => if truthy (JsNumber x) then x else b
  | None => b
  end.

(** The values of [Env] that the Bitmagnet and Knaben presets read beside
    these. *)
Record BuiltinEnv : Type := mkBuiltinEnv {
  BUILTIN_BITMAGNET_URL : option string;
  BUILTIN_DEFAULT_BITMAGNET_TIMEOUT : option float;
  BUILTIN_DEFAULT_KNABEN_TIMEOUT : option float;
}.

(** An entry of [METADATA.OPTIONS]; a property the literal does not write is
    [None]. *)
Inductive ChoiceValue (ServiceId : Type) : Type :=
| ServiceChoice (service : ServiceId)
| TextChoice (text : string).

Arguments ServiceChoice {ServiceId} service.
Arguments TextChoice {ServiceId} text.

Record Choice (ServiceId : Type) : Type := mkChoice {
  choice_value : ChoiceValue ServiceId;
  choice_label : string;
}.

Arguments mkChoice {ServiceId} choice_value choice_label.
Arguments choice_value {ServiceId} c.
Arguments choice_label {ServiceId} c.

Record OptionDef (ServiceId : Type) : Type := mkOptionDef {
  opt_id : string;
  opt_name : string;
  opt_description : string;
  opt_type : string;
  opt_intent : option string;
  opt_required : option bool;
  opt_showInNoobMode : option bool;
  opt_options : option (list (Choice ServiceId));
  opt_default : option JsValue;
  opt_emptyIsUndefined : option bool;
}.

Arguments mkOptionDef {ServiceId}.
Arguments opt_id {ServiceId} o.
Arguments opt_name {ServiceId} o.
Arguments opt_description {ServiceId} o.
Arguments opt_type {ServiceId} o.
Arguments opt_intent {ServiceId} o.
Arguments opt_required {ServiceId} o.
Arguments opt_showInNoobMode {ServiceId} o.
Arguments opt_options {ServiceId} o.
Arguments opt_default {ServiceId} o.
Arguments opt_emptyIsUndefined {ServiceId} o.

(** The object a [METADATA] getter of a built-in preset returns. *)
Record Metadata (ServiceId : Type) : Type := mkMetadata {
  ID : string;
  NAME : string;
  LOGO : string;
  URL : string;
  TIMEOUT : float;
  USER_AGENT : string;
  SUPPORTED_SERVICES : list ServiceId;
  DESCRIPTION : string;
  OPTIONS : list (OptionDef ServiceId);
  SUPPORTED_STREAM_TYPES : list string;
  SUPPORTED_RESOURCES : list string;
  BUILTIN : bool;
}.

Arguments mkMetadata {ServiceId}.
Arguments ID {ServiceId} m.
Arguments NAME {ServiceId} m.
Arguments LOGO {ServiceId} m.
Arguments URL {ServiceId} m.
Arguments TIMEOUT {ServiceId} m.
Arguments USER_AGENT {ServiceId} m.
Arguments SUPPORTED_SERVICES {ServiceId} m.
Arguments DESCRIPTION {ServiceId} m.
Arguments OPTIONS {ServiceId} m.
Arguments SUPPORTED_STREAM_TYPES {ServiceId} m.
Arguments SUPPORTED_RESOURCES {ServiceId} m.
Arguments BUILTIN {ServiceId} m.

(** The three options every built-in preset below starts with: [name],
    [timeout] and [services]. *)
Section CommonOptions.

Variable ServiceId : Type.
Variable supportedServices : list ServiceId.   (* StremThruPreset.supportedServices *)
Variable SERVICE_NAME : ServiceId -> string.   (* constants.SERVICE_DETAILS[s].name *)

Definition name_option (default : string) : OptionDef ServiceId :=
  {| opt_id := "name";
     opt_name := "Name";
     opt_description := "What to call this addon";
     opt_type := "string";
     opt_intent := None;
     opt_required := Some true;
     opt_showInNoobMode := None;
     opt_options := None;
     opt_default := Some (JsString default);
     opt_emptyIsUndefined := None |}.

Definition timeout_option (default : float) : OptionDef ServiceId :=
  {| opt_id := "timeout";
     opt_name := "Timeout";
     opt_description := "The timeout for this addon";
     opt_type := "number";
     opt_intent := None;
     opt_required := Some true;
     opt_showInNoobMode := None;
     opt_options := None;
     opt_default := Some (JsNumber default);
     opt_emptyIsUndefined := None |}.

Definition services_option : OptionDef ServiceId :=
  {| opt_id := "services";
     opt_name := "Services";
     opt_description :=
       "Optionally override the services that are used. If not specified, then the services that are enabled and supported will be used.";
     opt_type := "multi-select";
     opt_intent := None;
     opt_required := Some false;
     opt_showInNoobMode := Some false;
     opt_options :=
       Some (map (fun service =>
                    mkChoice (ServiceChoice service) (SERVICE_NAME service))
               supportedServices);
     opt_default := Some JsUndefined;
     opt_emptyIsUndefined := Some true |}.

End CommonOptions.

End Preset.

(* ------------------------------------------------------------------ *)
(** ** [CustomPreset] (src/unnamed/part_001) *)

Module CustomPreset.
Import Js Preset.

(** What [generateAddons] reads of a parsed [URL]. *)
Record URL : Type := mkURL {
  pathname : string;
}.

(** [Addon.preset] *)
Record PresetRef : Type := mkPresetRef {
  preset_id : string;
  preset_type : string;
  preset_options : Options;
}.

(** [Addon] *)
Record Addon : Type := mkAddon {
  name : JsValue;
  manifestUrl : JsValue;
  enabled : bool;
  library : JsValue;
  resources : JsValue;
  mediaTypes : JsValue;
  timeout : JsValue;
  preset : PresetRef;
  formatPassthrough : JsValue;
  resultPassthrough : JsValue;
  forceToTop : JsValue;
  headers : list (string * string);
}.

Section Custom.

(** The platform and the environment. *)
Variable UserData : Type.
Variable env : Env.
Variable new_URL : JsValue -> Completion URL.     (* new URL(x) *)
Variable Number_toString : float -> string.       (* Number.prototype.toString *)

(** ToString, as a template literal applies it. *)
Definition ToString (v : JsValue) : string :=
  match v with
  | JsUndefined => "undefined"
  | JsNull => "null"
  | JsBoolean true => "true"
  | JsBoolean false => "false"
  | JsNumber n => Number_toString n
  | JsString s => s
  | JsArray xs => String.concat "," xs
  end.

(** The fields of [METADATA] that [generateAddon] reads. *)
Definition METADATA_ID : string := "custom".
Definition METADATA_NAME : string := "Custom".
Definition METADATA_TIMEOUT : float := DEFAULT_TIMEOUT env.
Definition METADATA_USER_AGENT : string := DEFAULT_USER_AGENT env.

(** [CustomPreset.generateAddon] *)
Definition generateAddon (userData : UserData) (options : Options) : Addon :=
  {| name := or_else (get options "name") (JsString METADATA_NAME);
     manifestUrl := get options "manifestUrl";
     enabled := true;
     library := coalesce (get options "libraryAddon") (JsBoolean false);
     resources := or_else (get options "resources") JsUndefined;
     mediaTypes := or_else (get options "mediaTypes") (JsArray []);
     timeout := or_else (get options "timeout") (JsNumber METADATA_TIMEOUT);
     preset := {| preset_id := "";
                  preset_type := METADATA_ID;
                  preset_options := options |};
     formatPassthrough :=
       coalesce
         (coalesce (get options "formatPassthrough")
                   (get options "streamPassthrough"))
         (JsBoolean false);
     resultPassthrough :=
       coalesce (get options "resultPassthrough") (JsBoolean false);
     forceToTop := coalesce (get options "forceToTop") (JsBoolean false);
     headers := [("User-Agent", METADATA_USER_AGENT)] |}.

(** The message of the error [generateAddons] throws. *)
Definition invalid_manifest_message (options : Options) : string :=
  ToString (get options "name") +:+
  " has an invalid Manifest URL. It must be a valid link to a manifest.json".

(** [CustomPreset.generateAddons] *)
Definition generateAddons (userData : UserData) (options : Options)
  : Completion (list Addon) :=
  match
    try_catch_rethrow (new_URL (get options "manifestUrl"))
      (Error (invalid_manifest_message options))
  with
  | Throw e => Throw e
  | Return manifestUrl =>
      if negb (endsWith "/manifest.json" (pathname manifestUrl))
      then Throw (Error (invalid_manifest_message options))
      else Return [generateAddon userData options]
  end.

End Custom.

(** The addon with another raw options object in [preset.options]. *)
Definition with_options (options : Options) (addon : Addon) : Addon :=
  {| name := name addon;
     manifestUrl := manifestUrl addon;
     enabled := enabled addon;
     library := library addon;
     resources := resources addon;
     mediaTypes := mediaTypes addon;
     timeout := timeout addon;
     preset := {| preset_id := preset_id (preset addon);
                  preset_type := preset_type (preset addon);
                  preset_options := options |};
     formatPassthrough := formatPassthrough addon;
     resultPassthrough := resultPassthrough addon;
     forceToTop := forceToTop addon;
     headers := headers addon |}.

(** The [URL] constructor at the two addresses of the examples: a stand-in
    for the parser of the platform, which the examples use at these
    addresses only. *)
Definition example_new_URL (v : JsValue) : Completion URL :=
  match v with
  | JsString s =>
      if String.eqb s "https://example.com/foo/manifest.json"
      then Return (mkURL "/foo/manifest.json")
      else if String.eqb s "https://example.com/foo"
      then Return (mkURL "/foo")
      else Throw (TypeError "Invalid URL")
  | _ => Throw (TypeError "Invalid URL")
  end.

(** A stand-in for the text of a number, which the examples do not use. *)
Definition example_Number_toString : float -> string := fun _ => "".

Definition example_options (manifestUrl : string) : Options :=
  {[ "name" := JsString "My addon"; "manifestUrl" := JsString manifestUrl ]}.

End CustomPreset.

(* ------------------------------------------------------------------ *)
(** ** [JackettPreset] (src/packages/core/src/presets/jackett.ts) *)

Module JackettPreset.
Import Js Preset.

(** [s.replace(/\/$/, '')]: drop one slash at the end. *)
Fixpoint replace_trailing_slash (s : string) : string :=
  match s with
  | EmptyString => EmptyString
  | String a EmptyString => if Ascii.eqb a "/" then EmptyString else s
  | String a s' => String a (replace_trailing_slash s')
  end.

Section Jackett.

(** [UserData], [constants.ServiceId], and the object [getBaseConfig]
    returns, with the two inherited helpers. *)
Variable UserData : Type.
Variable ServiceId : Type.
Variable BaseConfig : Type.
Variable getBaseConfig : UserData -> list ServiceId -> BaseConfig.

(** The object literal [config]: the spread base configuration and the
    properties written after it. *)
Record Config : Type := mkConfig {
  base : BaseConfig;
  url : string;
  apiPath : string;
  apiKey : JsValue;
  forceQuerySearch : bool;
}.

Variable base64EncodeJSON : Config -> string.

Definition REQUIRED_MESSAGE : string := "Jackett URL and API Key are required".

(** The values of [jackettUrl] and [jackettApiKey] after the [if]. *)
Definition selected (env : Env) (options : Options) : JsValue * JsValue :=
  if truthy (get options "jackettUrl") || truthy (get options "jackettApiKey")
  then (get options "jackettUrl", get options "jackettApiKey")
  else (of_opt_string (BUILTIN_JACKETT_URL env),
        of_opt_string (BUILTIN_JACKETT_API_KEY env)).

(** [JackettPreset.generateManifestUrl] *)
Definition generateManifestUrl (env : Env) (userData : UserData)
  (services : list ServiceId) (options : Options) : Completion string :=
  let '(jackettUrl, jackettApiKey) := selected env options in
  if negb (truthy jackettUrl) || negb (truthy jackettApiKey)
  then Throw (Error REQUIRED_MESSAGE)
  else
    match jackettUrl with
    | JsString u =>
        let config :=
          {| base := getBaseConfig userData services;
             url := replace_trailing_slash u +:+
                    "/api/v2.0/indexers/all/results/torznab";
             apiPath := "/api";
             apiKey := jackettApiKey;
             forceQuerySearch := true |} in
        let configString := base64EncodeJSON config in
        Return (INTERNAL_URL env +:+ "/builtins/torznab/" +:+ configString
                +:+ "/manifest.json")
    | _ => Throw (TypeError "jackettUrl.replace is not a function")
    end.

(** The address [generateManifestUrl] returns for a URL and a key. *)
Definition address_of (env : Env) (userData : UserData)
  (services : list ServiceId) (u : string) (key : JsValue) : string :=
  INTERNAL_URL env +:+ "/builtins/torznab/" +:+
  base64EncodeJSON
    {| base := getBaseConfig userData services;
       url := replace_trailing_slash u +:+
              "/api/v2.0/indexers/all/results/torznab";
       apiPath := "/api";
       apiKey := key;
       forceQuerySearch := true |}
  +:+ "/manifest.json".

End Jackett.

(** For the examples: no base configuration, and an encoding that keeps the
    URL of the configuration readable (a stand-in for [base64EncodeJSON]). *)
Definition example_getBaseConfig : unit -> list unit -> unit := fun _ _ => tt.

Definition example_encode : Config unit -> string := fun config => url _ config.

Definition user_options : Options :=
  {[ "jackettUrl" := JsString "http://my-jackett:9117/";
     "jackettApiKey" := JsString "my-key" ]}.

Definition url_only_options : Options :=
  {[ "jackettUrl" := JsString "http://my-jackett:9117/" ]}.

(** [JackettPreset.METADATA] *)
Section Metadata.

Variable ServiceId : Type.
Variable supportedServices : list ServiceId.   (* StremThruPreset.supportedServices *)
Variable SERVICE_NAME : ServiceId -> string.   (* constants.SERVICE_DETAILS[s].name *)
Variable STREAM_RESOURCE : string.             (* constants.STREAM_RESOURCE *)
Variable DEBRID_STREAM_TYPE : string.          (* constants.DEBRID_STREAM_TYPE *)

(** The quotation mark of the description below. *)
Definition DQUOTE : string := String (ascii_of_nat 34) "".

(** [Env.BUILTIN_JACKETT_URL && Env.BUILTIN_JACKETT_API_KEY], as a
    condition. *)
Definition preconfigured (env : Env) : bool :=
  truthy_str (BUILTIN_JACKETT_URL env)
  && truthy_str (BUILTIN_JACKETT_API_KEY env).

(** [!Env.BUILTIN_JACKETT_URL || !Env.BUILTIN_JACKETT_API_KEY] *)
Definition credentials_required (env : Env) : bool :=
  negb (truthy_str (BUILTIN_JACKETT_URL env))
  || negb (truthy_str (BUILTIN_JACKETT_API_KEY env)).

Definition notRequiredNote : OptionDef ServiceId :=
  {| opt_id := "notRequiredNote";
     opt_name := "";
     opt_description :=
       "This instance has a preconfigured Jackett instance. You do not need to set the Jackett URL and API Key below. ";
     opt_type := "alert";
     opt_intent := Some "info";
     opt_required := None;
     opt_showInNoobMode := None;
     opt_options := None;
     opt_default := None;
     opt_emptyIsUndefined := None |}.

Definition jackettUrl_option (env : Env) : OptionDef ServiceId :=
  {| opt_id := "jackettUrl";
     opt_name := "Jackett URL";
     opt_description := "The URL of the Jackett instance";
     opt_type := "url";
     opt_intent := None;
     opt_required := Some (credentials_required env);
     opt_showInNoobMode := None;
     opt_options := None;
     opt_default := None;
     opt_emptyIsUndefined := None |}.

Definition jackettApiKey_option (env : Env) : OptionDef ServiceId :=
  {| opt_id := "jackettApiKey";
     opt_name := "Jackett API Key";
     opt_description := "The API key for the Jackett instance";
     opt_type := "password";
     opt_intent := None;
     opt_required := Some (credentials_required env);
     opt_showInNoobMode := None;
     opt_options := None;
     opt_default := None;
     opt_emptyIsUndefined := None |}.

Definition mediaTypes_option : OptionDef ServiceId :=
  {| opt_id := "mediaTypes";
     opt_name := "Media Types";
     opt_description :=
       "Limits this addon to the selected media types for streams. For example, selecting "
       +:+ DQUOTE +:+ "Movie" +:+ DQUOTE +:+
       " means this addon will only be used for movie streams (if the addon supports them). Leave empty to allow all.";
     opt_type := "multi-select";
     opt_intent := None;
     opt_required := Some false;
     opt_showInNoobMode := Some false;
     opt_options :=
       Some [mkChoice (TextChoice "movie") "Movie";
             mkChoice (TextChoice "series") "Series";
             mkChoice (TextChoice "anime") "Anime"];
     opt_default := Some (JsArray []);
     opt_emptyIsUndefined := None |}.

Definition METADATA (env : Env) : Metadata ServiceId :=
  let supportedResources := [STREAM_RESOURCE] in
  let options :=
    ([name_option ServiceId "Jackett";
      timeout_option ServiceId
        (or_number (BUILTIN_DEFAULT_JACKETT_TIMEOUT env) (DEFAULT_TIMEOUT env));
      services_option ServiceId supportedServices SERVICE_NAME]
     ++ (if preconfigured env then [notRequiredNote] else [])
     ++ [jackettUrl_option env; jackettApiKey_option env;
         mediaTypes_option])%list in
  {| ID := "jackett";
     NAME := "Jackett";
     LOGO :=
       "https://raw.githubusercontent.com/Jackett/Jackett/refs/heads/master/src/Jackett.Common/Content/jacket_medium.png";
     URL := INTERNAL_URL env +:+ "/builtins/torznab";
     TIMEOUT :=
       or_number (BUILTIN_DEFAULT_JACKETT_TIMEOUT env) (DEFAULT_TIMEOUT env);
     USER_AGENT := DEFAULT_USER_AGENT env;
     SUPPORTED_SERVICES := supportedServices;
     DESCRIPTION := "An addon to get debrid results from a Jackett instance.";
     OPTIONS := options;
     SUPPORTED_STREAM_TYPES := [DEBRID_STREAM_TYPE];
     SUPPORTED_RESOURCES := supportedResources;
     BUILTIN := true |}.

End Metadata.

End JackettPreset.

(* ------------------------------------------------------------------ *)
(** ** [BitmagnetPreset] (src/packages/core/src/presets/bitmagnet.ts) *)

Module BitmagnetPreset.
Import Js Preset.

Section Bitmagnet.

Variable UserData : Type.
Variable ServiceId : Type.
Variable BaseConfig : Type.
Variable getBaseConfig : UserData -> list ServiceId -> BaseConfig.
Variable supportedServices : list ServiceId.   (* StremThruPreset.supportedServices *)
Variable SERVICE_NAME : ServiceId -> string.   (* constants.SERVICE_DETAILS[s].name *)
Variable STREAM_RESOURCE : string.             (* constants.STREAM_RESOURCE *)
Variable DEBRID_STREAM_TYPE : string.          (* constants.DEBRID_STREAM_TYPE *)

(** [BitmagnetPreset.METADATA] *)
Definition METADATA (env : Env) (builtin : BuiltinEnv) : Metadata ServiceId :=
  let supportedResources := [STREAM_RESOURCE] in
  let options :=
    [name_option ServiceId "Bitmagnet";
     timeout_option ServiceId
       (or_number (BUILTIN_DEFAULT_BITMAGNET_TIMEOUT builtin)
          (DEFAULT_TIMEOUT env));
     services_option ServiceId supportedServices SERVICE_NAME] in
  {| ID := "bitmagnet";
     NAME := "Bitmagnet";
     LOGO :=
       "https://cdn.jsdelivr.net/gh/homarr-labs/dashboard-icons/png/bitmagnet.png";
     URL := INTERNAL_URL env +:+ "/builtins/torznab";
     TIMEOUT :=
       or_number (BUILTIN_DEFAULT_BITMAGNET_TIMEOUT builtin)
         (DEFAULT_TIMEOUT env);
     USER_AGENT := DEFAULT_USER_AGENT env;
     SUPPORTED_SERVICES := supportedServices;
     DESCRIPTION :=
       "An addon to get debrid results from Bitmagnet, a self-hosted BitTorrent indexer and DHT crawler.";
     OPTIONS := options;
     SUPPORTED_STREAM_TYPES := [DEBRID_STREAM_TYPE];
     SUPPORTED_RESOURCES := supportedResources;
     BUILTIN := true |}.

(** The object literal [config]. *)
Record Config : Type := mkConfig {
  base : BaseConfig;
  url : string;
  apiPath : string;
  forceQuerySearch : bool;
}.

Variable base64EncodeJSON : Config -> string.

Definition NOT_SET_MESSAGE : string := "The Bitmagnet URL is not set".

(** [BitmagnetPreset.generateManifestUrl] *)
Definition generateManifestUrl (env : Env) (builtin : BuiltinEnv)
  (userData : UserData) (services : list ServiceId) (options : Options)
  : Completion string :=
  match BUILTIN_BITMAGNET_URL builtin with
  | Some u =>
      if negb (truthy_str (Some u)) then Throw (Error NOT_SET_MESSAGE)
      else
        let config :=
          {| base := getBaseConfig userData services;
             url := JackettPreset.replace_trailing_slash u +:+ "/torznab";
             apiPath := "/api";
             forceQuerySearch := true |} in
        let configString := base64EncodeJSON config in
        Return (INTERNAL_URL env +:+ "/builtins/torznab/" +:+ configString
                +:+ "/manifest.json")
  | None => Throw (Error NOT_SET_MESSAGE)
  end.

End Bitmagnet.

End BitmagnetPreset.

(* ------------------------------------------------------------------ *)
(** ** [KnabenPreset] (src/packages/core/src/presets/jackett.ts, second
    unit) *)

Module KnabenPreset.
Import Js Preset.

Section Knaben.

Variable UserData : Type.
Variable ServiceId : Type.
Variable BaseConfig : Type.
Variable getBaseConfig : UserData -> list ServiceId -> BaseConfig.
Variable base64EncodeJSON : BaseConfig -> string.
Variable supportedServices : list ServiceId.   (* StremThruPreset.supportedServices *)
Variable SERVICE_NAME : ServiceId -> string.   (* constants.SERVICE_DETAILS[s].name *)
Variable STREAM_RESOURCE : string.             (* constants.STREAM_RESOURCE *)
Variable DEBRID_STREAM_TYPE : string.          (* constants.DEBRID_STREAM_TYPE *)

(** [KnabenPreset.METADATA] *)
Definition METADATA (env : Env) (builtin : BuiltinEnv) : Metadata ServiceId :=
  let supportedResources := [STREAM_RESOURCE] in
  let options :=
    [name_option ServiceId "Knaben";
     timeout_option ServiceId
       (or_number (BUILTIN_DEFAULT_KNABEN_TIMEOUT builtin)
          (DEFAULT_TIMEOUT env));
     services_option ServiceId supportedServices SERVICE_NAME] in
  {| ID := "knaben";
     NAME := "Knaben";
     LOGO := "/assets/knaben_logo.png";
     URL := INTERNAL_URL env +:+ "/builtins/knaben";
     TIMEOUT :=
       or_number (BUILTIN_DEFAULT_KNABEN_TIMEOUT builtin)
         (DEFAULT_TIMEOUT env);
     USER_AGENT := DEFAULT_USER_AGENT env;
     SUPPORTED_SERVICES := supportedServices;
     DESCRIPTION :=
       "An addon to get debrid results from Knaben, an indexer proxy for several indexers, including The Pirate Bay, 1337x, RARBG, YTS, Nyaa.si and more.";
     OPTIONS := options;
     SUPPORTED_STREAM_TYPES := [DEBRID_STREAM_TYPE];
     SUPPORTED_RESOURCES := supportedResources;
     BUILTIN := true |}.

(** [KnabenPreset.generateManifestUrl] *)
Definition generateManifestUrl (env : Env) (userData : UserData)
  (services : list ServiceId) (options : Options) : Completion string :=
  Return (INTERNAL_URL env +:+ "/builtins/knaben/" +:+
          base64EncodeJSON (getBaseConfig userData services)
          +:+ "/manifest.json").

End Knaben.

End KnabenPreset.

(* ------------------------------------------------------------------ *)
(** ** [DB] (src/packages/core/src/db/db.ts, first unit)

    The class has one instance ([getInstance]); its fields and the static
    fields of the class form the state.  The drivers ([pg], [sqlite],
    [fs]) and the logger are the environment: every call to them is
    recorded in a trace, and what a driver call returns or throws is given
    by an oracle that may depend on the calls made so far.  [trim] and
    [toUpperCase] of strings are those of the platform, parameters of the
    model.  Methods are taken to be awaited one at a time. *)

Module DB.
Import Js Preset.

(** [DBDialect] *)
Inductive DBDialect : Type := postgres | sqlite.

Definition DBDialect_eqb (a b : DBDialect) : bool :=
  match a, b with
  | postgres, postgres | sqlite, sqlite => true
  | _, _ => false
  end.

(** [ConnectionURI] of [./utils.js], as the class reads it: a [dialect]
    and, by dialect, the [url] or the [filename]. *)
Inductive ConnectionURI : Type :=
| PostgresURI (url : string)
| SqliteURI (filename : string).

Definition uri_dialect (u : ConnectionURI) : DBDialect :=
  match u with
  | PostgresURI _ => postgres
  | SqliteURI _ => sqlite
  end.

(** What [this.db] holds: a [Pool] or a [Database]. *)
Inductive Handle : Type := PoolHandle | DatabaseHandle.

Section Database.

Variable Row : Type.
Variable Param : Type.
Variable DSNModifier : Type.

(** The result of a query of [pg], and of [run] of [sqlite], as far as the
    class reads them. *)
Record PgResult : Type := mkPgResult {
  pg_rows : list Row;
  pg_rowCount : option nat;
  pg_command : string;
}.

Record RunResult : Type := mkRunResult {
  changes : option nat;
}.

(** [UnifiedQueryResult] *)
Record UnifiedQueryResult : Type := mkUnifiedQueryResult {
  rows : list Row;
  rowCount : nat;
  command : option string;
}.

(** The calls to the environment. *)
Inductive Call : Type :=
| pool_new (connectionString : string)
| pool_query (text : string) (params : option (list Param))
| pool_connect
| pool_end
| client_query (client : nat) (text : string) (params : option (list Param))
| client_release (client : nat)
| sqlite_open (filename : string)
| sqlite_run (sql : string) (params : option (list Param))
| sqlite_all (sql : string) (params : option (list Param))
| sqlite_get (sql : string)
| sqlite_exec (sql : string)
| sqlite_close
| fs_existsSync (path : string)
| fs_mkdirSync (path : string)
| logger_info (message : string)
| logger_debug (message : string)
| logger_error (message : string) (error : Exception).

(** What the drivers answer, given the calls made so far. *)
Record Driver : Type := mkDriver {
  on_pool_new : list Call -> string -> Completion unit;
  on_pool_query :
    list Call -> string -> option (list Param) -> Completion PgResult;
  on_pool_connect : list Call -> Completion nat;
  on_pool_end : list Call -> Completion unit;
  on_client_query :
    list Call -> nat -> string -> option (list Param) -> Completion PgResult;
  on_client_release : list Call -> nat -> Completion unit;
  on_sqlite_open : list Call -> string -> Completion unit;
  on_sqlite_run :
    list Call -> string -> option (list Param) -> Completion RunResult;
  on_sqlite_all :
    list Call -> string -> option (list Param) -> Completion (list Row);
  on_sqlite_get : list Call -> string -> Completion unit;
  on_sqlite_exec : list Call -> string -> Completion unit;
  on_sqlite_close : list Call -> Completion unit;
  on_fs_existsSync : list Call -> string -> bool;
  on_fs_mkdirSync : list Call -> string -> Completion unit;
}.

Variable driver : Driver.

(** Imported from [./utils.js], [./schemas.js] and [path]. *)
Variable parseConnectionURI : string -> Completion ConnectionURI.
Variable adaptQuery : string -> DBDialect -> string.
Variable TABLES : list (string * string).        (* Object.entries(TABLES) *)
Variable dirname : string -> string.             (* path.dirname *)
Variable trim : string -> string.                (* String.prototype.trim *)
Variable toUpperCase : string -> string.  (* String.prototype.toUpperCase *)

(** The static fields of the class, the fields of its instance, and the
    trace of the calls made. *)
Record World : Type := mkWorld {
  initialised : bool;                   (* DB.initialised *)
  dialect : option DBDialect;           (* DB.dialect *)
  uri : option ConnectionURI;           (* this.uri *)
  db : option Handle;                   (* this.db *)
  dsnModifiers : list DSNModifier;      (* this.dsnModifiers *)
  trace : list Call;
}.

Definition initial_world : World :=
  {| initialised := false; dialect := None; uri := None; db := None;
     dsnModifiers := []; trace := [] |}.

(** Computations over a state [S] that may throw; what was done before a
    [throw] stays done. *)
Definition M (S A : Type) : Type := S -> Completion A * S.

Definition ret {S A} (a : A) : M S A := fun s => (Return a, s).

Definition throw {S A} (e : Exception) : M S A := fun s => (Throw e, s).

Definition bind {S A B} (m : M S A) (f : A -> M S B) : M S B :=
  fun s =>
    match m s with
    | (Return a, s') => f a s'
    | (Throw e, s') => (Throw e, s')
    end.

(** [try { m } catch (error) { handler }] *)
Definition try_catch {S A} (m : M S A) (handler : Exception -> M S A)
  : M S A :=
  fun s =>
    match m s with
    | (Return a, s') => (Return a, s')
    | (Throw e, s') => handler e s'
    end.

(** [try { m } finally { cleanup }] *)
Definition try_finally {S A} (m : M S A) (cleanup : M S unit) : M S A :=
  fun s =>
    match m s with
    | (outcome, s') =>
        match cleanup s' with
        | (Return _, s'') => (outcome, s'')
        | (Throw e, s'') => (Throw e, s'')
        end
    end.

Definition get_state {S} : M S S := fun s => (Return s, s).

Definition modify {S} (f : S -> S) : M S unit := fun s => (Return tt, f s).

(** [for (const x of xs) { body }] *)
Fixpoint for_each {S A} (xs : list A) (body : A -> M S unit) : M S unit :=
  match xs with
  | [] => ret tt
  | x :: xs' => bind (body x) (fun _ => for_each xs' body)
  end.

(** A call to the environment: the oracle answers from the trace so far,
    and the call is recorded. *)
Definition record (c : Call) (w : World) : World :=
  {| initialised := initialised w; dialect := dialect w; uri := uri w;
     db := db w; dsnModifiers := dsnModifiers w; trace := trace w ++ [c] |}.

Definition perform {A} (c : Call) (answer : list Call -> Completion A)
  : M World A :=
  fun w => (answer (trace w), record c w).

(** The logger only records. *)
Definition log (c : Call) : M World unit :=
  fun w => (Return tt, record c w).

Definition set_uri (u : ConnectionURI) (w : World) : World :=
  {| initialised := initialised w; dialect := dialect w; uri := Some u;
     db := db w; dsnModifiers := dsnModifiers w; trace := trace w |}.

Definition set_dsnModifiers (ms : list DSNModifier) (w : World) : World :=
  {| initialised := initialised w; dialect := dialect w; uri := uri w;
     db := db w; dsnModifiers := ms; trace := trace w |}.

Definition set_db (h : Handle) (w : World) : World :=
  {| initialised := initialised w; dialect := dialect w; uri := uri w;
     db := Some h; dsnModifiers := dsnModifiers w; trace := trace w |}.

Definition set_initialised (b : bool) (w : World) : World :=
  {| initialised := b; dialect := dialect w; uri := uri w;
     db := db w; dsnModifiers := dsnModifiers w; trace := trace w |}.

Definition set_dialect (d : DBDialect) (w : World) : World :=
  {| initialised := initialised w; dialect := Some d; uri := uri w;
     db := db w; dsnModifiers := dsnModifiers w; trace := trace w |}.

(** Reading [this.uri.dialect], which every method reads first of
    [this.uri]: a [TypeError] while [this.uri] is [undefined]. *)
Definition this_uri : M World ConnectionURI :=
  fun w =>
    match uri w with
    | Some u => (Return u, w)
    | None =>
        (Throw
           (TypeError
              "Cannot read properties of undefined (reading 'dialect')"), w)
    end.

(** Calling a method of [this.db] under the cast [as Pool] or
    [as Database]: a [TypeError] while [this.db] is [undefined], and when it
    is the other kind of object, which has no such method. *)
Definition on_db {A} (kind : Handle) (call : M World A) : M World A :=
  fun w =>
    match db w, kind with
    | Some PoolHandle, PoolHandle | Some DatabaseHandle, DatabaseHandle =>
        call w
    | Some _, _ => (Throw (TypeError "is not a function"), w)
    | None, _ =>
        (Throw (TypeError "Cannot read properties of undefined"), w)
    end.

(** [DB.isInitialised], [DB.getDialect], [DB.isSQLite] *)
Definition isInitialised (w : World) : bool := initialised w.

Definition getDialect (w : World) : option DBDialect := dialect w.

Definition isSQLite (w : World) : bool :=
  match getDialect w with
  | Some sqlite => true
  | _ => false
  end.

(** What [execute] returns: the result of the driver. *)
Inductive ExecuteResult : Type :=
| PgExecuted (r : PgResult)
| SqliteExecuted (r : RunResult).

(** [x || y] and [x || 0] on counts that may be [undefined] or [null]. *)
Definition or_count (a b : option nat) : option nat :=
  match a with
  | Some (S n) => Some (S n)
  | _ => b
  end.

Definition or_zero (a : option nat) : nat := default 0 a.

Definition result_changes (r : ExecuteResult) : option nat :=
  match r with
  | SqliteExecuted r' => changes r'
  | PgExecuted _ => None
  end.

Definition result_rowCount (r : ExecuteResult) : option nat :=
  match r with
  | PgExecuted r' => pg_rowCount r'
  | SqliteExecuted _ => None
  end.

(** [DB.getRowsAffected] *)
Definition getRowsAffected (w : World) (result : ExecuteResult) : nat :=
  if isSQLite w
  then or_zero (or_count (result_changes result) (result_rowCount result))
  else or_zero (result_rowCount result).

(** [DB.open] *)
Definition open : M World unit :=
  bind this_uri (fun u =>
  match u with
  | PostgresURI url =>
      bind (perform (pool_new url) (fun t => on_pool_new driver t url))
        (fun _ => modify (set_db PoolHandle))
  | SqliteURI filename =>
      let parentDir := dirname filename in
      if negb (truthy_str (Some parentDir))
      then throw (Error "Invalid SQLite path")
      else
        bind (perform (fs_existsSync parentDir)
                (fun t => Return (on_fs_existsSync driver t parentDir)))
          (fun present =>
        bind (if negb present
              then perform (fs_mkdirSync parentDir)
                     (fun t => on_fs_mkdirSync driver t parentDir)
              else ret tt)
          (fun _ =>
        bind (log (logger_debug ("Opening SQLite database: " +:+ filename)))
          (fun _ =>
        bind (perform (sqlite_open filename)
                (fun t => on_sqlite_open driver t filename))
          (fun _ => modify (set_db DatabaseHandle)))))
  end).

(** [DB.close] *)
Definition close : M World unit :=
  bind this_uri (fun u =>
  match u with
  | PostgresURI _ =>
      on_db PoolHandle (perform pool_end (on_pool_end driver))
  | SqliteURI _ =>
      on_db DatabaseHandle (perform sqlite_close (on_sqlite_close driver))
  end).

(** [DB.ping] *)
Definition ping : M World unit :=
  bind this_uri (fun u =>
  match u with
  | PostgresURI _ =>
      on_db PoolHandle
        (bind (perform (pool_query "SELECT 1" None)
                 (fun t => on_pool_query driver t "SELECT 1" None))
           (fun _ => ret tt))
  | SqliteURI _ =>
      on_db DatabaseHandle
        (perform (sqlite_get "SELECT 1")
           (fun t => on_sqlite_get driver t "SELECT 1"))
  end).

(** [DB.execute] *)
Definition execute (query : string) (params : option (list Param))
  : M World ExecuteResult :=
  bind this_uri (fun u =>
  match u with
  | PostgresURI _ =>
      let text := adaptQuery query postgres in
      on_db PoolHandle
        (bind (perform (pool_query text params)
                 (fun t => on_pool_query driver t text params))
           (fun r => ret (PgExecuted r)))
  | SqliteURI _ =>
      let sql := adaptQuery query sqlite in
      on_db DatabaseHandle
        (bind (perform (sqlite_run sql params)
                 (fun t => on_sqlite_run driver t sql params))
           (fun r => ret (SqliteExecuted r)))
  end).

(** [DB.query] *)
Definition query (text : string) (params : option (list Param))
  : M World (list Row) :=
  bind this_uri (fun u =>
  let adaptedQuery := adaptQuery text (uri_dialect u) in
  match u with
  | PostgresURI _ =>
      on_db PoolHandle
        (bind (perform (pool_query adaptedQuery params)
                 (fun t => on_pool_query driver t adaptedQuery params))
           (fun result => ret (pg_rows result)))
  | SqliteURI _ =>
      on_db DatabaseHandle
        (perform (sqlite_all adaptedQuery params)
           (fun t => on_sqlite_all driver t adaptedQuery params))
  end).

(** The statements [initialise] executes on SQLite after the tables. *)
Definition PRAGMAS : list string :=
  ["PRAGMA busy_timeout = 5000"; "PRAGMA foreign_keys = ON";
   "PRAGMA synchronous = OFF"; "PRAGMA journal_mode = WAL"].

Definition createTableQuery (table : string * string) : string :=
  "CREATE TABLE IF NOT EXISTS " +:+ fst table +:+ " (" +:+ snd table +:+ ")".

Definition run_statement (text : string) : M World unit :=
  bind (execute text None) (fun _ => ret tt).

(** [DB.initialise] *)
Definition initialise (uri_text : string) (modifiers : list DSNModifier)
  : M World unit :=
  bind get_state (fun w =>
  if initialised w then ret tt
  else
    try_catch
      (bind (fun w' => (parseConnectionURI uri_text, w')) (fun u =>
       bind (modify (set_uri u)) (fun _ =>
       bind (modify (set_dsnModifiers modifiers)) (fun _ =>
       bind open (fun _ =>
       bind ping (fun _ =>
       bind (for_each TABLES
               (fun table => run_statement (createTableQuery table)))
         (fun _ =>
       bind this_uri (fun u' =>
       bind (match u' with
             | SqliteURI _ => for_each PRAGMAS run_statement
             | PostgresURI _ => ret tt
             end) (fun _ =>
       bind (modify (set_initialised true)) (fun _ =>
       bind this_uri (fun u'' =>
       bind (modify (set_dialect (uri_dialect u''))) (fun _ =>
       log (logger_info "Database initialised")))))))))))))
      (fun error =>
         bind (log (logger_error "Failed to initialize database:" error))
           (fun _ => throw error))).

(** A [Transaction]: the client of the pool it runs on, or the database of
    the instance; with them goes the flag the three closures share
    ([finalised], [isFinalised]). *)
Inductive Transaction : Type :=
| PgTransaction (client : nat)
| SqliteTransaction.

Record TxWorld : Type := mkTxWorld {
  finalised : bool;
  world : World;
}.

(** A computation on the instance, within a transaction. *)
Definition lift {A} (m : M World A) : M TxWorld A :=
  fun s =>
    match m (world s) with
    | (outcome, w') => (outcome, {| finalised := finalised s; world := w' |})
    end.

Definition set_finalised (b : bool) (s : TxWorld) : TxWorld :=
  {| finalised := b; world := world s |}.

(** [s.split(' ')[0]]: the text before the first space.  A character
    outside ASCII is held as units above 127, none of which is a space. *)
Fixpoint first_word (s : string) : string :=
  match s with
  | String a s' =>
      if Ascii.eqb a " " then EmptyString else String a (first_word s')
  | EmptyString => EmptyString
  end.

(** [adaptedQuery.trim().split(' ')[0].toUpperCase()], with [trim] and
    [toUpperCase] of the platform. *)
Definition command_of (adaptedQuery : string) : string :=
  toUpperCase (first_word (trim adaptedQuery)).

Definition WRITE_COMMANDS : list string := ["INSERT"; "UPDATE"; "DELETE"].

Definition is_write (command : string) : bool :=
  existsb (String.eqb command) WRITE_COMMANDS.

Definition FINALISED_MESSAGE : string :=
  "Transaction has already been finalised.".

(** [finalise] of a transaction on PostgreSQL *)
Definition finalise (client : nat) : M TxWorld unit :=
  bind get_state (fun s =>
  if negb (finalised s)
  then bind (modify (set_finalised true)) (fun _ =>
       lift (perform (client_release client)
               (fun t => on_client_release driver t client)))
  else ret tt).

Definition client_statement (client : nat) (text : string) : M TxWorld unit :=
  lift (bind (perform (client_query client text None)
                (fun t => on_client_query driver t client text None))
          (fun _ => ret tt)).

Definition database_exec (sql : string) : M TxWorld unit :=
  lift (on_db DatabaseHandle
          (perform (sqlite_exec sql) (fun t => on_sqlite_exec driver t sql))).

(** [commit] and [rollback] of a transaction *)
Definition end_transaction (statement : string) (tx : Transaction)
  : M TxWorld unit :=
  match tx with
  | PgTransaction client =>
      try_finally (client_statement client statement) (finalise client)
  | SqliteTransaction =>
      bind get_state (fun s =>
      if finalised s then ret tt
      else bind (database_exec statement) (fun _ =>
           modify (set_finalised true)))
  end.

Definition commit : Transaction -> M TxWorld unit := end_transaction "COMMIT".

Definition rollback : Transaction -> M TxWorld unit :=
  end_transaction "ROLLBACK".

(** [execute] of a transaction *)
Definition tx_execute (tx : Transaction) (query : string)
  (params : option (list Param)) : M TxWorld UnifiedQueryResult :=
  match tx with
  | PgTransaction client =>
      let text := adaptQuery query postgres in
      bind (lift (perform (client_query client text params)
                    (fun t => on_client_query driver t client text params)))
        (fun result =>
           ret {| rows := pg_rows result;
                  rowCount := or_zero (pg_rowCount result);
                  command := Some (pg_command result) |})
  | SqliteTransaction =>
      bind get_state (fun s =>
      if finalised s then throw (Error FINALISED_MESSAGE)
      else
        let adaptedQuery := adaptQuery query sqlite in
        let command := command_of adaptedQuery in
        if is_write command
        then
          bind (lift (on_db DatabaseHandle
                        (perform (sqlite_run adaptedQuery params)
                           (fun t =>
                              on_sqlite_run driver t adaptedQuery params))))
            (fun result =>
               ret {| rows := [];
                      rowCount := or_zero (changes result);
                      command := Some command |})
        else
          bind (lift (on_db DatabaseHandle
                        (perform (sqlite_all adaptedQuery params)
                           (fun t =>
                              on_sqlite_all driver t adaptedQuery params))))
            (fun rows =>
               ret {| rows := rows;
                      rowCount := length rows;
                      command := Some command |}))
  end.

(** [DB.begin]: the transaction, its flag not set. *)
Definition begin : M World Transaction :=
  bind this_uri (fun u =>
  match u with
  | PostgresURI _ =>
      bind (on_db PoolHandle (perform pool_connect (on_pool_connect driver)))
        (fun client =>
      bind (perform (client_query client "BEGIN" None)
              (fun t => on_client_query driver t client "BEGIN" None))
        (fun _ => ret (PgTransaction client)))
  | SqliteURI _ =>
      bind (on_db DatabaseHandle
              (perform (sqlite_exec "BEGIN")
                 (fun t => on_sqlite_exec driver t "BEGIN")))
        (fun _ => ret SqliteTransaction)
  end).

(** The calls a user makes on a transaction, one after the other; what each
    returns or throws is the user's to see, and the next call follows
    either way. *)
Inductive TxCall : Type :=
| Commit
| Rollback
| Execute (query : string) (params : option (list Param)).

Definition tx_call (tx : Transaction) (c : TxCall) (s : TxWorld)
  : Completion (option UnifiedQueryResult) * TxWorld :=
  match c with
  | Commit => bind (commit tx) (fun _ => ret None) s
  | Rollback => bind (rollback tx) (fun _ => ret None) s
  | Execute q params => bind (tx_execute tx q params) (fun r => ret (Some r)) s
  end.

Definition tx_calls (tx : Transaction) (cs : list TxCall) (s : TxWorld)
  : TxWorld :=
  fold_left (fun s' c => snd (tx_call tx c s')) cs s.

(** A transaction as [begin] hands it out. *)
Definition started (w : World) : TxWorld := {| finalised := false; world := w |}.

Definition is_release (c : Call) : bool :=
  match c with
  | client_release _ => true
  | _ => false
  end.

(** Does the call of the user end the transaction? *)
Definition ends (c : TxCall) : bool :=
  match c with
  | Commit | Rollback => true
  | Execute _ _ => false
  end.

Definition is_client_query (c : Call) : bool :=
  match c with
  | client_query _ _ _ => true
  | _ => false
  end.

(** The object [this.db] holds after [open], by dialect. *)
Definition handle_of (u : ConnectionURI) : Handle :=
  match u with
  | PostgresURI _ => PoolHandle
  | SqliteURI _ => DatabaseHandle
  end.

(** The fields of the class and of its instance are the same in both. *)
Definition same_fields (w w' : World) : Prop :=
  initialised w' = initialised w /\ dialect w' = dialect w /\
  uri w' = uri w /\ db w' = db w /\ dsnModifiers w' = dsnModifiers w.

(** The calls of [open] and of [ping] when they succeed, and of a
    statement of [initialise]. *)
Definition open_calls (u : ConnectionURI) (present : bool) : list Call :=
  match u with
  | PostgresURI url => [pool_new url]
  | SqliteURI filename =>
      [fs_existsSync (dirname filename)] ++
      (if present then [] else [fs_mkdirSync (dirname filename)]) ++
      [logger_debug ("Opening SQLite database: " +:+ filename);
       sqlite_open filename]
  end%list.

Definition ping_call (u : ConnectionURI) : Call :=
  match u with
  | PostgresURI _ => pool_query "SELECT 1" None
  | SqliteURI _ => sqlite_get "SELECT 1"
  end.

Definition statement_call (d : DBDialect) (text : string) : Call :=
  match d with
  | postgres => pool_query (adaptQuery text postgres) None
  | sqlite => sqlite_run (adaptQuery text sqlite) None
  end.

Definition schema_statements (d : DBDialect) : list string :=
  (map createTableQuery TABLES ++
   match d with
   | sqlite => PRAGMAS
   | postgres => []
   end)%list.

End Database.

Arguments mkPgResult {Row} pg_rows pg_rowCount pg_command.
Arguments pg_rows {Row} p.
Arguments pg_rowCount {Row} p.
Arguments pg_command {Row} p.
Arguments mkUnifiedQueryResult {Row} rows rowCount command.
Arguments rows {Row} u.
Arguments rowCount {Row} u.
Arguments command {Row} u.
Arguments pool_new {Param} connectionString.
Arguments pool_query {Param} text params.
Arguments pool_connect {Param}.
Arguments pool_end {Param}.
Arguments client_query {Param} client text params.
Arguments client_release {Param} client.
Arguments sqlite_open {Param} filename.
Arguments sqlite_run {Param} sql params.
Arguments sqlite_all {Param} sql params.
Arguments sqlite_get {Param} sql.
Arguments sqlite_exec {Param} sql.
Arguments sqlite_close {Param}.
Arguments fs_existsSync {Param} path.
Arguments fs_mkdirSync {Param} path.
Arguments logger_info {Param} message.
Arguments logger_debug {Param} message.
Arguments logger_error {Param} message error.
Arguments mkDriver {Row Param}.
Arguments on_pool_new {Row Param} d.
Arguments on_pool_query {Row Param} d.
Arguments on_pool_connect {Row Param} d.
Arguments on_pool_end {Row Param} d.
Arguments on_client_query {Row Param} d.
Arguments on_client_release {Row Param} d.
Arguments on_sqlite_open {Row Param} d.
Arguments on_sqlite_run {Row Param} d.
Arguments on_sqlite_all {Row Param} d.
Arguments on_sqlite_get {Row Param} d.
Arguments on_sqlite_exec {Row Param} d.
Arguments on_sqlite_close {Row Param} d.
Arguments on_fs_existsSync {Row Param} d.
Arguments on_fs_mkdirSync {Row Param} d.
Arguments mkWorld {Param DSNModifier}.
Arguments initialised {Param DSNModifier} w.
Arguments dialect {Param DSNModifier} w.
Arguments uri {Param DSNModifier} w.
Arguments db {Param DSNModifier} w.
Arguments dsnModifiers {Param DSNModifier} w.
Arguments trace {Param DSNModifier} w.
Arguments initial_world {Param DSNModifier}.
Arguments record {Param DSNModifier} c w.
Arguments perform {Param DSNModifier A} c answer _.
Arguments log {Param DSNModifier} c _.
Arguments set_uri {Param DSNModifier} u w.
Arguments set_dsnModifiers {Param DSNModifier} ms w.
Arguments set_db {Param DSNModifier} h w.
Arguments set_initialised {Param DSNModifier} b w.
Arguments set_dialect {Param DSNModifier} d w.
Arguments this_uri {Param DSNModifier} _.
Arguments on_db {Param DSNModifier A} kind call _.
Arguments isInitialised {Param DSNModifier} w.
Arguments getDialect {Param DSNModifier} w.
Arguments isSQLite {Param DSNModifier} w.
Arguments PgExecuted {Row} r.
Arguments SqliteExecuted {Row} r.
Arguments result_changes {Row} r.
Arguments result_rowCount {Row} r.
Arguments getRowsAffected {Row Param DSNModifier} w result.
Arguments open {Row Param DSNModifier} driver dirname _.
Arguments close {Row Param DSNModifier} driver _.
Arguments ping {Row Param DSNModifier} driver _.
Arguments execute {Row Param DSNModifier} driver adaptQuery query params _.
Arguments query {Row Param DSNModifier} driver adaptQuery text params _.
Arguments run_statement {Row Param DSNModifier} driver adaptQuery text _.
Arguments initialise {Row Param DSNModifier} driver parseConnectionURI
  adaptQuery TABLES dirname uri_text modifiers _.
Arguments mkTxWorld {Param DSNModifier} finalised world.
Arguments finalised {Param DSNModifier} t.
Arguments world {Param DSNModifier} t.
Arguments lift {Param DSNModifier A} m _.
Arguments set_finalised {Param DSNModifier} b s.
Arguments finalise {Row Param DSNModifier} driver client _.
Arguments client_statement {Row Param DSNModifier} driver client text _.
Arguments database_exec {Row Param DSNModifier} driver sql _.
Arguments end_transaction {Row Param DSNModifier} driver statement tx _.
Arguments commit {Row Param DSNModifier} driver _ _.
Arguments rollback {Row Param DSNModifier} driver _ _.
Arguments tx_execute {Row Param DSNModifier} driver adaptQuery trim
  toUpperCase tx query params _.
Arguments begin {Row Param DSNModifier} driver _.
Arguments Commit {Param}.
Arguments Rollback {Param}.
Arguments Execute {Param} query params.
Arguments tx_call {Row Param DSNModifier} driver adaptQuery trim toUpperCase
  tx c s.
Arguments tx_calls {Row Param DSNModifier} driver adaptQuery trim toUpperCase
  tx cs s.
Arguments started {Param DSNModifier} w.
Arguments same_fields {Param DSNModifier} w w'.
Arguments is_release {Param} c.
Arguments ends {Param} c.
Arguments is_client_query {Param} c.
Arguments open_calls {Param} dirname u present.
Arguments ping_call {Param} u.
Arguments statement_call {Param} adaptQuery d text.

(** Every code unit is below 128. *)
Definition is_ascii (s : string) : bool :=
  all_chars (fun a => (nat_of_ascii a <? 128)%nat) s.

(** [String.prototype.toUpperCase] on ASCII text: the letters a to z
    become A to Z, every other character stays. *)
Fixpoint toUpperCase_ascii (s : string) : string :=
  match s with
  | EmptyString => EmptyString
  | String a s' => String (upper_ascii a) (toUpperCase_ascii s')
  end.

(** [String.prototype.trim] on ASCII text: the white space below 128 is
    tab, line feed, vertical tab, form feed, carriage return and space. *)
Definition is_space (a : ascii) : bool :=
  let n := nat_of_ascii a in
  (9 <=? n)%nat && (n <=? 13)%nat || (n =? 32)%nat.

Fixpoint trimStart_ascii (s : string) : string :=
  match s with
  | String a s' => if is_space a then trimStart_ascii s' else s
  | EmptyString => EmptyString
  end.

Fixpoint trimEnd_ascii (s : string) : string :=
  match s with
  | String a s' =>
      match trimEnd_ascii s' with
      | EmptyString => if is_space a then EmptyString else String a EmptyString
      | rest => String a rest
      end
  | EmptyString => EmptyString
  end.

Definition trim_ascii (s : string) : string :=
  trimEnd_ascii (trimStart_ascii s).

(** A driver for the examples: every call succeeds, a query of [pg]
    reports one row affected, [run] of [sqlite] two changes, and [all] of
    [sqlite] finds three rows for a SELECT and none otherwise; the directory
    of the database exists. *)
Definition example_driver : Driver unit unit :=
  {| on_pool_new := fun _ _ => Return tt;
     on_pool_query := fun _ _ _ => Return (mkPgResult [] (Some 1) "SELECT");
     on_pool_connect := fun _ => Return 7;
     on_pool_end := fun _ => Return tt;
     on_client_query :=
       fun _ _ _ _ => Return (mkPgResult [] (Some 1) "SELECT");
     on_client_release := fun _ _ => Return tt;
     on_sqlite_open := fun _ _ => Return tt;
     on_sqlite_run := fun _ _ _ => Return (mkRunResult (Some 2));
     on_sqlite_all :=
       fun _ sql _ =>
         if startsWith "SELECT" sql then Return [tt; tt; tt] else Return [];
     on_sqlite_get := fun _ _ => Return tt;
     on_sqlite_exec := fun _ _ => Return tt;
     on_sqlite_close := fun _ => Return tt;
     on_fs_existsSync := fun _ _ => true;
     on_fs_mkdirSync := fun _ _ => Return tt |}.

(** The same, but [COMMIT] fails on SQLite. *)
Definition failing_commit_driver : Driver unit unit :=
  {| on_pool_new := fun _ _ => Return tt;
     on_pool_query := fun _ _ _ => Return (mkPgResult [] (Some 1) "SELECT");
     on_pool_connect := fun _ => Return 7;
     on_pool_end := fun _ => Return tt;
     on_client_query :=
       fun _ _ text _ =>
         if String.eqb text "COMMIT" then Throw (Error "connection lost")
         else Return (mkPgResult [] (Some 1) "SELECT");
     on_client_release := fun _ _ => Return tt;
     on_sqlite_open := fun _ _ => Return tt;
     on_sqlite_run := fun _ _ _ => Return (mkRunResult (Some 2));
     on_sqlite_all := fun _ _ _ => Return [tt; tt; tt];
     on_sqlite_get := fun _ _ => Return tt;
     on_sqlite_exec :=
       fun _ sql =>
         if String.eqb sql "COMMIT" then Throw (Error "database is locked")
         else Return tt;
     on_sqlite_close := fun _ => Return tt;
     on_fs_existsSync := fun _ _ => true;
     on_fs_mkdirSync := fun _ _ => Return tt |}.

(** Stand-ins of the examples for [adaptQuery], which leaves the text as it
    is, for [parseConnectionURI] at two addresses, for [path.dirname] and
    for [TABLES]. *)
Definition example_adaptQuery : string -> DBDialect -> string :=
  fun text _ => text.

Definition example_parseConnectionURI (text : string)
  : Completion ConnectionURI :=
  if String.eqb text "sqlite://./data/db.sqlite"
  then Return (SqliteURI "./data/db.sqlite")
  else if String.eqb text "postgres://db/aiostreams"
  then Return (PostgresURI "postgres://db/aiostreams")
  else Throw (Error "Invalid connection URI").

Definition example_dirname : string -> string := fun _ => "./data".

Definition example_TABLES : list (string * string) :=
  [("users", "uuid TEXT PRIMARY KEY")].

(** A world after [open] on SQLite, and one on PostgreSQL. *)
Definition sqlite_world : World unit unit :=
  {| initialised := true; dialect := Some sqlite;
     uri := Some (SqliteURI "./data/db.sqlite"); db := Some DatabaseHandle;
     dsnModifiers := []; trace := [] |}.

Definition postgres_world : World unit unit :=
  {| initialised := true; dialect := Some postgres;
     uri := Some (PostgresURI "postgres://db/aiostreams");
     db := Some PoolHandle; dsnModifiers := []; trace := [] |}.

End DB.

(* ================================================================== *)
(** * Properties *)

(* ------------------------------------------------------------------ *)
(** ** Strings *)

Section StringFacts.
Import Js.

Lemma append_empty_r (s : string) : s +:+ "" = s.
Proof. induction s as [|a s IH]; simpl; [reflexivity | now rewrite IH]. Qed.

Lemma append_assoc (s1 s2 s3 : string) :
  (s1 +:+ s2) +:+ s3 = s1 +:+ (s2 +:+ s3).
Proof. induction s1 as [|a s1 IH]; simpl; [reflexivity | now rewrite IH]. Qed.

Lemma length_append (s1 s2 : string) :
  String.length (s1 +:+ s2) = String.length s1 + String.length s2.
Proof. induction s1 as [|a s1 IH]; simpl; [reflexivity | now rewrite IH]. Qed.

Lemma substring_prefix (s1 s2 : string) :
  String.substring 0 (String.length s1) (s1 +:+ s2) = s1.
Proof. induction s1 as [|a s1 IH]; simpl; [now destruct s2 | now rewrite IH]. Qed.

Lemma length_toLowerCase (s : string) :
  String.length (toLowerCase s) = String.length s.
Proof. induction s as [|a s IH]; simpl; [reflexivity | now rewrite IH]. Qed.

Lemma truthy_str_Some (s : string) :
  truthy_str (Some s) = true <-> s <> "".
Proof.
  unfold truthy_str. destruct (String.eqb_spec s ""); simpl; split; congruence.
Qed.

Lemma includes_append_r (needle s1 s2 : string) :
  includes needle s2 = true -> includes needle (s1 +:+ s2) = true.
Proof.
  intros H. induction s1 as [|a s1 IH]; simpl; [exact H|].
  rewrite IH. apply orb_true_r.
Qed.

(** A needle without the character [x] does not reach across an [x]. *)
Lemma startsWith_before (needle s1 s2 : string) (x : ascii) :
  all_chars (fun a => negb (Ascii.eqb a x)) needle = true ->
  needle <> "" ->
  startsWith needle (s1 +:+ String x s2) = startsWith needle s1.
Proof.
  revert s1. induction needle as [|n needle IH]; intros s1 Hn Hne;
    [congruence|].
  cbn [all_chars] in Hn. apply andb_prop in Hn as [Hx Hn].
  destruct s1 as [|c s1]; simpl String.append; cbn [startsWith].
  - apply negb_true_iff in Hx. now rewrite Hx.
  - destruct needle as [|m needle]; [reflexivity|].
    rewrite IH; [reflexivity | assumption | discriminate].
Qed.

Lemma includes_before (needle s1 s2 : string) (x : ascii) :
  all_chars (fun a => negb (Ascii.eqb a x)) needle = true ->
  needle <> "" ->
  includes needle (s1 +:+ String x s2)
  = includes needle s1 || includes needle (String x s2).
Proof.
  intros Hn Hne. induction s1 as [|c s1 IH].
  - simpl String.append. destruct needle; [congruence | reflexivity].
  - change (String c s1 +:+ String x s2)
      with (String c (s1 +:+ String x s2)).
    cbn [includes].
    change (String c (s1 +:+ String x s2))
      with (String c s1 +:+ String x s2).
    rewrite startsWith_before by assumption.
    rewrite IH. cbn [includes]. now rewrite !orb_assoc.
Qed.

End StringFacts.

(* ------------------------------------------------------------------ *)
(** ** The matcher *)

Section RegexFacts.
Import Js Regex.

Lemma consumed_append (ds rest : string) : consumed (ds +:+ rest) rest = ds.
Proof.
  unfold consumed. rewrite length_append.
  replace (String.length ds + String.length rest - String.length rest)
    with (String.length ds) by lia.
  apply substring_prefix.
Qed.

(** A successful [p+] has consumed a non-empty run of the class and handed
    the rest to the continuation. *)
Lemma plus_inv {A} (p : ascii -> bool) (s : string) (k : string -> option A)
  (x : A) :
  plus p s k = Some x ->
  exists ds rest, s = ds +:+ rest /\ ds <> "" /\ all_chars p ds = true /\
                  k rest = Some x.
Proof.
  induction s as [|a s IH]; simpl; [discriminate|].
  destruct (p a) eqn:Hp; [|discriminate].
  destruct (plus p s k) as [y|] eqn:Hrec.
  - intros [= ->]. destruct (IH eq_refl) as (ds & rest & -> & _ & Hall & Hk).
    exists (String a ds), rest. simpl. rewrite Hp, Hall. repeat split; congruence.
  - intros Hk. exists (String a ""), s. simpl. rewrite Hp. repeat split; congruence.
Qed.

Lemma plus_stuck {A} (p : ascii -> bool) (s : string) (k : string -> option A) :
  head_in p s = false -> plus p s k = None.
Proof. destruct s as [|a s]; simpl; [reflexivity | now intros ->]. Qed.

(** Greedy matching: the whole run is taken when the continuation accepts
    what follows it. *)
Lemma plus_greedy {A} (p : ascii -> bool) (ds rest : string)
  (k : string -> option A) (x : A) :
  all_chars p ds = true -> ds <> "" -> head_in p rest = false ->
  k rest = Some x -> plus p (ds +:+ rest) k = Some x.
Proof.
  intros Hall Hne Hrest Hk. induction ds as [|a ds IH]; [congruence|].
  simpl in *. apply andb_prop in Hall as [Ha Hall]. rewrite Ha.
  destruct ds as [|b ds].
  - simpl. now rewrite plus_stuck.
  - rewrite IH; [reflexivity | assumption | discriminate].
Qed.

Lemma rep_inv {A} (n : nat) (p : ascii -> bool) (s : string)
  (k : string -> option A) (x : A) :
  rep n p s k = Some x ->
  exists ds rest, s = ds +:+ rest /\ String.length ds = n /\
                  all_chars p ds = true /\ k rest = Some x.
Proof.
  revert s. induction n as [|n IH]; intros s; simpl.
  - intros Hk. now exists "", s.
  - destruct s as [|a s]; [discriminate|].
    destruct (p a) eqn:Hp; [|discriminate].
    intros H. destruct (IH _ H) as (ds & rest & -> & Hlen & Hall & Hk).
    exists (String a ds), rest. simpl. rewrite Hp, Hall, Hlen. auto.
Qed.

Lemma rep_append {A} (p : ascii -> bool) (ds rest : string)
  (k : string -> option A) :
  all_chars p ds = true ->
  rep (String.length ds) p (ds +:+ rest) k = k rest.
Proof.
  induction ds as [|a ds IH]; simpl; [reflexivity|].
  intros [Ha Hall]%andb_prop. now rewrite Ha, IH.
Qed.

Lemma strip_inv (ci : bool) (l s s' : string) :
  strip ci l s = Some s' ->
  exists pre, s = pre +:+ s' /\ eq_ci ci l pre = true.
Proof.
  revert s. induction l as [|a l IH]; intros s; simpl.
  - intros [= ->]. now exists "".
  - destruct s as [|b s]; [discriminate|].
    destruct (chr_eq ci a b) eqn:Hc; [|discriminate].
    intros H. destruct (IH _ H) as (pre & -> & Heq).
    exists (String b pre). simpl. now rewrite Hc, Heq.
Qed.

Lemma strip_append (ci : bool) (l pre s' : string) :
  eq_ci ci l pre = true -> strip ci l (pre +:+ s') = Some s'.
Proof.
  revert pre. induction l as [|a l IH]; intros [|b pre]; simpl; try discriminate.
  - reflexivity.
  - intros [Hc Heq]%andb_prop. rewrite Hc. now apply IH.
Qed.

End RegexFacts.

(* ------------------------------------------------------------------ *)
(** ** The regular expressions of [ID_PARSERS] *)

Section IdPatternFacts.
Import Js Regex IdParser.

Lemma eq_ci_exact (l s : string) : eq_ci false l s = true -> s = l.
Proof.
  revert s. induction l as [|a l IH]; intros [|b s]; simpl; try discriminate.
  - reflexivity.
  - intros [Hc Heq]%andb_prop. apply Ascii.eqb_eq in Hc. subst.
    now rewrite (IH _ Heq).
Qed.

Lemma digit_not_colon_dash (a : ascii) : digit a = true -> colon_dash a = false.
Proof.
  destruct a as [[|] [|] [|] [|] [|] [|] [|] [|]]; vm_compute; congruence.
Qed.

Lemma capture_free_inv (ci : bool) (r : pattern) :
  capture_free r = true ->
  forall s c k x, mt ci r s c k = Some x -> exists s', k c s' = Some x.
Proof.
  induction r as [l|p|r1 IH1 r2 IH2|r1 IH1 r2 IH2|r IH|p|n p|g r IH|];
    simpl; intros Hcf s c k x H; try discriminate.
  - destruct (strip ci l s) as [s'|]; [eauto | discriminate].
  - destruct s as [|a s]; [discriminate|].
    destruct (cls ci p a); [eauto | discriminate].
  - apply andb_prop in Hcf as [H1 H2].
    destruct (IH1 H1 _ _ _ _ H) as [s1 Hs1]. eauto.
  - apply andb_prop in Hcf as [H1 H2].
    destruct (mt ci r1 s c k) eqn:E; [injection H as <-; eauto | eauto].
  - destruct (mt ci r s c k) eqn:E; [injection H as <-; eauto | eauto].
  - apply plus_inv in H as (ds & rest & _ & _ & _ & Hk). eauto.
  - apply rep_inv in H as (ds & rest & _ & _ & _ & Hk). eauto.
  - destruct s; [eauto | discriminate].
Qed.

Lemma season_episode_tail_inv (s : string) (c : captures) k x :
  mt false season_episode_tail s c k = Some x ->
  (exists se ep rest, s = ":" +:+ se +:+ ":" +:+ ep +:+ rest /\
      digits se /\ digits ep /\
      k (("episode", ep) :: ("season", se) :: c) rest = Some x)
  \/ k c s = Some x.
Proof.
  unfold season_episode_tail. cbn [mt].
  destruct (strip false ":" s) as [s1|] eqn:Hs; [|now right].
  apply strip_inv in Hs as (pre & -> & ->%eq_ci_exact).
  destruct (plus _ _ _) as [y|] eqn:Hp; [|now right].
  intros [= ->]. left.
  apply plus_inv in Hp as (se & r1 & -> & Hne1 & Hall1 & Hk1).
  rewrite consumed_append in Hk1.
  destruct (strip false ":" r1) as [s2|] eqn:Hs2; [|discriminate].
  apply strip_inv in Hs2 as (pre & -> & ->%eq_ci_exact).
  apply plus_inv in Hk1 as (ep & rest & -> & Hne2 & Hall2 & Hk2).
  rewrite consumed_append in Hk2.
  exists se, ep, rest. repeat split; auto.
Qed.

Lemma episode_tail_inv (s : string) (c : captures) k x :
  mt false episode_tail s c k = Some x ->
  (exists ep rest, s = ":" +:+ ep +:+ rest /\ digits ep /\
      k (("episode", ep) :: c) rest = Some x)
  \/ k c s = Some x.
Proof.
  unfold episode_tail. cbn [mt].
  destruct (strip false ":" s) as [s1|] eqn:Hs; [|now right].
  apply strip_inv in Hs as (pre & -> & ->%eq_ci_exact).
  destruct (plus _ _ _) as [y|] eqn:Hp; [|now right].
  intros [= ->]. left.
  apply plus_inv in Hp as (ep & rest & -> & Hne & Hall & Hk).
  rewrite consumed_append in Hk.
  exists ep, rest. repeat split; auto.
Qed.

(** Forward steps of the matcher. *)
Lemma mt_Lit_fwd (ci : bool) (l pre s : string) (c : captures) k :
  eq_ci ci l pre = true -> mt ci (Lit l) (pre +:+ s) c k = k c s.
Proof. intros H. cbn [mt]. now rewrite (strip_append _ _ _ _ H). Qed.

Lemma mt_Opt_taken (ci : bool) (r : pattern) s c k x :
  mt ci r s c k = Some x -> mt ci (Opt r) s c k = Some x.
Proof. intros H. cbn [mt]. now rewrite H. Qed.

Lemma mt_Grp_Plus_fwd (g ds rest : string) (p : ascii -> bool) c k x :
  all_chars p ds = true -> ds <> "" -> head_in p rest = false ->
  k ((g, ds) :: c) rest = Some x ->
  mt false (Grp g (Plus p)) (ds +:+ rest) c k = Some x.
Proof.
  intros Hall Hne Hrest Hk. cbn [mt].
  apply plus_greedy; auto. now rewrite consumed_append.
Qed.

Lemma season_episode_tail_fwd (se ep rest : string) (c : captures) k x :
  digits se -> digits ep -> head_in digit rest = false ->
  k (("episode", ep) :: ("season", se) :: c) rest = Some x ->
  mt false season_episode_tail (":" +:+ se +:+ ":" +:+ ep +:+ rest) c k
  = Some x.
Proof.
  intros [Hse Hse'] [Hep Hep'] Hrest Hk.
  apply mt_Opt_taken.
  change (mt false (Lit ":") (":" +:+ se +:+ ":" +:+ ep +:+ rest) c
            (fun c1 s1 => mt false (Grp "season" (Plus digit)) s1 c1
               (fun c2 s2 => mt false (Lit ":") s2 c2
                  (fun c3 s3 => mt false (Grp "episode" (Plus digit)) s3 c3 k)))
          = Some x).
  rewrite mt_Lit_fwd by reflexivity.
  apply mt_Grp_Plus_fwd; auto.
  rewrite mt_Lit_fwd by reflexivity.
  apply mt_Grp_Plus_fwd; auto.
Qed.

Lemma episode_tail_fwd (ep rest : string) (c : captures) k x :
  digits ep -> head_in digit rest = false ->
  k (("episode", ep) :: c) rest = Some x ->
  mt false episode_tail (":" +:+ ep +:+ rest) c k = Some x.
Proof.
  intros [Hep Hep'] Hrest Hk.
  apply mt_Opt_taken.
  change (mt false (Lit ":") (":" +:+ ep +:+ rest) c
            (fun c1 s1 => mt false (Grp "episode" (Plus digit)) s1 c1 k)
          = Some x).
  rewrite mt_Lit_fwd by reflexivity.
  apply mt_Grp_Plus_fwd; auto.
Qed.

End IdPatternFacts.

(* ------------------------------------------------------------------ *)
(** ** Numbers and their decimal text *)

Section NumberFacts.
Import Js Regex IdParser.

Lemma digit_uint_of_char (a : ascii) (d : Decimal.uint) :
  digit a = true -> exists d', uint_of_char a (Some d) = Some d'.
Proof.
  destruct a as [[|] [|] [|] [|] [|] [|] [|] [|]]; vm_compute;
    try discriminate; eauto.
Qed.

Lemma digits_uint_of_string (s : string) :
  all_chars digit s = true -> exists d, NilEmpty.uint_of_string s = Some d.
Proof.
  induction s as [|a s IH]; simpl; [eauto|].
  intros [Ha Hs]%andb_prop. destruct (IH Hs) as [d ->].
  now apply digit_uint_of_char.
Qed.




Lemma Number_digits (s : string) :
  all_chars digit s = true -> exists z, Number s = VNumber z /\ (0 <= z)%Z.
Proof.
  intros H. destruct (digits_uint_of_string s H) as [d Hd].
  unfold Number. rewrite Hd. eexists; split; [reflexivity|].
  unfold Z.of_uint. lia.
Qed.

End NumberFacts.

(* ------------------------------------------------------------------ *)
(** ** [IdParser.parse] *)

Section ParseFacts.
Import Js Regex IdParser.



(** The loop returns the object built from the first definition that
    matches. *)
Lemma parse_with_Some (l : list IdParserDefinition) (s mty : string)
  (p : ParsedId) :
  parse_with l s mty = Some p <->
  exists i d g,
    l !! i = Some d /\ String_match s (regex d) = Some g /\
    (forall j d', (j < i)%nat -> l !! j = Some d' ->
                  String_match s (regex d') = None) /\
    p = build d g s mty.
Proof.
  induction l as [|d0 l IH]; simpl.
  - split; [discriminate | intros (i & d & g & H & _); discriminate].
  - destruct (String_match s (regex d0)) as [g0|] eqn:E0; split.
    + intros [= <-]. exists 0%nat, d0, g0. repeat split; auto. intros; lia.
    + intros (i & d & g & Hi & Hg & Hfirst & ->). destruct i as [|i].
      * injection Hi as <-. congruence.
      * specialize (Hfirst 0%nat d0 ltac:(lia) eq_refl). congruence.
    + intros Hp. apply IH in Hp as (i & d & g & Hi & Hg & Hfirst & ->).
      exists (S i), d, g. repeat split; auto.
      intros [|j] d' Hj Hd'; [injection Hd' as <-; assumption|].
      apply (Hfirst j); [lia | assumption].
    + intros (i & d & g & Hi & Hg & Hfirst & ->). destruct i as [|i].
      * injection Hi as <-. congruence.
      * apply IH. exists i, d, g. repeat split; auto.
        intros j d' Hj Hd'. apply (Hfirst (S j)); [lia | assumption].
Qed.

Lemma parse_with_None (l : list IdParserDefinition) (s mty : string) :
  parse_with l s mty = None <->
  forall d, d ∈ l -> String_match s (regex d) = None.
Proof.
  induction l as [|d0 l IH]; simpl.
  - split; [intros _ d Hd; inversion Hd | reflexivity].
  - destruct (String_match s (regex d0)) as [g0|] eqn:E0; split.
    + discriminate.
    + intros H. specialize (H d0 ltac:(left)). congruence.
    + intros Hp d Hd. apply elem_of_cons in Hd as [->|Hd]; [assumption|].
      now apply IH.
    + intros H. apply IH. intros d Hd. apply H. now right.
Qed.

(** [if (x) parsedId.x = x]: the field is set exactly when the group was
    captured with a non-empty text. *)
Lemma set_when_truthy (o : option string) (x : string) :
  (if truthy_str o then o else None) = Some x <-> o = Some x /\ x <> "".
Proof.
  destruct o as [y|]; simpl.
  - destruct (String.eqb_spec y ""); simpl; split.
    + discriminate.
    + intros [[= <-] Hne]. congruence.
    + intros [= <-]. auto.
    + intros [H _]. exact H.
  - split; [discriminate | intros [H _]; discriminate].
Qed.

(** What [build] sets. *)
Lemma build_fields d g s mty :
  let p := build d g s mty in
  type p = def_type d /\
  value p = format d (default "" (group "id" g)) /\
  fullId p = s /\
  externalType p = def_externalType d /\
  mediaType p = mty /\
  generator p = def_generator d /\
  (forall x, season p = Some x <-> group "season" g = Some x /\ x <> "") /\
  (forall x, episode p = Some x <-> group "episode" g = Some x /\ x <> "").
Proof.
  cbn [build type value fullId externalType mediaType generator season episode].
  do 6 (split; [reflexivity|]).
  split; intros x; apply set_when_truthy.
Qed.

End ParseFacts.

(* ------------------------------------------------------------------ *)
(** ** What the patterns of [ID_PARSERS] capture *)

Section ShapeFacts.
Import Js Regex IdParser.

Lemma String_match_anchored ci b s :
  String_match s (mkRegExp true ci b) = mt ci b s [] done.
Proof. reflexivity. Qed.

Lemma mt_Cat_eq ci r1 r2 s c k :
  mt ci (Cat r1 r2) s c k = mt ci r1 s c (fun c' s' => mt ci r2 s' c' k).
Proof. reflexivity. Qed.

Lemma mt_Or_left ci r1 r2 s c k x :
  mt ci r1 s c k = Some x -> mt ci (Or r1 r2) s c k = Some x.
Proof. intros H. cbn [mt]. now rewrite H. Qed.

Lemma mt_Lit_inv ci l s c k x :
  mt ci (Lit l) s c k = Some x ->
  exists pre s', s = pre +:+ s' /\ eq_ci ci l pre = true /\ k c s' = Some x.
Proof.
  cbn [mt]. destruct (strip ci l s) as [s'|] eqn:E; [|discriminate].
  apply strip_inv in E as (pre & -> & Heq). eauto.
Qed.

Lemma mt_Or_inv ci r1 r2 s c k x :
  mt ci (Or r1 r2) s c k = Some x ->
  mt ci r1 s c k = Some x \/ mt ci r2 s c k = Some x.
Proof. cbn [mt]. destruct (mt ci r1 s c k); [intros [= ->]; now left | now right]. Qed.

Lemma mt_Or_right ci r1 r2 s c k :
  mt ci r1 s c k = None -> mt ci (Or r1 r2) s c k = mt ci r2 s c k.
Proof. intros H. cbn [mt]. now rewrite H. Qed.

Lemma mt_Eos_inv ci s c k x :
  mt ci Eos s c k = Some x -> s = "" /\ k c "" = Some x.
Proof. cbn [mt]. destruct s; [auto | discriminate]. Qed.

Lemma id_group_inv (p : ascii -> bool) (T : pattern) s c k x :
  mt false (Grp "id" (Plus p) >> T)%re s c k = Some x ->
  exists id rest, s = id +:+ rest /\ all_chars p id = true /\ id <> "" /\
                  mt false T rest (("id", id) :: c) k = Some x.
Proof.
  cbn [mt]. intros H.
  apply plus_inv in H as (id & rest & -> & Hne & Hall & Hk).
  rewrite consumed_append in Hk. exists id, rest. auto.
Qed.

(** After the prefix and the optional separator, which capture nothing,
    the rest of the pattern is matched against the rest of the text. *)
Lemma prefix_inv (P R : pattern) s k x :
  capture_free P = true ->
  mt false (P >> Opt (Cls colon_dash) >> R)%re s [] k = Some x ->
  exists s', mt false R s' [] k = Some x.
Proof.
  intros HP H. rewrite mt_Cat_eq in H.
  apply (capture_free_inv _ _ HP) in H as [s1 H].
  rewrite mt_Cat_eq in H.
  apply (capture_free_inv false (Opt (Cls colon_dash)) eq_refl) in H as [s2 H].
  eauto.
Qed.

Lemma shape_se_inv (P : pattern) s g :
  capture_free P = true ->
  mt false (P >> Opt (Cls colon_dash) >> Grp "id" (Plus digit) >>
            season_episode_tail >> Eos)%re s [] done = Some g ->
  exists id, digits id /\
    (g = [("id", id)] \/
     exists se ep, digits se /\ digits ep /\
       g = [("episode", ep); ("season", se); ("id", id)]).
Proof.
  intros HP H. apply prefix_inv in H as [s1 H]; [|assumption].
  apply id_group_inv in H as (id & rest & -> & Hall & Hne & H).
  exists id. split; [split; assumption|].
  rewrite mt_Cat_eq in H.
  apply season_episode_tail_inv in H
    as [(se & ep & r & -> & Hse & Hep & H)|H];
    apply mt_Eos_inv in H as [-> [= <-]]; [right | left; reflexivity].
  exists se, ep. auto.
Qed.

Lemma shape_ep_inv (P : pattern) s g :
  capture_free P = true ->
  mt false (P >> Opt (Cls colon_dash) >> Grp "id" (Plus digit) >>
            episode_tail >> Eos)%re s [] done = Some g ->
  exists id, digits id /\
    (g = [("id", id)] \/
     exists ep, digits ep /\ g = [("episode", ep); ("id", id)]).
Proof.
  intros HP H. apply prefix_inv in H as [s1 H]; [|assumption].
  apply id_group_inv in H as (id & rest & -> & Hall & Hne & H).
  exists id. split; [split; assumption|].
  rewrite mt_Cat_eq in H.
  apply episode_tail_inv in H as [(ep & r & -> & Hep & H)|H];
    apply mt_Eos_inv in H as [-> [= <-]]; [right | left; reflexivity].
  exists ep. auto.
Qed.

Lemma shape_id_inv (P : pattern) (p : ascii -> bool) s g :
  capture_free P = true ->
  mt false (P >> Opt (Cls colon_dash) >> Grp "id" (Plus p) >> Eos)%re
     s [] done = Some g ->
  exists id, all_chars p id = true /\ id <> "" /\ g = [("id", id)].
Proof.
  intros HP H. apply prefix_inv in H as [s1 H]; [|assumption].
  apply id_group_inv in H as (id & rest & -> & Hall & Hne & H).
  apply mt_Eos_inv in H as [-> [= <-]]. eauto.
Qed.

(** The [id] group takes part in every match of every definition. *)
Lemma matched_id (d : IdParserDefinition) (s : string) (g : captures) :
  d ∈ ID_PARSERS -> String_match s (regex d) = Some g ->
  exists id, group "id" g = Some id /\ id <> "".
Proof.
  unfold ID_PARSERS. intros Hd.
  repeat (apply elem_of_cons in Hd as [->|Hd]); [..|inversion Hd];
    cbn [regex]; rewrite String_match_anchored; intros H;
    first
      [ apply shape_se_inv in H as (id & [_ Hne] & [->|(se & ep & _ & _ & ->)]);
        [exists id; auto | exists id; auto | reflexivity]
      | apply shape_ep_inv in H as (id & [_ Hne] & [->|(ep & _ & ->)]);
        [exists id; auto | exists id; auto | reflexivity]
      | apply shape_id_inv in H as (id & _ & Hne & ->);
        [exists id; auto | reflexivity] ].
Qed.

End ShapeFacts.

(* ------------------------------------------------------------------ *)
(** ** Matching a generated identifier *)

Section ForwardFacts.
Import Js Regex IdParser.

Lemma truthy_digits (s : string) : digits s -> truthy_str (Some s) = true.
Proof. intros [_ Hne]. now apply truthy_str_Some. Qed.



Lemma rest_se_fwd (id se ep : string) :
  digits id -> digits se -> digits ep ->
  mt false (Grp "id" (Plus digit) >> season_episode_tail >> Eos)%re
     (id +:+ ":" +:+ se +:+ ":" +:+ ep) [] done
  = Some [("episode", ep); ("season", se); ("id", id)].
Proof.
  intros [Hid Hid'] Hse Hep. rewrite mt_Cat_eq.
  apply mt_Grp_Plus_fwd; [assumption | assumption | reflexivity |].
  rewrite mt_Cat_eq. rewrite <- (append_empty_r ep) at 1.
  apply season_episode_tail_fwd; auto.
Qed.

Lemma rest_ep_fwd (id ep : string) :
  digits id -> digits ep ->
  mt false (Grp "id" (Plus digit) >> episode_tail >> Eos)%re
     (id +:+ ":" +:+ ep) [] done
  = Some [("episode", ep); ("id", id)].
Proof.
  intros [Hid Hid'] Hep. rewrite mt_Cat_eq.
  apply mt_Grp_Plus_fwd; [assumption | assumption | reflexivity |].
  rewrite mt_Cat_eq. rewrite <- (append_empty_r ep) at 1.
  apply episode_tail_fwd; auto.
Qed.

End ForwardFacts.

(* ------------------------------------------------------------------ *)
(** ** Claims on [IdParser] *)

Section IdParserClaims.
Import Js Regex IdParser.

(** C6.  [parse] walks [ID_PARSERS] in the order of its declaration
    (imdbId, malId, thetvdbId, themoviedbId, kitsuId, anilistId, anidbId,
    animePlanetId, animecountdownId, anisearchId, notifyMoeId, simklId) and
    returns the object built from the first definition whose pattern
    matches; it returns [null] exactly when no pattern matches.  The object
    carries the type, external type and generator of that definition, the
    formatted [id] group, the input as [fullId] and the media type it was
    given; [season] and [episode] are set exactly when the group was
    captured (with a non-empty text).  Being a function of [stremioId] and
    [mediaType] alone, [parse] has no other input and no effect. *)
Theorem parse_first_match (stremioId mty : string) :
  map def_type ID_PARSERS =
    [imdbId; malId; thetvdbId; themoviedbId; kitsuId; anilistId; anidbId;
     animePlanetId; animecountdownId; anisearchId; notifyMoeId; simklId] /\
  (forall p, parse stremioId mty = Some p <->
     exists i d g,
       ID_PARSERS !! i = Some d /\
       String_match stremioId (regex d) = Some g /\
       (forall j d', (j < i)%nat -> ID_PARSERS !! j = Some d' ->
                     String_match stremioId (regex d') = None) /\
       p = build d g stremioId mty) /\
  (parse stremioId mty = None <->
     forall d, d ∈ ID_PARSERS -> String_match stremioId (regex d) = None) /\
  (forall d g, d ∈ ID_PARSERS -> String_match stremioId (regex d) = Some g ->
     let p := build d g stremioId mty in
     exists id, group "id" g = Some id /\
       type p = def_type d /\
       value p = format d id /\
       fullId p = stremioId /\
       externalType p = def_externalType d /\
       mediaType p = mty /\
       generator p = def_generator d /\
       (forall x, season p = Some x <-> group "season" g = Some x /\ x <> "") /\
       (forall x, episode p = Some x <->
                  group "episode" g = Some x /\ x <> "")).
Proof.
  split; [reflexivity|]. split; [intros p; apply parse_with_Some|].
  split; [apply parse_with_None|].
  intros d g Hd Hg p.
  destruct (matched_id d stremioId g Hd Hg) as (id & Hid & _).
  exists id. split; [assumption|].
  destruct (build_fields d g stremioId mty) as (H1 & H2 & H3 & H4 & H5 & H6 & H7).
  rewrite Hid in H2. auto 10.
Qed.

(** The end-to-end example: ["tt1234567"] of category ["movie"] is an
    [imdbId] of value ["tt1234567"], by the first definition. *)
Lemma parse_first_match_example :
  exists p, parse "tt1234567" "movie" = Some p /\
            type p = imdbId /\ value p = VString "tt1234567" /\
            season p = None /\ episode p = None /\ mediaType p = "movie".
Proof.
  destruct (parse_first_match "tt1234567" "movie") as (_ & H & _).
  eexists. split.
  - apply H. exists 0%nat. do 2 eexists.
    split; [reflexivity|]. split; [vm_compute; reflexivity|].
    split; [intros j d' Hj; lia | reflexivity].
  - vm_compute. auto.
Defined.

End IdParserClaims.

Section RoundTrip.
Import Js Regex IdParser.














End RoundTrip.

(* ------------------------------------------------------------------ *)
(** ** The schemes do not overlap *)

Section Disjoint.
Import Js Regex IdParser.
Local Open Scope list_scope.

Lemma startsWith_append (l s : string) : startsWith l (l +:+ s) = true.
Proof.
  induction l as [|a l IH]; [now destruct s|].
  simpl. now rewrite Ascii.eqb_refl, IH.
Qed.

(** Two texts that both begin a third begin one another. *)
Lemma startsWith_comparable (l1 l2 s : string) :
  startsWith l1 s = true -> startsWith l2 s = true ->
  startsWith l1 l2 || startsWith l2 l1 = true.
Proof.
  revert l2 s. induction l1 as [|a l1 IH]; intros [|b l2] [|c s];
    simpl; try discriminate; try reflexivity.
  intros [Ha H1]%andb_prop [Hb H2]%andb_prop.
  apply Ascii.eqb_eq in Ha, Hb. subst.
  rewrite Ascii.eqb_refl. cbn [andb]. now apply (IH l2 s).
Qed.

(** A text that a pattern matches begins with one of its leading
    literals. *)
Lemma lead_sound (r : pattern) s c k x :
  mt false r s c k = Some x ->
  exists l, l ∈ lead r /\ startsWith l s = true.
Proof.
  revert s c k x.
  induction r as [l|p|r1 IH1 r2 IH2|r1 IH1 r2 IH2|r IH|p|n p|g r IH|];
    intros s c k x H; cbn [lead];
    try (exists ""; split; [left | now destruct s]).
  - apply mt_Lit_inv in H as (pre & s' & -> & ->%eq_ci_exact & _).
    exists l. split; [left | apply startsWith_append].
  - rewrite mt_Cat_eq in H. now apply IH1 in H.
  - apply mt_Or_inv in H as [H|H].
    + apply IH1 in H as (l & Hl & Hs). exists l. split; [|assumption].
      apply elem_of_app. now left.
    + apply IH2 in H as (l & Hl & Hs). exists l. split; [|assumption].
      apply elem_of_app. now right.
Qed.

Lemma matching_overlap (d1 d2 : IdParserDefinition) (s : string) g1 g2 :
  anchored (regex d1) = true -> ignoreCase (regex d1) = false ->
  anchored (regex d2) = true -> ignoreCase (regex d2) = false ->
  String_match s (regex d1) = Some g1 ->
  String_match s (regex d2) = Some g2 ->
  overlap d1 d2 = true.
Proof.
  unfold String_match, match_here. intros -> -> -> -> H1 H2.
  apply lead_sound in H1 as (l1 & Hl1 & Hs1).
  apply lead_sound in H2 as (l2 & Hl2 & Hs2).
  unfold overlap. apply existsb_exists. exists l1.
  split; [now apply list_elem_of_In|].
  apply existsb_exists. exists l2. split; [now apply list_elem_of_In|].
  now apply (startsWith_comparable l1 l2 s).
Qed.

(** An input is matched by at most one definition of [ID_PARSERS]: no
    pattern begins like the pattern of another scheme, so the order of the
    declarations never decides which definition is taken. *)
Theorem schemes_disjoint (stremioId : string) (d1 d2 : IdParserDefinition)
  (g1 g2 : captures) :
  d1 ∈ ID_PARSERS -> d2 ∈ ID_PARSERS ->
  String_match stremioId (regex d1) = Some g1 ->
  String_match stremioId (regex d2) = Some g2 ->
  d1 = d2.
Proof.
  intros H1 H2 M1 M2.
  assert (Ho : overlap d1 d2 = true).
  { apply (matching_overlap d1 d2 stremioId g1 g2); try assumption;
      clear -H1 H2; unfold ID_PARSERS in *;
      repeat (apply elem_of_cons in H1 as [->|H1]); try (now inversion H1);
      repeat (apply elem_of_cons in H2 as [->|H2]); try (now inversion H2);
      reflexivity. }
  clear M1 M2. unfold ID_PARSERS in H1, H2.
  repeat (apply elem_of_cons in H1 as [->|H1]); [..|inversion H1];
    repeat (apply elem_of_cons in H2 as [->|H2]); try (now inversion H2);
    first [reflexivity | vm_compute in Ho; discriminate].
Qed.

(** ["anidbid:12:3"] is accepted by the pattern of [anidbId], and by no
    other. *)
Lemma schemes_disjoint_example :
  (exists d0 g0, d0 ∈ ID_PARSERS /\ def_type d0 = anidbId /\
     String_match "anidbid:12:3" (regex d0) = Some g0) /\
  (forall d g, d ∈ ID_PARSERS ->
     String_match "anidbid:12:3" (regex d) = Some g -> def_type d = anidbId).
Proof.
  assert (Hown : exists d0 g0, d0 ∈ ID_PARSERS /\ def_type d0 = anidbId /\
            String_match "anidbid:12:3" (regex d0) = Some g0).
  { unfold ID_PARSERS. eexists _, _. split; [|split].
    - do 6 right. left.
    - reflexivity.
    - vm_compute. reflexivity. }
  split; [exact Hown|]. intros d g Hd Hg.
  destruct Hown as (d0 & g0 & Hd0 & Ht & Hg0).
  now rewrite (schemes_disjoint "anidbid:12:3" d d0 g g0 Hd Hd0 Hg Hg0).
Defined.

End Disjoint.

(* ------------------------------------------------------------------ *)
(** ** The identifiers [parse] accepts *)

Section IdShape.
Import Js Regex IdParser.
Local Open Scope list_scope.

Lemma literals_inv (P : pattern) s c k x :
  literals P = true -> mt false P s c k = Some x ->
  exists l s', l ∈ lead P /\ s = l +:+ s' /\ k c s' = Some x.
Proof.
  revert s c k x.
  induction P as [l|p|r1 IH1 r2 IH2|r1 IH1 r2 IH2|r IH|p|n p|g r IH|];
    cbn [literals lead]; try discriminate; intros s c k x HP H.
  - apply mt_Lit_inv in H as (pre & s' & -> & ->%eq_ci_exact & Hk).
    exists l, s'. split; [left | auto].
  - apply andb_prop in HP as [H1 H2].
    apply mt_Or_inv in H as [H|H];
      [apply (IH1 _ _ _ _ H1) in H | apply (IH2 _ _ _ _ H2) in H];
      destruct H as (l & s' & Hl & -> & Hk); exists l, s';
      (split; [apply elem_of_app; auto | auto]).
Qed.

Lemma colon_dash_inv (a : ascii) :
  colon_dash a = true -> String a "" ∈ SEPARATORS.
Proof.
  unfold colon_dash. intros [->%Ascii.eqb_eq| ->%Ascii.eqb_eq]%orb_prop;
    unfold SEPARATORS; [right; left | right; right; left].
Qed.

Lemma id_separator_inv s c k x :
  mt false (Opt (Cls colon_dash)) s c k = Some x ->
  exists sep s', sep ∈ SEPARATORS /\ s = sep +:+ s' /\ k c s' = Some x.
Proof.
  assert (Hnone : k c s = Some x ->
            exists sep s', sep ∈ SEPARATORS /\ s = sep +:+ s' /\ k c s' = Some x).
  { intros H. exists "", s. split; [left | auto]. }
  cbn [mt]. destruct s as [|a s]; [exact Hnone|]. cbn [cls].
  destruct (colon_dash a) eqn:Ea; [|exact Hnone].
  destruct (k c s) as [y|] eqn:Ek; [|exact Hnone].
  intros [= <-]. exists (String a ""), s.
  split; [now apply colon_dash_inv | auto].
Qed.

(** A match of a pattern of [ID_PARSERS], up to the id: one of the literal
    prefixes, a separator or none, and the run the [id] group captures. *)
Lemma id_shape_inv (P T : pattern) (cl : ascii -> bool) s k x :
  literals P = true ->
  mt false (P >> Opt (Cls colon_dash) >> Grp "id" (Plus cl) >> T)%re s [] k
  = Some x ->
  exists l sep id rest,
    l ∈ lead P /\ sep ∈ SEPARATORS /\ all_chars cl id = true /\ id <> "" /\
    s = l +:+ sep +:+ id +:+ rest /\
    mt false T rest [("id", id)] k = Some x.
Proof.
  intros HP H. rewrite mt_Cat_eq in H.
  apply (literals_inv _ _ _ _ _ HP) in H as (l & s1 & Hl & -> & H).
  rewrite mt_Cat_eq in H.
  apply id_separator_inv in H as (sep & s2 & Hsep & -> & H).
  apply id_group_inv in H as (id & rest & -> & Hall & Hne & H).
  exists l, sep, id, rest. auto 10.
Qed.

(** What a pattern of [ID_PARSERS] matches, and what it captures. *)
Lemma regex_shape (d : IdParserDefinition) (s : string) (g : captures) :
  d ∈ ID_PARSERS -> String_match s (regex d) = Some g ->
  exists l sep id,
    l ∈ prefixes d /\ sep ∈ SEPARATORS /\ id_text (def_type d) id /\
    ((s = l +:+ sep +:+ id /\ g = [("id", id)]) \/
     (exists se ep,
        def_type d ∈ SEASON_SCHEMES /\ digits se /\ digits ep /\
        s = l +:+ sep +:+ id +:+ ":" +:+ se +:+ ":" +:+ ep /\
        g = [("episode", ep); ("season", se); ("id", id)]) \/
     (exists ep,
        def_type d ∈ EPISODE_SCHEMES /\ digits ep /\
        s = l +:+ sep +:+ id +:+ ":" +:+ ep /\
        g = [("episode", ep); ("id", id)])).
Proof.
  unfold ID_PARSERS. intros Hd.
  repeat (apply elem_of_cons in Hd as [->|Hd]); [..|inversion Hd];
    cbn [regex def_type prefixes]; rewrite String_match_anchored; intros H;
    (apply id_shape_inv in H as (l & sep & id & rest & Hl & Hsep & Hall & Hne
                                 & -> & H); [|reflexivity]);
    cbn [lead app] in Hl; exists l, sep, id;
    (split; [exact Hl|]); (split; [exact Hsep|]);
    (split; [split; [exact Hne | exact Hall]|]).
  all: first
    [ apply mt_Eos_inv in H as [-> [= <-]]; left;
      now rewrite append_empty_r
    | rewrite mt_Cat_eq in H;
      apply season_episode_tail_inv in H
        as [(se & ep & r & -> & Hse & Hep & H)|H];
      apply mt_Eos_inv in H as [-> [= <-]];
      [ right; left; exists se, ep; rewrite append_empty_r;
        split; [unfold SEASON_SCHEMES; repeat constructor | auto]
      | left; now rewrite append_empty_r ]
    | rewrite mt_Cat_eq in H;
      apply episode_tail_inv in H as [(ep & r & -> & Hep & H)|H];
      apply mt_Eos_inv in H as [-> [= <-]];
      [ right; right; exists ep; rewrite append_empty_r;
        split; [unfold EPISODE_SCHEMES; repeat constructor | auto]
      | left; now rewrite append_empty_r ] ].
Qed.

(** Every object [parse] returns comes from a text of the form prefix,
    separator, id, segments. *)
Lemma parse_inv (s mty : string) (r : ParsedId) :
  parse s mty = Some r ->
  exists d l sep id,
    d ∈ ID_PARSERS /\ l ∈ prefixes d /\ sep ∈ SEPARATORS /\
    id_text (def_type d) id /\
    type r = def_type d /\ value r = format d id /\
    externalType r = def_externalType d /\ generator r = def_generator d /\
    fullId r = s /\ mediaType r = mty /\
    segments_ok (def_type d) (season r) (episode r) /\
    s = l +:+ sep +:+ id +:+ segments (season r) (episode r).
Proof.
  intros Hp. apply parse_with_Some in Hp as (i & d & g & Hi & Hg & _ & ->).
  apply list_elem_of_lookup_2 in Hi.
  destruct (regex_shape d s g Hi Hg) as (l & sep & id & Hl & Hsep & Hid & Hs).
  exists d, l, sep, id. do 4 (split; [assumption|]).
  destruct Hs as [[-> ->]|[(se & ep & Ht & Hse & Hep & -> & ->)
                          |(ep & Ht & Hep & -> & ->)]];
    cbn [build type value fullId externalType mediaType generator season
         episode group String.eqb Ascii.eqb Bool.eqb default from_option
         Datatypes.id segments segments_ok];
    rewrite ?(truthy_digits _ Hse), ?(truthy_digits _ Hep);
    cbn [truthy_str segments segments_ok negb]; rewrite ?append_empty_r;
    auto 12.
Qed.

Lemma digit_alnum (a : ascii) : digit a = true -> alnum a = true.
Proof.
  destruct a as [[|] [|] [|] [|] [|] [|] [|] [|]]; vm_compute; congruence.
Qed.

Lemma alnum_not_colon_dash (a : ascii) :
  alnum a = true -> colon_dash a = false.
Proof.
  destruct a as [[|] [|] [|] [|] [|] [|] [|] [|]]; vm_compute; congruence.
Qed.

Lemma id_text_head (t : IdType) (id rest : string) :
  id_text t id -> head_in colon_dash (id +:+ rest) = false.
Proof.
  intros [Hne Hall]. destruct id as [|a id]; [congruence|].
  cbn [all_chars] in Hall. apply andb_prop in Hall as [Ha _].
  simpl. destruct (IdType_eqb t notifyMoeId);
    [now apply alnum_not_colon_dash | now apply digit_not_colon_dash].
Qed.

Lemma id_text_digits (t : IdType) (id : string) : digits id -> id_text t id.
Proof.
  intros [Hall Hne]. split; [assumption|].
  destruct (IdType_eqb t notifyMoeId); [|assumption].
  clear Hne. induction id as [|a id IH]; [reflexivity|].
  cbn [all_chars] in *. apply andb_prop in Hall as [Ha Hall].
  now rewrite (digit_alnum _ Ha), IH.
Qed.

Lemma id_separator_fwd (R : pattern) sep s c k x :
  sep ∈ SEPARATORS -> head_in colon_dash s = false ->
  mt false R s c k = Some x ->
  mt false (Opt (Cls colon_dash) >> R)%re (sep +:+ s) c k = Some x.
Proof.
  unfold SEPARATORS. intros Hsep Hs H. rewrite mt_Cat_eq.
  repeat (apply elem_of_cons in Hsep as [->|Hsep]); [..|inversion Hsep].
  - cbn [mt]. simpl String.append. destruct s as [|a s]; [exact H|].
    cbn [head_in] in Hs. cbn [cls]. now rewrite Hs.
  - apply mt_Opt_taken. exact H.
  - apply mt_Opt_taken. exact H.
Qed.

Lemma rest_id_fwd (cl : ascii -> bool) (id : string) :
  all_chars cl id = true -> id <> "" ->
  mt false (Grp "id" (Plus cl) >> Eos)%re id [] done = Some [("id", id)].
Proof.
  intros Hall Hne. rewrite mt_Cat_eq. rewrite <- (append_empty_r id) at 1.
  now apply mt_Grp_Plus_fwd.
Qed.

Lemma rest_tail_none_fwd (T : pattern) (id : string) :
  T = season_episode_tail \/ T = episode_tail ->
  digits id ->
  mt false (Grp "id" (Plus digit) >> T >> Eos)%re id [] done
  = Some [("id", id)].
Proof.
  intros HT [Hall Hne]. rewrite mt_Cat_eq. rewrite <- (append_empty_r id) at 1.
  apply mt_Grp_Plus_fwd; [assumption | assumption | reflexivity|].
  now destruct HT as [-> | ->].
Qed.

Ltac not_listed H :=
  exfalso; clear -H;
  repeat (apply elem_of_cons in H as [H|H]; [discriminate H|]);
  inversion H.

Ltac take_prefix :=
  repeat first
    [ rewrite mt_Lit_fwd by reflexivity
    | apply mt_Or_left; rewrite mt_Lit_fwd by reflexivity
    | rewrite mt_Or_right by (vm_compute; reflexivity) ].

(** The patterns are anchored and case-sensitive. *)
Lemma ID_PARSERS_flags (d : IdParserDefinition) :
  d ∈ ID_PARSERS ->
  anchored (regex d) = true /\ ignoreCase (regex d) = false.
Proof.
  unfold ID_PARSERS. intros Hd.
  repeat (apply elem_of_cons in Hd as [->|Hd]); [..|inversion Hd];
    split; reflexivity.
Qed.

(** No pattern begins like the pattern of another definition. *)
Lemma overlap_distinct (d1 d2 : IdParserDefinition) :
  d1 ∈ ID_PARSERS -> d2 ∈ ID_PARSERS -> overlap d1 d2 = true -> d1 = d2.
Proof.
  unfold ID_PARSERS. intros H1 H2.
  repeat (apply elem_of_cons in H1 as [->|H1]); [..|inversion H1];
    repeat (apply elem_of_cons in H2 as [->|H2]); try (now inversion H2);
    intros Ho; first [reflexivity | vm_compute in Ho; discriminate Ho].
Qed.

(** Whichever definition matches, [parse] returns its object. *)
Lemma parse_of_match (d : IdParserDefinition) (s mty : string) (g : captures) :
  d ∈ ID_PARSERS -> String_match s (regex d) = Some g ->
  parse s mty = Some (build d g s mty).
Proof.
  intros Hd Hg. apply parse_with_Some.
  destruct (proj1 (list_elem_of_lookup _ _) Hd) as [i Hi].
  exists i, d, g. repeat split; try assumption.
  intros j d' Hj Hj'.
  destruct (String_match s (regex d')) as [g'|] eqn:Hg'; [|reflexivity].
  exfalso.
  pose proof (list_elem_of_lookup_2 _ _ _ Hj') as Hd'.
  destruct (ID_PARSERS_flags d Hd) as [Ha Hc].
  destruct (ID_PARSERS_flags d' Hd') as [Ha' Hc'].
  pose proof (overlap_distinct d' d Hd' Hd
                (matching_overlap d' d s g' g Ha' Hc' Ha Hc Hg' Hg)) as ->.
  assert (Hnd : NoDup (map def_type ID_PARSERS)).
  { unfold ID_PARSERS. cbn [map def_type].
    repeat (apply NoDup_cons; split;
            [ intros H;
              repeat (apply elem_of_cons in H as [H|H]; [discriminate H|]);
              inversion H | ]).
    apply NoDup_nil_2. }
  apply NoDup_fmap_1 in Hnd.
  pose proof (NoDup_lookup _ _ _ _ Hnd Hi Hj'). lia.
Qed.

(** What the pattern of a definition captures from a text of the form
    prefix, separator, id, segments. *)
Lemma regex_fwd (d : IdParserDefinition) (p sep id : string)
  (se ep : option string) :
  d ∈ ID_PARSERS -> p ∈ prefixes d -> sep ∈ SEPARATORS ->
  id_text (def_type d) id -> segments_ok (def_type d) se ep ->
  String_match (p +:+ sep +:+ id +:+ segments se ep) (regex d)
  = Some (groups_of id se ep).
Proof.
  intros Hd Hp Hsep Hid Hseg.
  pose proof (id_text_head _ id (segments se ep) Hid) as Hhead.
  destruct Hid as [Hne Hall].
  destruct se as [se|], ep as [ep|];
    cbn [segments segments_ok groups_of app] in *;
    try contradiction;
    [ destruct Hseg as (Ht & Hse & Hep) | destruct Hseg as (Ht & Hep) | ];
    unfold ID_PARSERS in *;
    (repeat (apply elem_of_cons in Hd as [->|Hd]); [..|inversion Hd]);
    cbn [prefixes def_type IdType_eqb] in *;
    try solve [not_listed Ht];
    repeat (apply elem_of_cons in Hp as [->|Hp]); try (now inversion Hp).
  all: cbn [regex]; rewrite String_match_anchored, mt_Cat_eq; take_prefix;
    apply id_separator_fwd; [exact Hsep | exact Hhead |];
    first
      [ apply rest_se_fwd; [split; assumption | assumption | assumption]
      | apply rest_ep_fwd; [split; assumption | assumption]
      | rewrite append_empty_r;
        first [ apply rest_tail_none_fwd; [auto | split; assumption]
              | now apply rest_id_fwd ] ].
Qed.

(** The object built from these captures. *)
Lemma build_groups_of (d : IdParserDefinition) (id s mty : string)
  (se ep : option string) :
  segments_ok (def_type d) se ep ->
  build d (groups_of id se ep) s mty
  = {| type := def_type d; value := format d id; fullId := s;
       externalType := def_externalType d; mediaType := mty;
       season := se; episode := ep; generator := def_generator d |}.
Proof.
  intros Hseg. unfold build.
  destruct se as [se|], ep as [ep|]; cbn [segments_ok] in Hseg;
    try contradiction;
    [ destruct Hseg as (_ & Hse & Hep) | destruct Hseg as (_ & Hep) | ];
    cbn [groups_of app group String.eqb Ascii.eqb Bool.eqb default
         from_option Datatypes.id];
    rewrite ?(truthy_digits _ Hse), ?(truthy_digits _ Hep); reflexivity.
Qed.

Lemma Number_leading_zero (id : string) :
  all_chars digit id = true -> Number ("0" +:+ id) = Number id.
Proof.
  intros H. destruct (digits_uint_of_string id H) as [d Hd].
  unfold Number. simpl String.append. cbn [NilEmpty.uint_of_string].
  rewrite Hd. reflexivity.
Qed.

Lemma IdType_eqb_eq (a b : IdType) : IdType_eqb a b = true <-> a = b.
Proof. destruct a, b; simpl; split; congruence. Qed.

Lemma existsb_IdType (t : IdType) (types : list IdType) :
  Is_true (existsb (IdType_eqb t) types) <-> t ∈ types.
Proof.
  rewrite Is_true_true, existsb_exists. split.
  - intros (x & Hx%list_elem_of_In & ->%IdType_eqb_eq). exact Hx.
  - intros H. exists t. split; [now apply list_elem_of_In|].
    now apply IdType_eqb_eq.
Qed.

Lemma getPrefixes_elem (types : list IdType) (p : string) :
  p ∈ getPrefixes types <->
  exists d, d ∈ ID_PARSERS /\ def_type d ∈ types /\ p ∈ prefixes d.
Proof.
  unfold getPrefixes. rewrite list_elem_of_In, in_flat_map. split.
  - intros (d & Hd%list_elem_of_In & Hp%list_elem_of_In).
    apply list_elem_of_filter in Hd as [Ht Hd].
    exists d. split; [assumption|].
    split; [now apply existsb_IdType | assumption].
  - intros (d & Hd & Ht & Hp). exists d.
    split; apply list_elem_of_In; [|assumption].
    apply list_elem_of_filter. split; [now apply existsb_IdType | assumption].
Qed.

Lemma flat_map_sublist {A B} (f : A -> list B) (l1 l2 : list A) :
  l1 `sublist_of` l2 -> flat_map f l1 `sublist_of` flat_map f l2.
Proof.
  induction 1 as [|x l1 l2 _ IH|x l1 l2 _ IH]; simpl.
  - constructor.
  - now apply sublist_app.
  - now apply sublist_inserts_l.
Qed.

(** Every prefix a definition advertises is accepted by its pattern: the
    prefix, followed by [:], by [-] or by nothing, by an id (digits; letters
    and digits for [notifyMoeId]) and by the optional segments of the
    scheme, is parsed as an identifier of that scheme, with the formatted
    id as value and the segments as season and episode. *)
Theorem parse_accepts (d : IdParserDefinition) (p sep id mty : string)
  (se ep : option string) :
  d ∈ ID_PARSERS -> p ∈ prefixes d -> sep ∈ SEPARATORS ->
  id_text (def_type d) id -> segments_ok (def_type d) se ep ->
  parse (p +:+ sep +:+ id +:+ segments se ep) mty
  = Some {| type := def_type d; value := format d id;
            fullId := p +:+ sep +:+ id +:+ segments se ep;
            externalType := def_externalType d; mediaType := mty;
            season := se; episode := ep; generator := def_generator d |}.
Proof.
  intros Hd Hp Hsep Hid Hseg.
  rewrite (parse_of_match d _ mty (groups_of id se ep) Hd).
  - now rewrite build_groups_of.
  - now apply regex_fwd.
Qed.

(** ["anidbid-12:3"] is an [anidbId] of value 12 with episode 3. *)
Lemma parse_accepts_example :
  exists r, parse "anidbid-12:3" "series" = Some r /\
            type r = anidbId /\ value r = VNumber 12 /\
            season r = None /\ episode r = Some "3".
Proof.
  destruct (ID_PARSERS !! 6%nat) as [d|] eqn:Hd; [|discriminate Hd].
  pose proof (list_elem_of_lookup_2 _ _ _ Hd) as Hin.
  injection Hd as <-.
  eexists. split.
  - refine (parse_accepts _ "anidbid" "-" "12" "series" None (Some "3")
              Hin _ _ _ _).
    + cbn [prefixes]. do 2 right. left.
    + right. right. left.
    + split; [discriminate | reflexivity].
    + split; [do 3 right; left | split; [reflexivity | discriminate]].
  - cbn. auto.
Defined.

(** An accepted identifier is the text its object describes: a prefix of
    the scheme, one of the separators, the id whose formatted form is the
    value, and the season and episode the object carries.  Nothing else is
    accepted, and of the input only the spelling of the prefix and of the
    separator is not kept in the object's scheme, value and segments. *)
Theorem parse_unparse (stremioId mty : string) (r : ParsedId) :
  parse stremioId mty = Some r ->
  exists d p sep id,
    d ∈ ID_PARSERS /\ def_type d = type r /\ p ∈ prefixes d /\
    sep ∈ SEPARATORS /\ id <> "" /\ value r = format d id /\
    stremioId = p +:+ sep +:+ id +:+ segments (season r) (episode r).
Proof.
  intros (d & l & sep & id & Hd & Hl & Hsep & [Hne _] & Ht & Hv & _ & _ & _ & _
          & _ & Hs)%parse_inv.
  exists d, l, sep, id. auto 10.
Qed.

Lemma parse_unparse_example :
  exists r d p sep id,
    parse "imdb-0111161:2:5" "series" = Some r /\
    d ∈ ID_PARSERS /\ def_type d = imdbId /\ p ∈ prefixes d /\
    sep ∈ SEPARATORS /\ value r = format d id /\
    "imdb-0111161:2:5" = p +:+ sep +:+ id +:+ ":2:5".
Proof.
  destruct (parse_unparse "imdb-0111161:2:5" "series" _ eq_refl)
    as (d & p & sep & id & Hd & Ht & Hp & Hsep & _ & Hv & Hs).
  eexists _, d, p, sep, id. split; [reflexivity|]. auto 10.
Defined.

(** An identifier that [parse] resolves to one of the given types starts
    with one of the prefixes [getPrefixes] returns for them. *)
Theorem parse_prefix_listed (stremioId mty : string) (r : ParsedId)
  (types : list IdType) :
  parse stremioId mty = Some r -> type r ∈ types ->
  exists p, p ∈ getPrefixes types /\ startsWith p stremioId = true.
Proof.
  intros (d & l & sep & id & Hd & Hl & _ & _ & Ht & _ & _ & _ & _ & _
          & _ & Hs)%parse_inv Hin.
  exists l. split.
  - apply getPrefixes_elem. exists d. rewrite <- Ht. auto.
  - rewrite Hs. apply startsWith_append.
Qed.

Lemma parse_prefix_listed_example :
  exists p, p ∈ getPrefixes [malId; kitsuId] /\
            startsWith p "kitsu:42:3" = true.
Proof.
  apply (parse_prefix_listed "kitsu:42:3" "anime" _ [malId; kitsuId] eq_refl).
  right. left.
Defined.

(** The value of a parsed identifier, by scheme: for [imdbId] the text
    ["tt"] followed by the digits of the id, whether the input was written
    with [tt] or with [imdb]; for [notifyMoeId] the id as written; for every
    other scheme the number its digits denote, never [NaN].  No input is
    resolved to [livechartId] or [traktId]. *)
Theorem parse_value_form (stremioId mty : string) (r : ParsedId) :
  parse stremioId mty = Some r ->
  match type r with
  | imdbId =>
      exists ds, digits ds /\ value r = VString ("tt" +:+ ds) /\
                 externalType r = imdb_id
  | notifyMoeId =>
      exists id, id <> "" /\ all_chars alnum id = true /\
                 value r = VString id /\ externalType r = notify_moe_id
  | livechartId | traktId => False
  | _ => exists ds, digits ds /\ value r = Number ds /\ value r <> VNaN
  end.
Proof.
  intros (d & l & sep & id & Hd & _ & _ & [Hne Hall] & Ht & Hv & He & _)%parse_inv.
  rewrite Ht, Hv, He. clear Ht Hv He. unfold ID_PARSERS in Hd.
  repeat (apply elem_of_cons in Hd as [->|Hd]); [..|inversion Hd];
    cbn [def_type format def_externalType IdType_eqb] in *;
    try (exists id; split; [split; assumption|]; split; [reflexivity|];
         destruct (Number_digits id Hall) as (z & -> & _); discriminate).
  - exists id. repeat split; assumption.
  - exists id. repeat split; assumption.
Qed.

Lemma parse_value_form_example :
  exists r, parse "imdb:0111161" "movie" = Some r /\
            value r = VString "tt0111161".
Proof.
  eexists. split; [reflexivity|].
  destruct (parse_value_form "imdb:0111161" "movie" _ eq_refl)
    as (ds & _ & Hv & _).
  reflexivity.
Defined.

(** The season and the episode of a parsed identifier: both, for the
    schemes with a season ([imdbId], [thetvdbId], [themoviedbId]); the
    episode alone, for [malId], [kitsuId], [anilistId] and [anidbId];
    neither, otherwise.  A season never comes without an episode, and both
    are non-empty runs of digits. *)
Theorem parse_segments (stremioId mty : string) (r : ParsedId) :
  parse stremioId mty = Some r ->
  match season r, episode r with
  | None, None => True
  | Some se, Some ep => type r ∈ SEASON_SCHEMES /\ digits se /\ digits ep
  | None, Some ep => type r ∈ EPISODE_SCHEMES /\ digits ep
  | Some _, None => False
  end.
Proof.
  intros (d & l & sep & id & _ & _ & _ & _ & -> & _ & _ & _ & _ & _ & H
          & _)%parse_inv.
  exact H.
Qed.

Lemma parse_segments_example :
  exists r, parse "tvdb:81189:1:2" "series" = Some r /\
            season r = Some "1" /\ episode r = Some "2" /\
            type r ∈ SEASON_SCHEMES.
Proof.
  eexists. split; [reflexivity|].
  destruct (parse_segments "tvdb:81189:1:2" "series" _ eq_refl) as (Ht & _).
  auto.
Defined.

(** A leading zero of the id is dropped by the schemes with a numeric
    value, and kept by [imdbId] and [notifyMoeId]: with and without it the
    input resolves to the same scheme, and to the same value exactly when
    the scheme is neither of the two. *)
Theorem parse_leading_zero (d : IdParserDefinition) (p sep id mty : string) :
  d ∈ ID_PARSERS -> p ∈ prefixes d -> sep ∈ SEPARATORS -> digits id ->
  exists r0 r,
    parse (p +:+ sep +:+ "0" +:+ id) mty = Some r0 /\
    parse (p +:+ sep +:+ id) mty = Some r /\
    type r0 = type r /\
    (value r0 = value r <->
     def_type d <> imdbId /\ def_type d <> notifyMoeId).
Proof.
  intros Hd Hp Hsep Hid.
  assert (Hid0 : digits ("0" +:+ id)).
  { destruct Hid as [Hall _]. split; [exact Hall | discriminate]. }
  assert (Hfwd : forall id0, digits id0 ->
            parse (p +:+ sep +:+ id0) mty
            = Some (build d (groups_of id0 None None) (p +:+ sep +:+ id0) mty)).
  { intros id0 H0. apply (parse_of_match d _ mty _ Hd).
    rewrite <- (append_empty_r id0) at 1.
    exact (regex_fwd d p sep id0 None None Hd Hp Hsep
             (id_text_digits _ _ H0) I). }
  pose proof (Hfwd _ Hid0) as H0. pose proof (Hfwd _ Hid) as H1.
  rewrite build_groups_of in H0, H1 by exact I.
  eexists _, _. split; [exact H0|]. split; [exact H1|].
  cbn [type value]. split; [reflexivity|].
  destruct Hid as [Hall _]. clear H0 H1 Hid0 Hp Hfwd. unfold ID_PARSERS in Hd.
  repeat (apply elem_of_cons in Hd as [->|Hd]); [..|inversion Hd];
    cbn [format def_type];
    try (rewrite (Number_leading_zero _ Hall);
         split; [split; discriminate | reflexivity]).
  - split; [|intros [H _]; congruence]. intros [= H]. exfalso.
    apply (f_equal String.length) in H. simpl in H. lia.
  - split; [|intros [_ H]; congruence]. intros [= H]. exfalso.
    apply (f_equal String.length) in H. simpl in H. lia.
Qed.

Lemma parse_leading_zero_example :
  exists r0 r,
    parse "tmdb:0603" "movie" = Some r0 /\
    parse "tmdb:603" "movie" = Some r /\ value r0 = value r.
Proof.
  destruct (ID_PARSERS !! 3%nat) as [d|] eqn:Hd; [|discriminate Hd].
  pose proof (list_elem_of_lookup_2 _ _ _ Hd) as Hin.
  injection Hd as <-.
  destruct (parse_leading_zero _ "tmdb" ":" "603" "movie" Hin)
    as (r0 & r & H0 & H1 & _ & Hv).
  - left.
  - right. left.
  - split; [reflexivity | discriminate].
  - exists r0, r. split; [exact H0|]. split; [exact H1|].
    apply Hv. split; discriminate.
Defined.

(** [getPrefixes] returns the prefixes of the definitions whose type is
    among the given ones, in the order of [ID_PARSERS] and each once: the
    result depends on which types are given, not on their order or
    multiplicity; no prefix belongs to two schemes; and the result is empty
    exactly when no given type other than [livechartId] and [traktId], the
    two types without a definition, occurs. *)
Theorem getPrefixes_set (types types' : list IdType) :
  (forall p, p ∈ getPrefixes types <->
     exists d, d ∈ ID_PARSERS /\ def_type d ∈ types /\ p ∈ prefixes d) /\
  ((forall t, t ∈ types <-> t ∈ types') ->
   getPrefixes types = getPrefixes types') /\
  getPrefixes types `sublist_of` flat_map prefixes ID_PARSERS /\
  NoDup (getPrefixes types) /\
  (getPrefixes types = [] <->
   forall t, t ∈ types -> t = livechartId \/ t = traktId).
Proof.
  assert (Hsub : getPrefixes types `sublist_of` flat_map prefixes ID_PARSERS).
  { apply flat_map_sublist, sublist_filter. }
  split; [apply getPrefixes_elem|]. split; [|split; [exact Hsub|split]].
  - intros H. unfold getPrefixes. f_equal. apply list_filter_iff.
    intros d. now rewrite !existsb_IdType.
  - eapply sublist_NoDup; [|exact Hsub].
    apply (bool_decide_unpack (NoDup (flat_map prefixes ID_PARSERS))).
    vm_compute. exact I.
  - split.
    + intros He t Ht.
      assert (Hno : forall d p, d ∈ ID_PARSERS -> def_type d = t ->
                p ∈ prefixes d -> False).
      { intros d p Hd Hdt Hp.
        assert (Hin : p ∈ getPrefixes types).
        { apply getPrefixes_elem. exists d. rewrite Hdt. auto. }
        rewrite He in Hin. inversion Hin. }
      assert (Hall : Forall (fun d => def_type d <> t) ID_PARSERS).
      { apply Forall_forall. intros d Hd Hdt.
        destruct (prefixes d) as [|p ps] eqn:Ep.
        - clear -Hd Ep. unfold ID_PARSERS in Hd.
          repeat (apply elem_of_cons in Hd as [->|Hd]); [..|inversion Hd];
            discriminate.
        - apply (Hno d p Hd Hdt). rewrite Ep. left. }
      unfold ID_PARSERS in Hall.
      repeat (apply Forall_cons in Hall as [? Hall]).
      cbn [def_type] in *. destruct t; auto; congruence.
    + intros H. destruct (getPrefixes types) as [|p ps] eqn:E; [reflexivity|].
      assert (Hin : p ∈ getPrefixes types) by (rewrite E; left).
      apply getPrefixes_elem in Hin as (d & Hd & Ht & _).
      apply H in Ht. exfalso. clear -Hd Ht. unfold ID_PARSERS in Hd.
      repeat (apply elem_of_cons in Hd as [->|Hd]); [..|inversion Hd];
        destruct Ht; discriminate.
Qed.

End IdShape.

(* ------------------------------------------------------------------ *)
(** ** The loop of [_searchTorrents] *)

Section LoopFacts.
Import Js Regex Torznab.
Local Open Scope list_scope.

Variable validateInfoHash : option string -> option string.
Variable extractTrackersFromMagnet : string -> list string.
Variable Number : string -> float.

Abbreviation extractInfoHash := (Torznab.extractInfoHash validateInfoHash).
Abbreviation torrent_of :=
  (Torznab.torrent_of validateInfoHash extractTrackersFromMagnet Number).
Abbreviation unusable := (Torznab.unusable validateInfoHash).
Abbreviation key_of := (Torznab.key_of validateInfoHash).
Abbreviation step :=
  (Torznab.step validateInfoHash extractTrackersFromMagnet Number).
Abbreviation run :=
  (Torznab.run validateInfoHash extractTrackersFromMagnet Number).
Abbreviation _searchTorrents :=
  (Torznab._searchTorrents validateInfoHash extractTrackersFromMagnet Number).

Lemma record_key_torrent_of (r : Raw.Result) :
  record_key (torrent_of r) = key_of r.
Proof. reflexivity. Qed.

Lemma run_app (st : LoopState) (l1 l2 : list Raw.Result) :
  run st (l1 ++ l2) = run (run st l1) l2.
Proof. apply fold_left_app. Qed.

Lemma run_cons (st : LoopState) (r : Raw.Result) (l : list Raw.Result) :
  run st (r :: l) = run (step st r) l.
Proof. reflexivity. Qed.

(** A result that fails the guard leaves the state as it is. *)
Lemma step_unusable (st : LoopState) (r : Raw.Result) :
  unusable r = true -> step st r = st.
Proof. intros H. unfold Torznab.step. now rewrite H. Qed.

Lemma step_seen (st : LoopState) (r : Raw.Result) :
  unusable r = false -> key_of r ∈ seenTorrents st -> step st r = st.
Proof.
  intros H Hin. unfold Torznab.step. rewrite H.
  now destruct (decide (key_of r ∈ seenTorrents st)).
Qed.

Lemma step_fresh (st : LoopState) (r : Raw.Result) :
  unusable r = false -> key_of r ∉ seenTorrents st ->
  step st r = {| seenTorrents := seenTorrents st ∪ {[ key_of r ]};
                 torrents := torrents st ++ [torrent_of r] |}.
Proof.
  intros H Hin. unfold Torznab.step. rewrite H.
  now destruct (decide (key_of r ∈ seenTorrents st)).
Qed.

(** [torrents] only grows, at its end. *)
Lemma step_extends (st : LoopState) (r : Raw.Result) :
  exists more, torrents (step st r) = torrents st ++ more.
Proof.
  unfold Torznab.step. destruct (unusable r); [exists []; now rewrite app_nil_r|].
  destruct (decide _); [exists []; now rewrite app_nil_r|].
  now exists [torrent_of r].
Qed.

Lemma run_extends (l : list Raw.Result) (st : LoopState) :
  exists more, torrents (run st l) = torrents st ++ more.
Proof.
  revert st. induction l as [|r l IH]; intros st.
  - exists []. simpl. now rewrite app_nil_r.
  - rewrite run_cons. destruct (IH (step st r)) as [m1 ->].
    destruct (step_extends st r) as [m2 ->].
    exists (m2 ++ m1). now rewrite app_assoc.
Qed.

(** The keys in [seenTorrents] are those of the usable results met so far,
    together with what the set held before. *)
Lemma step_seen_iff (st : LoopState) (r : Raw.Result) (k : option string) :
  k ∈ seenTorrents (step st r) <->
  k ∈ seenTorrents st \/ (unusable r = false /\ key_of r = k).
Proof.
  unfold Torznab.step. destruct (unusable r) eqn:Hu.
  - split; [now left|]. intros [H|[H _]]; [exact H | discriminate].
  - destruct (decide (key_of r ∈ seenTorrents st)) as [Hin|Hin].
    + split; [now left|]. intros [H|[_ <-]]; assumption.
    + cbn [seenTorrents]. rewrite elem_of_union, elem_of_singleton.
      split; (intros [H|H]; [now left | right]).
      * now subst.
      * now destruct H.
Qed.

Lemma run_seen (l : list Raw.Result) (st : LoopState) (k : option string) :
  k ∈ seenTorrents (run st l) <->
  k ∈ seenTorrents st \/
  exists r, r ∈ l /\ unusable r = false /\ key_of r = k.
Proof.
  revert st. induction l as [|r l IH]; intros st.
  - simpl. split; [now left|].
    intros [H|(r & Hr & _)]; [exact H | inversion Hr].
  - rewrite run_cons, IH, step_seen_iff. clear IH. split.
    + intros [[H|[Hu Hk]]|(r' & Hr' & Hu & Hk)].
      * now left.
      * right. exists r. split; [left | auto].
      * right. exists r'. split; [now right | auto].
    + intros [H|(r' & Hr' & Hu & Hk)]; [now left; left|].
      apply elem_of_cons in Hr' as [->|Hr']; [left; right; auto|].
      right. exists r'. auto.
Qed.

Lemma invariant_initial : invariant initial.
Proof.
  split; cbn [initial seenTorrents torrents].
  - intros k. split; [intros H; now apply not_elem_of_empty in H|].
    intros (t & Ht & _). inversion Ht.
  - constructor.
Qed.

Lemma invariant_step (st : LoopState) (r : Raw.Result) :
  invariant st -> invariant (step st r).
Proof.
  intros [Hseen Hnd]. unfold Torznab.step.
  destruct (unusable r) eqn:Hu; [now split|].
  destruct (decide (key_of r ∈ seenTorrents st)) as [Hin|Hin]; [now split|].
  split; cbn [seenTorrents torrents].
  - intros k. rewrite elem_of_union, elem_of_singleton, Hseen. split.
    + intros [(t & Ht & Hk)| ->].
      * exists t. split; [apply elem_of_app; now left | assumption].
      * exists (torrent_of r). split; [|reflexivity].
        apply elem_of_app. right. now left.
    + intros (t & Ht & Hk). apply elem_of_app in Ht as [Ht|Ht].
      * left. eauto.
      * apply list_elem_of_singleton in Ht as ->. now right.
  - rewrite map_app. apply NoDup_app. split; [assumption|]. split.
    + intros k Hk Hk'. cbn in Hk'. apply list_elem_of_singleton in Hk' as ->.
      apply list_elem_of_fmap in Hk as (t & Hk & Ht).
      apply Hin, Hseen. exists t. auto.
    + cbn. apply NoDup_singleton.
Qed.

Lemma invariant_run (l : list Raw.Result) (st : LoopState) :
  invariant st -> invariant (run st l).
Proof.
  revert st. induction l as [|r l IH]; intros st H; [exact H|].
  rewrite run_cons. apply IH. now apply invariant_step.
Qed.

(** Every pushed object is the object of a result that passed the guard. *)
Lemma run_origin (l : list Raw.Result) (st : LoopState)
  (t : UnprocessedTorrent) :
  t ∈ torrents (run st l) ->
  t ∈ torrents st \/ exists r, r ∈ l /\ unusable r = false /\ t = torrent_of r.
Proof.
  revert st. induction l as [|r l IH]; intros st; [now left|].
  rewrite run_cons. intros [Ht|(r' & Hr' & Hu & ->)]%IH.
  - unfold Torznab.step in Ht. destruct (unusable r) eqn:Hu; [now left|].
    destruct (decide _); [now left|]. cbn [torrents] in Ht.
    apply elem_of_app in Ht as [Ht|Ht]; [now left|].
    apply list_elem_of_singleton in Ht as ->.
    right. exists r. split; [left | auto].
  - right. exists r'. split; [now right | auto].
Qed.

Lemma searchTorrents_origin (results : list Raw.Result)
  (t : UnprocessedTorrent) :
  t ∈ _searchTorrents results ->
  exists r, r ∈ results /\ unusable r = false /\ t = torrent_of r.
Proof.
  intros [Ht|H]%run_origin; [inversion Ht | exact H].
Qed.

(** Removing a result that fails the guard does not change the output. *)
Lemma searchTorrents_skip (pre post : list Raw.Result) (r : Raw.Result) :
  unusable r = true ->
  _searchTorrents (pre ++ r :: post) = _searchTorrents (pre ++ post).
Proof.
  intros H. unfold Torznab._searchTorrents.
  now rewrite !run_app, run_cons, step_unusable.
Qed.

(** C1.  The output holds no two objects with the same non-empty hash and
    no two objects without a hash that have the same download URL.  The key
    of a result is its extracted info hash if there is one, and its download
    URL otherwise; of the results that pass the guard and share a key,
    exactly the first in input order pushes its object: a result pushes when
    no earlier such result has its key, and leaves [torrents] as it is when
    one has.  What is pushed stays, in order, in the output. *)
Theorem searchTorrents_dedup (results : list Raw.Result) :
  let out := _searchTorrents results in
  (forall i j t u h,
     out !! i = Some t -> out !! j = Some u ->
     hash t = Some h -> hash u = Some h -> h <> "" -> i = j) /\
  (forall i j t u,
     out !! i = Some t -> out !! j = Some u ->
     hash t = None -> hash u = None -> downloadUrl t = downloadUrl u ->
     i = j) /\
  (forall r,
     key_of r = match extractInfoHash r with
                | Some h => Some h
                | None => downloadUrl_of r
                end) /\
  (forall pre r post,
     results = pre ++ r :: post -> unusable r = false ->
     let st := run initial pre in
     ((forall r', r' ∈ pre -> unusable r' = false -> key_of r' <> key_of r) ->
      torrents (step st r) = torrents st ++ [torrent_of r]) /\
     ((exists r', r' ∈ pre /\ unusable r' = false /\ key_of r' = key_of r) ->
      torrents (step st r) = torrents st) /\
     exists later, out = torrents (step st r) ++ later).
Proof.
  intros out.
  assert (Hnd : NoDup (map record_key out)).
  { apply inv_nodup, invariant_run, invariant_initial. }
  assert (Hkey : forall i j t u,
            out !! i = Some t -> out !! j = Some u ->
            record_key t = record_key u -> i = j).
  { intros i j t u Hi Hj Heq.
    apply (NoDup_lookup _ i j (record_key t) Hnd).
    - now rewrite list_lookup_fmap, Hi.
    - now rewrite list_lookup_fmap, Hj, Heq. }
  split; [|split; [|split]].
  - intros i j t u h Hi Hj Ht Hu _. apply (Hkey i j t u Hi Hj).
    unfold record_key. now rewrite Ht, Hu.
  - intros i j t u Hi Hj Ht Hu Heq. apply (Hkey i j t u Hi Hj).
    unfold record_key. now rewrite Ht, Hu.
  - reflexivity.
  - intros pre r post -> Hr st.
    assert (Hseen : key_of r ∈ seenTorrents st <->
              exists r', r' ∈ pre /\ unusable r' = false /\ key_of r' = key_of r).
    { unfold st. rewrite run_seen. cbn [initial seenTorrents]. split.
      - intros [H|H]; [now apply not_elem_of_empty in H | exact H].
      - now right. }
    split; [|split].
    + intros Hfirst. rewrite step_fresh; [reflexivity | assumption|].
      intros (r' & Hin & Hu & Hk)%Hseen. exact (Hfirst r' Hin Hu Hk).
    + intros H%Hseen. now rewrite step_seen.
    + unfold out, Torznab._searchTorrents. rewrite run_app, run_cons.
      apply run_extends.
Qed.

(** C2.  A result with neither a validated info hash nor the URL of a
    torrent-file enclosure pushes nothing: the output is that of the input
    without it.  Every object of the output has a non-empty hash or a
    non-empty download URL.  A result whose only enclosure is not of the
    torrent type has no download URL, so it is dropped when no hash is
    extracted from it, as is the case when it has no torznab attributes and
    the validator keeps an absent candidate absent. *)
Theorem unusable_result_dropped :
  (forall pre r post,
     extractInfoHash r = None -> downloadUrl_of r = None ->
     _searchTorrents (pre ++ r :: post) = _searchTorrents (pre ++ post)) /\
  (forall results t,
     t ∈ _searchTorrents results ->
     (exists h, hash t = Some h /\ h <> "") \/
     (exists u, downloadUrl t = Some u /\ u <> "")) /\
  (forall pre r post e,
     Raw.enclosure r = [e] -> Raw.type e <> "application/x-bittorrent" ->
     extractInfoHash r = None ->
     _searchTorrents (pre ++ r :: post) = _searchTorrents (pre ++ post)) /\
  (validateInfoHash None = None ->
   forall pre r post e,
     Raw.enclosure r = [e] -> Raw.type e <> "application/x-bittorrent" ->
     Raw.torznab r = None ->
     _searchTorrents (pre ++ r :: post) = _searchTorrents (pre ++ post)).
Proof.
  assert (Hdrop : forall pre r post,
            extractInfoHash r = None -> downloadUrl_of r = None ->
            _searchTorrents (pre ++ r :: post) = _searchTorrents (pre ++ post)).
  { intros pre r post Hh Hd. apply searchTorrents_skip.
    unfold Torznab.unusable. now rewrite Hh, Hd. }
  assert (Hurl : forall r e,
            Raw.enclosure r = [e] ->
            Raw.type e <> "application/x-bittorrent" ->
            downloadUrl_of r = None /\
            find is_magnet_enclosure (Raw.enclosure r) = None).
  { intros r e He Hty. unfold downloadUrl_of. rewrite He.
    cbn [find]. unfold is_torrent_enclosure, is_magnet_enclosure.
    apply String.eqb_neq in Hty. now rewrite Hty. }
  split; [exact Hdrop|]. split; [|split].
  - intros results t (r & _ & Hu & ->)%searchTorrents_origin.
    unfold Torznab.unusable in Hu. cbn [torrent_of hash downloadUrl].
    apply andb_false_iff in Hu as [Hu|Hu]; apply negb_false_iff in Hu;
      [left | right].
    + destruct (extractInfoHash r) as [h|] eqn:E; [|discriminate].
      exists h. split; [reflexivity | now apply truthy_str_Some].
    + destruct (downloadUrl_of r) as [u|] eqn:E; [|discriminate].
      exists u. split; [reflexivity | now apply truthy_str_Some].
  - intros pre r post e He Hty Hh. apply Hdrop; [exact Hh|].
    apply (Hurl r e He Hty).
  - intros Hnone pre r post e He Hty Htz.
    destruct (Hurl r e He Hty) as [Hd Hm]. apply Hdrop; [|exact Hd].
    unfold Torznab.extractInfoHash. rewrite Htz, Hm. exact Hnone.
Qed.

(** C3.  Every object of the output is the object of one of the results,
    and its [seeders] is the raw [torznab.seeders] exactly when that value is
    a number equal to neither -1 nor 999; it is absent when there are no
    torznab attributes, when the value is not a number, and when the number
    is -1 or 999.  So 999 and -1 give an absent count, 42 gives 42 and 0
    gives 0: a count is never replaced by zero. *)
Theorem seeders_sentinels :
  (forall results t,
     t ∈ _searchTorrents results ->
     exists r, r ∈ results /\ t = torrent_of r) /\
  (forall r n,
     seeders (torrent_of r) = Some n <->
     (exists a, Raw.torznab r = Some a /\ Raw.Attr.seeders a = JsNumber n) /\
     PrimFloat.eqb (-1) n = false /\ PrimFloat.eqb 999 n = false) /\
  (forall r,
     seeders (torrent_of r) = None <->
     Raw.torznab r = None \/
     exists a, Raw.torznab r = Some a /\
       ((forall n, Raw.Attr.seeders a <> JsNumber n) \/
        (exists n, Raw.Attr.seeders a = JsNumber n /\
           (PrimFloat.eqb (-1) n = true \/ PrimFloat.eqb 999 n = true)))) /\
  (forall r a,
     Raw.torznab r = Some a ->
     (Raw.Attr.seeders a = JsNumber 999 -> seeders (torrent_of r) = None) /\
     (Raw.Attr.seeders a = JsNumber (-1) -> seeders (torrent_of r) = None) /\
     (Raw.Attr.seeders a = JsNumber 42 ->
      seeders (torrent_of r) = Some 42%float) /\
     (Raw.Attr.seeders a = JsNumber 0 ->
      seeders (torrent_of r) = Some 0%float)).
Proof.
  assert (Hsent : forall n,
            existsb (fun s => sameValueZero s n) UNKNOWN_SEEDERS
            = PrimFloat.eqb (-1) n || PrimFloat.eqb 999 n).
  { intros n. cbn [existsb UNKNOWN_SEEDERS]. unfold sameValueZero.
    change (PrimFloat.is_nan (-1)) with false.
    change (PrimFloat.is_nan 999) with false.
    cbn [andb]. now rewrite !orb_false_r. }
  split; [|split; [|split]].
  - intros results t (r & Hr & _ & ->)%searchTorrents_origin. eauto.
  - intros r n. cbn [Torznab.torrent_of seeders]. unfold seeders_of.
    destruct (Raw.torznab r) as [a|].
    2:{ split; [discriminate | intros [(a' & H & _) _]; discriminate]. }
    destruct (Raw.Attr.seeders a) as [| |b|m|s|xs] eqn:Es.
    4:{ rewrite Hsent.
        destruct (PrimFloat.eqb (-1) m) eqn:E1, (PrimFloat.eqb 999 m) eqn:E2;
          cbn [orb negb]; split;
          try discriminate;
          try (intros [(a' & [= <-] & Hn) [H1 H2]]; congruence).
        intros [= <-]. eauto. }
    all: split; [discriminate | intros [(a' & [= <-] & Hn) _]; congruence].
  - intros r. cbn [Torznab.torrent_of seeders]. unfold seeders_of.
    destruct (Raw.torznab r) as [a|]; [|split; [now left | reflexivity]].
    destruct (Raw.Attr.seeders a) as [| |b|m|s|xs] eqn:Es.
    4:{ rewrite Hsent.
        destruct (PrimFloat.eqb (-1) m || PrimFloat.eqb 999 m) eqn:E;
          cbn [negb]; split; try reflexivity; try discriminate.
        - intros _. right. exists a. split; [reflexivity|]. right.
          exists m. split; [assumption|]. now apply orb_true_iff.
        - apply orb_false_iff in E as [E1 E2].
          intros [H|(a' & [= <-] & [H|(n & Hn & H)])];
            [discriminate | now destruct (H m) |].
          assert (n = m) as -> by congruence. destruct H; congruence. }
    all: split; [|reflexivity]; intros _; right; exists a;
      (split; [reflexivity|]); left; intros n; congruence.
  - intros r a Htz. cbn [Torznab.torrent_of seeders]. unfold seeders_of.
    rewrite Htz. repeat split; intros ->; reflexivity.
Qed.

End LoopFacts.

(* ------------------------------------------------------------------ *)
(** ** The info-hash pattern *)

Section BtihFacts.
Import Js Regex Torznab.

Lemma eq_ci_append ci l1 l2 u1 u2 :
  eq_ci ci l1 u1 = true -> eq_ci ci l2 u2 = true ->
  eq_ci ci (l1 +:+ l2) (u1 +:+ u2) = true.
Proof.
  revert u1. induction l1 as [|a l1 IH]; intros [|b u1]; simpl;
    try discriminate; [auto|].
  intros [Hc H1]%andb_prop H2. rewrite Hc. now apply IH.
Qed.

Lemma eq_ci_append_inv ci l1 l2 u :
  eq_ci ci (l1 +:+ l2) u = true ->
  exists u1 u2, u = u1 +:+ u2 /\ eq_ci ci l1 u1 = true /\ eq_ci ci l2 u2 = true.
Proof.
  revert u. induction l1 as [|a l1 IH]; intros u; simpl.
  - intros H. now exists "", u.
  - destruct u as [|b u]; [discriminate|].
    intros [Hc H]%andb_prop. destruct (IH _ H) as (u1 & u2 & -> & H1 & H2).
    exists (String b u1), u2. simpl. now rewrite Hc, H1.
Qed.

Lemma percent_chr_not_colon (b : ascii) :
  chr_eq true "%" b = true -> chr_eq true ":" b = false.
Proof.
  destruct b as [[|] [|] [|] [|] [|] [|] [|] [|]]; vm_compute; congruence.
Qed.

(** A text that is ["%3A"] up to case does not begin with a colon. *)
Lemma percent_not_colon (u rest : string) c k :
  eq_ci true "%3A" u = true -> mt true (Lit ":") (u +:+ rest) c k = None.
Proof.
  destruct u as [|b u]; [discriminate|]. cbn [eq_ci].
  intros [Hc _]%andb_prop. cbn [mt]. simpl String.append. cbn [strip].
  now rewrite (percent_chr_not_colon _ Hc).
Qed.

Lemma rep_exact {A} (n : nat) (p : ascii -> bool) (ds rest : string)
  (k : string -> option A) :
  String.length ds = n -> all_chars p ds = true ->
  rep n p (ds +:+ rest) k = k rest.
Proof. intros <-. apply rep_append. Qed.

Lemma is_hex40_inv (h : string) :
  is_hex40 h = true ->
  String.length h = 40%nat /\ all_chars (cls true hex_lower) h = true.
Proof.
  unfold is_hex40. intros [Hl Ha]%andb_prop.
  split; [now apply Nat.eqb_eq | assumption].
Qed.

Lemma hex_lower_ascii (a : ascii) :
  cls true hex_lower a = true -> hex_lower (lower_ascii a) = true.
Proof.
  destruct a as [[|] [|] [|] [|] [|] [|] [|] [|]]; vm_compute; congruence.
Qed.

Lemma hex_lower_fixed (a : ascii) :
  hex_lower a = true -> lower_ascii a = a /\ cls true hex_lower a = true.
Proof.
  destruct a as [[|] [|] [|] [|] [|] [|] [|] [|]]; vm_compute;
    try discriminate; auto.
Qed.

(** Folding 40 hexadecimal characters to lower case gives an info hash. *)
Lemma toLowerCase_info_hash (h : string) :
  is_hex40 h = true -> is_info_hash (toLowerCase h) = true.
Proof.
  intros [Hl Ha]%is_hex40_inv. unfold is_info_hash.
  rewrite length_toLowerCase, Hl. cbn [Nat.eqb andb]. clear Hl.
  induction h as [|a h IH]; [reflexivity|].
  cbn [all_chars toLowerCase] in *.
  apply andb_prop in Ha as [Ha Hh]. now rewrite (hex_lower_ascii _ Ha), IH.
Qed.

Lemma info_hash_lower (s : string) :
  is_info_hash s = true -> is_hex40 s = true /\ toLowerCase s = s.
Proof.
  unfold is_info_hash, is_hex40. intros [Hl Ha]%andb_prop. rewrite Hl.
  cbn [andb]. clear Hl. induction s as [|a s IH]; [auto|].
  cbn [all_chars toLowerCase] in *. apply andb_prop in Ha as [Ha Hs].
  destruct (hex_lower_fixed _ Ha) as [E1 E2]. rewrite E1, E2.
  destruct (IH Hs) as [E3 E4]. now rewrite E3, E4.
Qed.

(** What a match of the pattern at the head of a text consists of. *)
Lemma btih_here_inv (s : string) (g : captures) :
  match_here btih s = Some g ->
  exists u h post, s = u +:+ h +:+ post /\ is_urn_marker u = true /\
                   is_hex40 h = true /\ g = [("1", h)].
Proof.
  unfold match_here, btih. cbn [ignoreCase body]. rewrite !mt_Cat_eq.
  intros (u1 & s1 & -> & H1 & H)%mt_Lit_inv. rewrite mt_Cat_eq in H.
  assert (Hsep : forall s c k x,
            mt true (Lit ":" <|> Lit "%3A")%re s c k = Some x ->
            exists u s', s = u +:+ s' /\ k c s' = Some x /\
              (eq_ci true ":" u = true \/ eq_ci true "%3A" u = true)).
  { intros s0 c k x [H0|H0]%mt_Or_inv;
      apply mt_Lit_inv in H0 as (u & s' & -> & Hu & Hk); eauto 7. }
  apply Hsep in H as (u2 & s2 & -> & H & H2). rewrite mt_Cat_eq in H.
  apply mt_Lit_inv in H as (u3 & s3 & -> & H3 & H). rewrite mt_Cat_eq in H.
  apply Hsep in H as (u4 & s4 & -> & H & H4).
  cbn [mt] in H. apply rep_inv in H as (h & post & -> & Hl & Ha & Hk).
  rewrite consumed_append in Hk. injection Hk as <-.
  exists (u1 +:+ u2 +:+ u3 +:+ u4), h, post.
  split; [now rewrite !append_assoc|]. split; [|split; [|reflexivity]].
  - unfold is_urn_marker, URN_MARKERS. cbn [existsb].
    assert (Hm : forall sep1 sep2,
              eq_ci true sep1 u2 = true -> eq_ci true sep2 u4 = true ->
              eq_ci true ("urn" +:+ sep1 +:+ "btih" +:+ sep2)
                    (u1 +:+ u2 +:+ u3 +:+ u4) = true).
    { intros sep1 sep2 Hs1 Hs2. repeat apply eq_ci_append; assumption. }
    destruct H2 as [H2|H2], H4 as [H4|H4].
    + change (eq_ci true "urn:btih:" (u1 +:+ u2 +:+ u3 +:+ u4))
        with (eq_ci true ("urn" +:+ ":" +:+ "btih" +:+ ":")
                (u1 +:+ u2 +:+ u3 +:+ u4)).
      now rewrite (Hm _ _ H2 H4).
    + change (eq_ci true "urn:btih%3A" (u1 +:+ u2 +:+ u3 +:+ u4))
        with (eq_ci true ("urn" +:+ ":" +:+ "btih" +:+ "%3A")
                (u1 +:+ u2 +:+ u3 +:+ u4)).
      rewrite (Hm _ _ H2 H4). now rewrite !orb_true_r.
    + change (eq_ci true "urn%3Abtih:" (u1 +:+ u2 +:+ u3 +:+ u4))
        with (eq_ci true ("urn" +:+ "%3A" +:+ "btih" +:+ ":")
                (u1 +:+ u2 +:+ u3 +:+ u4)).
      rewrite (Hm _ _ H2 H4). now rewrite !orb_true_r.
    + change (eq_ci true "urn%3Abtih%3A" (u1 +:+ u2 +:+ u3 +:+ u4))
        with (eq_ci true ("urn" +:+ "%3A" +:+ "btih" +:+ "%3A")
                (u1 +:+ u2 +:+ u3 +:+ u4)).
      rewrite (Hm _ _ H2 H4). now rewrite !orb_true_r.
  - unfold is_hex40. now rewrite Hl, Ha.
Qed.

Lemma separator_fwd (u rest : string) c k x :
  eq_ci true ":" u = true \/ eq_ci true "%3A" u = true ->
  k c rest = Some x ->
  mt true (Lit ":" <|> Lit "%3A")%re (u +:+ rest) c k = Some x.
Proof.
  intros [Hu|Hu] Hk.
  - apply mt_Or_left. now rewrite mt_Lit_fwd.
  - rewrite mt_Or_right by now apply percent_not_colon.
    now rewrite mt_Lit_fwd.
Qed.

(** A marker followed by 40 hexadecimal characters is a match, and the
    group holds those characters. *)
Lemma btih_here_fwd (u h post : string) :
  is_urn_marker u = true -> is_hex40 h = true ->
  match_here btih (u +:+ h +:+ post) = Some [("1", h)].
Proof.
  intros Hu [Hl Ha]%is_hex40_inv.
  assert (Hm : exists sep1 sep2,
            (sep1 = ":" \/ sep1 = "%3A") /\ (sep2 = ":" \/ sep2 = "%3A") /\
            eq_ci true ("urn" +:+ sep1 +:+ "btih" +:+ sep2) u = true).
  { unfold is_urn_marker, URN_MARKERS in Hu. cbn [existsb] in Hu.
    repeat (apply orb_prop in Hu as [Hu|Hu]); [..|discriminate].
    - exists ":", ":". auto.
    - exists ":", "%3A". auto.
    - exists "%3A", ":". auto.
    - exists "%3A", "%3A". auto. }
  destruct Hm as (sep1 & sep2 & Hs1 & Hs2 & Hm).
  apply eq_ci_append_inv in Hm as (u1 & v1 & -> & H1 & Hm).
  apply eq_ci_append_inv in Hm as (u2 & v2 & -> & H2 & Hm).
  apply eq_ci_append_inv in Hm as (u3 & u4 & -> & H3 & H4).
  rewrite !append_assoc.
  unfold match_here, btih. cbn [ignoreCase body].
  rewrite mt_Cat_eq, mt_Lit_fwd by assumption. rewrite mt_Cat_eq.
  apply separator_fwd; [destruct Hs1; subst; auto|].
  rewrite mt_Cat_eq, mt_Lit_fwd by assumption. rewrite mt_Cat_eq.
  apply separator_fwd; [destruct Hs2; subst; auto|].
  cbn [mt]. rewrite rep_exact by assumption.
  unfold done. now rewrite consumed_append.
Qed.

(** [search] returns the match at the leftmost index that has one. *)
Lemma search_here (re : RegExp) (s : string) (g : captures) :
  match_here re s = Some g -> search re s = Some g.
Proof. intros H. destruct s; cbn [search]; now rewrite H. Qed.

Lemma search_skip (re : RegExp) (pre rest : string) :
  (forall p1 p2, pre = p1 +:+ p2 -> p2 <> "" ->
                 match_here re (p2 +:+ rest) = None) ->
  search re (pre +:+ rest) = search re rest.
Proof.
  induction pre as [|a pre IH]; intros H; [reflexivity|].
  pose proof (H "" (String a pre) eq_refl ltac:(discriminate)) as H0.
  simpl String.append in *. cbn [search]. rewrite H0.
  apply IH. intros p1 p2 -> Hne. now apply (H (String a p1) p2).
Qed.

Lemma search_inv (re : RegExp) (s : string) (g : captures) :
  search re s = Some g ->
  exists pre rest, s = pre +:+ rest /\ match_here re rest = Some g.
Proof.
  induction s as [|a s IH]; cbn [search].
  - destruct (match_here re "") eqn:E; [|discriminate].
    intros [= ->]. now exists "", "".
  - destruct (match_here re (String a s)) eqn:E.
    + intros [= ->]. now exists "", (String a s).
    + intros (pre & rest & -> & H)%IH. now exists (String a pre), rest.
Qed.

(** The model of the validator has the three properties. *)
Lemma model_is_validator : validator validateInfoHash_model.
Proof.
  split; [reflexivity | |].
  - intros s [H1 H2]%info_hash_lower. cbn [validateInfoHash_model].
    now rewrite H1, H2.
  - intros s H. cbn [validateInfoHash_model]. now rewrite H.
Qed.

End BtihFacts.

(* ------------------------------------------------------------------ *)
(** ** Claims on [extractInfoHash] and on [sources] *)

Section HashClaims.
Import Js Regex Torznab.
Local Open Scope list_scope.

Variable validateInfoHash : option string -> option string.
Variable extractTrackersFromMagnet : string -> list string.
Variable Number : string -> float.

Abbreviation extractInfoHash := (Torznab.extractInfoHash validateInfoHash).
Abbreviation torrent_of :=
  (Torznab.torrent_of validateInfoHash extractTrackersFromMagnet Number).
Abbreviation _searchTorrents :=
  (Torznab._searchTorrents validateInfoHash extractTrackersFromMagnet Number).

Lemma btih_of_inv (s x : string) :
  btih_of (Some s) = Some x ->
  exists pre u h post,
    s = pre +:+ u +:+ h +:+ post /\ is_urn_marker u = true /\
    is_hex40 h = true /\ x = toLowerCase h.
Proof.
  unfold btih_of. cbn [mbind option_bind String_match btih anchored].
  fold btih. destruct (search btih s) as [g|] eqn:E; [|discriminate].
  apply search_inv in E as (pre & rest & -> & E).
  apply btih_here_inv in E as (u & h & post & -> & Hu & Hh & ->).
  cbn. intros [= <-]. exists pre, u, h, post. auto.
Qed.

Lemma btih_of_fwd (pre u h post : string) :
  is_urn_marker u = true -> is_hex40 h = true ->
  (forall p1 p2, pre = p1 +:+ p2 -> p2 <> "" ->
     match_here btih (p2 +:+ u +:+ h +:+ post) = None) ->
  btih_of (Some (pre +:+ u +:+ h +:+ post)) = Some (toLowerCase h).
Proof.
  intros Hu Hh Hfirst.
  unfold btih_of. cbn [mbind option_bind String_match btih anchored].
  fold btih. rewrite (search_skip btih pre _ Hfirst).
  rewrite (search_here _ _ _ (btih_here_fwd u h post Hu Hh)). reflexivity.
Qed.

(** C4.  [extractInfoHash] takes its candidate from the first source that
    is there: the [torznab.infohash] attribute when it is non-empty, else
    the [torznab.magneturl] attribute when it is non-empty, else the URL of
    the first torrent-type enclosure that contains ["magnet:"]; the
    candidate goes through [validateInfoHash].  From a magnet source the
    candidate is the 40 hexadecimal characters that follow the leftmost
    marker [urn:btih:] (the colons also as [%3A], all in either case) that
    has 40 such characters after it, folded to lower case: that is an info
    hash, and the validator returns it.  Without such a place there is no
    candidate and no hash.  A candidate of 39 characters, or with a character
    that is not hexadecimal, gives an absent hash, also when it is the
    attribute and a magnet link stands beside it. *)
Theorem extractInfoHash_sources (Hv : validator validateInfoHash)
  (r : Raw.Result) :
  let field := Raw.torznab r ≫= Raw.Attr.infohash in
  let magnet := Raw.torznab r ≫= Raw.Attr.magneturl in
  let enc := option_map Raw.url (find is_magnet_enclosure (Raw.enclosure r)) in
  (truthy_str field = true -> extractInfoHash r = validateInfoHash field) /\
  (truthy_str field = false -> truthy_str magnet = true ->
   extractInfoHash r = validateInfoHash (btih_of magnet)) /\
  (truthy_str field = false -> truthy_str magnet = false ->
   extractInfoHash r = validateInfoHash (btih_of enc)) /\
  (forall u, enc = Some u ->
     exists l1 e l2, Raw.enclosure r = l1 ++ e :: l2 /\ Raw.url e = u /\
       Raw.type e = "application/x-bittorrent" /\
       includes "magnet:" u = true /\
       forall e', e' ∈ l1 -> is_magnet_enclosure e' = false) /\
  (forall s x, btih_of (Some s) = Some x ->
     (exists pre u h post,
        s = pre +:+ u +:+ h +:+ post /\ is_urn_marker u = true /\
        is_hex40 h = true /\ x = toLowerCase h) /\
     is_info_hash x = true /\
     validateInfoHash (btih_of (Some s)) = Some x) /\
  (forall pre u h post,
     is_urn_marker u = true -> is_hex40 h = true ->
     (forall p1 p2, pre = p1 +:+ p2 -> p2 <> "" ->
        match_here btih (p2 +:+ u +:+ h +:+ post) = None) ->
     validateInfoHash (btih_of (Some (pre +:+ u +:+ h +:+ post)))
     = Some (toLowerCase h)) /\
  (forall o, btih_of o = None -> validateInfoHash (btih_of o) = None) /\
  (forall c,
     String.length c = 39%nat \/ all_chars (cls true hex_lower) c = false ->
     validateInfoHash (Some c) = None /\
     (field = Some c -> extractInfoHash r = None)).
Proof.
  destruct Hv as [Hnone Hacc Hrej]. intros field magnet enc.
  unfold Torznab.extractInfoHash. fold field magnet enc.
  split; [|split; [|split; [|split; [|split; [|split; [|split]]]]]].
  - intros H. unfold or_str. now rewrite H.
  - intros H1 H2. unfold or_str. now rewrite H1, H2.
  - intros H1 H2. unfold or_str. now rewrite H1, H2.
  - intros u. unfold enc.
    induction (Raw.enclosure r) as [|e l IH]; cbn [find]; [discriminate|].
    destruct (is_magnet_enclosure e) eqn:He.
    + cbn. intros [= <-]. exists [], e, l.
      unfold is_magnet_enclosure in He. apply andb_prop in He as [Hty Hinc].
      apply String.eqb_eq in Hty.
      repeat split; auto. intros e' He'. inversion He'.
    + intros (l1 & e0 & l2 & -> & Hu & Hty & Hinc & Hl1)%IH.
      exists (e :: l1), e0, l2. repeat split; auto.
      intros e' [->|He']%elem_of_cons; auto.
  - intros s x Hx. pose proof Hx as (pre & u & h & post & -> & Hu & Hh & ->)%btih_of_inv.
    split; [now exists pre, u, h, post|].
    split; [now apply toLowerCase_info_hash|].
    rewrite Hx. now apply Hacc, toLowerCase_info_hash.
  - intros pre u h post Hu Hh Hfirst. rewrite btih_of_fwd by assumption.
    now apply Hacc, toLowerCase_info_hash.
  - intros o ->. exact Hnone.
  - intros c Hc.
    assert (Hbad : is_hex40 c = false).
    { unfold is_hex40. destruct Hc as [Hc|Hc]; rewrite Hc;
        [reflexivity | apply andb_false_r]. }
    split; [now apply Hrej|]. intros Hf. unfold or_str. rewrite Hf.
    assert (Ht : truthy_str (Some c) = true).
    { destruct c; [destruct Hc; discriminate | reflexivity]. }
    rewrite Ht. now apply Hrej.
Qed.

(** [sources] is read from the [torznab.magneturl] attribute alone.  A
    result whose magnet link stands only in a torrent-type enclosure has its
    hash extracted from that link, and an empty [sources]; the same link in
    the attribute gives the trackers of the link. *)
Lemma sources_of_magneturl_only (r : Raw.Result) :
  (forall e l,
     Raw.torznab r = None -> Raw.enclosure r = e :: l ->
     is_magnet_enclosure e = true ->
     extractInfoHash r = validateInfoHash (btih_of (Some (Raw.url e))) /\
     sources (torrent_of r) = []) /\
  (forall a m,
     Raw.torznab r = Some a -> Raw.Attr.magneturl a = Some m -> m <> "" ->
     sources (torrent_of r) = extractTrackersFromMagnet m) /\
  (forall a,
     Raw.torznab r = Some a -> truthy_str (Raw.Attr.magneturl a) = false ->
     sources (torrent_of r) = []).
Proof.
  cbn [Torznab.torrent_of sources]. unfold sources_of.
  split; [|split].
  - intros e l Htz Henc He. unfold Torznab.extractInfoHash.
    rewrite Htz, Henc. cbn [find mbind option_bind]. rewrite He.
    split; reflexivity.
  - intros a m Htz Hm Hne. rewrite Htz. cbn [mbind option_bind]. rewrite Hm.
    apply String.eqb_neq in Hne. now rewrite Hne.
  - intros a Htz Hm. rewrite Htz. cbn [mbind option_bind].
    destruct (Raw.Attr.magneturl a) as [m|]; [|reflexivity].
    cbn [truthy_str] in Hm. now rewrite Hm.
Qed.

(** C9, on the code, at a result whose magnet link stands in a torrent-type
    enclosure and not in the [torznab.magneturl] attribute.  The result is
    emitted with the hash of that link and with an empty [sources]: not the
    trackers of the link, which the same link in the attribute would give. *)
Theorem sources_skip_enclosure_magnet :
  let emitted :=
    Torznab.torrent_of validateInfoHash_model extractTrackersFromMagnet
      Number by_enclosure in
  Torznab._searchTorrents validateInfoHash_model extractTrackersFromMagnet
    Number [by_enclosure] = [emitted] /\
  Raw.torznab by_enclosure = None /\
  Raw.enclosure by_enclosure
  = [Raw.mkEnclosure "application/x-bittorrent" example_magnet] /\
  hash emitted = Some example_hash /\
  sources emitted = [] /\
  sources (Torznab.torrent_of validateInfoHash_model
             extractTrackersFromMagnet Number by_magnet)
  = extractTrackersFromMagnet example_magnet /\
  (extractTrackersFromMagnet example_magnet <> [] ->
   sources emitted <> extractTrackersFromMagnet example_magnet).
Proof.
  intros emitted.
  split; [vm_compute; reflexivity|]. split; [reflexivity|].
  split; [reflexivity|]. split; [vm_compute; reflexivity|].
  split; [reflexivity|]. split; [reflexivity|].
  intros Hne Heq. apply Hne. now rewrite <- Heq.
Qed.

End HashClaims.

(* ------------------------------------------------------------------ *)
(** ** The claims on [TorznabAddon] at the example results *)

Section TorznabExamples.
Import Js Regex Torznab.

Abbreviation search :=
  (Torznab._searchTorrents validateInfoHash_model no_trackers number_zero).
Abbreviation object_of :=
  (Torznab.torrent_of validateInfoHash_model no_trackers number_zero).

(** The end-to-end example: one hash in the dedicated attribute of one
    result and in the magnet link of another gives one object, that of the
    result met first. *)
Lemma searchTorrents_dedup_example :
  search [by_field; by_magnet; by_enclosure] = [object_of by_field] /\
  search [by_enclosure; by_field] = [object_of by_enclosure] /\
  (forall i j t u h,
     search [by_field; by_magnet; by_enclosure] !! i = Some t ->
     search [by_field; by_magnet; by_enclosure] !! j = Some u ->
     hash t = Some h -> hash u = Some h -> h <> "" -> i = j).
Proof.
  split; [vm_compute; reflexivity|]. split; [vm_compute; reflexivity|].
  exact (proj1 (searchTorrents_dedup validateInfoHash_model no_trackers
                  number_zero [by_field; by_magnet; by_enclosure])).
Defined.

(** A result whose only enclosure is an HTML link is dropped. *)
Lemma unusable_result_dropped_example :
  search [other_link; torrent_file] = search [torrent_file].
Proof.
  refine (proj2 (proj2 (proj2 (unusable_result_dropped validateInfoHash_model
            no_trackers number_zero))) eq_refl [] other_link [torrent_file]
            (Raw.mkEnclosure "text/html" "https://indexer.example/details/1")
            eq_refl _ eq_refl).
  discriminate.
Defined.

(** 42 and 0 are kept, 999 is absent. *)
Lemma seeders_sentinels_example :
  seeders (object_of by_field) = Some 42%float /\
  seeders (object_of by_magnet) = None /\
  seeders (object_of torrent_file) = Some 0%float.
Proof.
  pose proof (proj2 (proj2 (proj2 (seeders_sentinels validateInfoHash_model
                no_trackers number_zero)))) as H.
  split; [|split].
  - destruct (H by_field _ eq_refl) as (_ & _ & H42 & _). now apply H42.
  - destruct (H by_magnet _ eq_refl) as (H999 & _). now apply H999.
  - destruct (H torrent_file _ eq_refl) as (_ & _ & _ & H0). now apply H0.
Defined.

(** The upper-case hash of the magnet link comes out in lower case, from
    the attribute and from the enclosure; a hash attribute of 39 characters
    gives no hash, the magnet link beside it notwithstanding. *)
Lemma extractInfoHash_sources_example :
  Torznab.extractInfoHash validateInfoHash_model by_magnet = Some example_hash /\
  Torznab.extractInfoHash validateInfoHash_model by_enclosure
    = Some example_hash /\
  Torznab.extractInfoHash validateInfoHash_model by_field = Some example_hash /\
  Torznab.extractInfoHash validateInfoHash_model short_hash = None.
Proof.
  pose proof (extractInfoHash_sources validateInfoHash_model
                model_is_validator) as H.
  split; [|split; [|split]].
  - destruct (H by_magnet) as (_ & H2 & _). now rewrite H2.
  - destruct (H by_enclosure) as (_ & _ & H3 & _). now rewrite H3.
  - destruct (H by_field) as (H1 & _). now rewrite H1.
  - destruct (H short_hash) as (_ & _ & _ & _ & _ & _ & _ & H8).
    apply (H8 "abcdef0123456789abcdef0123456789abcdef0");
      [left | ]; reflexivity.
Defined.

End TorznabExamples.

(* ------------------------------------------------------------------ *)
(** ** What [_searchTorrents] selects *)

Section Selection.
Import Js Regex Torznab.
Local Open Scope list_scope.

Variable validateInfoHash : option string -> option string.
Variable extractTrackersFromMagnet : string -> list string.
Variable Number : string -> float.

Abbreviation extractInfoHash := (Torznab.extractInfoHash validateInfoHash).
Abbreviation torrent_of :=
  (Torznab.torrent_of validateInfoHash extractTrackersFromMagnet Number).
Abbreviation unusable := (Torznab.unusable validateInfoHash).
Abbreviation key_of := (Torznab.key_of validateInfoHash).
Abbreviation step :=
  (Torznab.step validateInfoHash extractTrackersFromMagnet Number).
Abbreviation run :=
  (Torznab.run validateInfoHash extractTrackersFromMagnet Number).
Abbreviation _searchTorrents :=
  (Torznab._searchTorrents validateInfoHash extractTrackersFromMagnet Number).

(** What the loop pushes is, in order, a selection of the objects of the
    results that pass the guard. *)
Lemma run_sublist (l : list Raw.Result) (st : LoopState) :
  exists more,
    torrents (run st l) = torrents st ++ more /\
    more `sublist_of`
      map torrent_of (filter (fun r => unusable r = false) l).
Proof.
  revert st. induction l as [|r l IH]; intros st.
  - exists []. split; [simpl; now rewrite app_nil_r | constructor].
  - rewrite run_cons. destruct (IH (step st r)) as (m & -> & Hm).
    unfold Torznab.step. destruct (unusable r) eqn:Hu.
    + exists m. split; [reflexivity|].
      rewrite filter_cons_False by congruence. exact Hm.
    + rewrite filter_cons_True by assumption. cbn [map].
      destruct (decide (key_of r ∈ seenTorrents st)).
      * exists m. split; [reflexivity|]. now apply sublist_cons.
      * exists (torrent_of r :: m). cbn [torrents].
        split; [now rewrite <- app_assoc | now apply sublist_skip].
Qed.

(** Results whose keys were all met already leave the state as it is. *)
Lemma run_seen_all (l : list Raw.Result) (st : LoopState) :
  (forall r, r ∈ l -> unusable r = false -> key_of r ∈ seenTorrents st) ->
  run st l = st.
Proof.
  induction l as [|r l IH]; intros H; [reflexivity|].
  rewrite run_cons.
  assert (Hr : step st r = st).
  { destruct (unusable r) eqn:Hu; [now apply step_unusable|].
    apply step_seen; [assumption|]. apply H; [left | assumption]. }
  rewrite Hr. apply IH. intros r' Hr' Hu. apply H; [now right | assumption].
Qed.

Lemma find_elem {A} (f : A -> bool) (l : list A) (x : A) :
  find f l = Some x -> x ∈ l /\ f x = true.
Proof.
  intros H. apply find_some in H as [H1 H2]. split; [|assumption].
  now apply list_elem_of_In.
Qed.

(** The keys of the output are the keys of the results that pass the
    guard, each once; the output is, in input order, a selection of the
    objects of these results, so it is never longer than the input. *)
Theorem searchTorrents_keys (results : list Raw.Result) :
  let out := _searchTorrents results in
  (forall k, k ∈ map record_key out <->
     exists r, r ∈ results /\ unusable r = false /\ key_of r = k) /\
  NoDup (map record_key out) /\
  out `sublist_of`
    map torrent_of (filter (fun r => unusable r = false) results) /\
  length out <= length results.
Proof.
  intros out. subst out. unfold Torznab._searchTorrents.
  pose proof (invariant_run validateInfoHash extractTrackersFromMagnet Number
                results initial
                (invariant_initial)) as [Hseen Hnd].
  destruct (run_sublist results initial) as (m & Hm & Hsub).
  cbn [initial torrents app] in Hm. fold initial in Hm. subst m.
  split; [|split; [exact Hnd|split; [exact Hsub|]]].
  - intros k. rewrite list_elem_of_fmap.
    transitivity (k ∈ seenTorrents (run initial results)).
    + rewrite Hseen. split; intros (t & H1 & H2); exists t; auto.
    + rewrite run_seen. cbn [initial seenTorrents]. split.
      * intros [H|H]; [now apply not_elem_of_empty in H | exact H].
      * now right.
  - apply sublist_length in Hsub. rewrite length_map in Hsub.
    pose proof (length_filter (fun r => unusable r = false) results). lia.
Qed.

(** Results that repeat keys already met add nothing: the output of a
    batch followed by such results is the output of the batch, and so is
    the output of a batch followed by itself. *)
Theorem searchTorrents_repeat (results more : list Raw.Result) :
  ((forall r, r ∈ more -> unusable r = false ->
      exists r', r' ∈ results /\ unusable r' = false /\ key_of r' = key_of r) ->
   _searchTorrents (results ++ more) = _searchTorrents results) /\
  _searchTorrents (results ++ results) = _searchTorrents results.
Proof.
  assert (H : forall l,
            (forall r, r ∈ l -> unusable r = false ->
               exists r', r' ∈ results /\ unusable r' = false /\
                          key_of r' = key_of r) ->
            _searchTorrents (results ++ l) = _searchTorrents results).
  { intros l Hl. unfold Torznab._searchTorrents. rewrite run_app.
    rewrite run_seen_all; [reflexivity|].
    intros r Hr Hu. apply run_seen. right. now apply Hl. }
  split; [apply H|]. apply H. intros r Hr Hu. exists r. auto.
Qed.

(** The download URL of an output object is never a magnet link: it is the
    URL of an enclosure of type [application/x-bittorrent] of the result
    the object was built from, and holds no ["magnet:"]; it is the first
    such enclosure of that result.  Every object is of type ["torrent"]. *)
Theorem downloadUrl_torrent_file (results : list Raw.Result)
  (t : UnprocessedTorrent) :
  t ∈ _searchTorrents results ->
  type t = "torrent" /\
  exists r, r ∈ results /\ t = torrent_of r /\
    forall u, downloadUrl t = Some u ->
      includes "magnet:" u = false /\
      exists i e, Raw.enclosure r !! i = Some e /\
        Raw.type e = "application/x-bittorrent" /\ Raw.url e = u /\
        forall j e', j < i -> Raw.enclosure r !! j = Some e' ->
          is_torrent_enclosure e' = false.
Proof.
  intros (r & Hr & _ & ->)%searchTorrents_origin.
  split; [reflexivity|]. exists r. split; [assumption|]. split; [reflexivity|].
  intros u. cbn [torrent_of downloadUrl]. unfold downloadUrl_of.
  generalize (Raw.enclosure r). intros l.
  induction l as [|e l IH]; [discriminate|]. cbn [find].
  destruct (is_torrent_enclosure e) eqn:He.
  - intros [= <-]. unfold is_torrent_enclosure in He.
    apply andb_prop in He as [Ht Hm]. apply negb_true_iff in Hm.
    apply String.eqb_eq in Ht. split; [assumption|].
    exists 0, e. repeat split; auto. intros j e' Hj. lia.
  - intros H. destruct (IH H) as (Hm & i & e' & Hi & Ht & Hu & Hfirst).
    split; [assumption|]. exists (S i), e'. repeat split; auto.
    intros [|j] e'' Hj Hj'; [now injection Hj' as <-|].
    apply (Hfirst j); [lia | assumption].
Qed.

End Selection.

Section SelectionExamples.
Import Js Regex Torznab.

Abbreviation search :=
  (Torznab._searchTorrents validateInfoHash_model no_trackers number_zero).
Abbreviation object_of :=
  (Torznab.torrent_of validateInfoHash_model no_trackers number_zero).

(** The object of a result with a torrent file carries the URL of the
    file; the object of a result with a magnet enclosure carries none. *)
Lemma downloadUrl_torrent_file_example :
  object_of torrent_file ∈ search [by_enclosure; torrent_file] /\
  downloadUrl (object_of torrent_file)
  = Some "https://indexer.example/download/1.torrent" /\
  includes "magnet:" "https://indexer.example/download/1.torrent" = false /\
  downloadUrl (object_of by_enclosure) = None.
Proof.
  assert (Hin : object_of torrent_file ∈ search [by_enclosure; torrent_file]).
  { vm_compute. right. left. }
  destruct (downloadUrl_torrent_file validateInfoHash_model no_trackers
              number_zero _ _ Hin) as (_ & r & _ & _ & H).
  destruct (H _ eq_refl) as [Hm _].
  split; [exact Hin|]. split; [reflexivity|].
  split; [exact Hm | reflexivity].
Defined.

End SelectionExamples.

(* ------------------------------------------------------------------ *)
(** ** Claims on [CustomPreset] *)

Section CustomClaims.
Import Js Preset CustomPreset.

Variable UserData : Type.
Variable env : Env.
Variable new_URL : JsValue -> Completion URL.
Variable Number_toString : float -> string.

Abbreviation generateAddon := (CustomPreset.generateAddon UserData env).
Abbreviation generateAddons :=
  (CustomPreset.generateAddons UserData env new_URL Number_toString).
Abbreviation message :=
  (CustomPreset.invalid_manifest_message Number_toString).

Lemma get_insert (options : Options) (key : string) (v : JsValue) :
  get (<[key := v]> options) key = v.
Proof. unfold get. now rewrite lookup_insert_eq. Qed.

Lemma get_insert_ne (options : Options) (key key' : string) (v : JsValue) :
  key <> key' -> get (<[key := v]> options) key' = get options key'.
Proof. intros H. unfold get. now rewrite lookup_insert_ne. Qed.

Lemma get_delete (options : Options) (key : string) :
  get (delete key options) key = JsUndefined.
Proof. unfold get. now rewrite lookup_delete_eq. Qed.

Lemma get_delete_ne (options : Options) (key key' : string) :
  key <> key' -> get (delete key options) key' = get options key'.
Proof. intros H. unfold get. now rewrite lookup_delete_ne. Qed.

Lemma or_else_falsy (v d : JsValue) : truthy v = false -> or_else v d = d.
Proof. intros H. unfold or_else. now rewrite H. Qed.

Lemma or_else_truthy (v d : JsValue) : truthy v = true -> or_else v d = v.
Proof. intros H. unfold or_else. now rewrite H. Qed.

(** C7, amended.  [generateAddons] returns one addon, the one
    [generateAddon] builds, when [new URL(options.manifestUrl)] succeeds and
    the path of the URL ends with ["/manifest.json"].  When the constructor
    throws, or the path has no such end, it throws a plain [Error] whose
    message is the name option followed by " has an invalid Manifest URL. It
    must be a valid link to a manifest.json".  The message holds the label
    "Manifest URL"; the identifier [manifestUrl] of the option occurs in it
    only where the name option holds it.  Whatever is thrown is that error,
    so the exception of the URL constructor never reaches the caller. *)
Theorem generateAddons_manifest (userData : UserData) (options : Options) :
  (forall u,
     new_URL (get options "manifestUrl") = Return u ->
     endsWith "/manifest.json" (pathname u) = true ->
     generateAddons userData options
     = Return [generateAddon userData options]) /\
  (forall u,
     new_URL (get options "manifestUrl") = Return u ->
     endsWith "/manifest.json" (pathname u) = false ->
     generateAddons userData options = Throw (Error (message options))) /\
  (forall e,
     new_URL (get options "manifestUrl") = Throw e ->
     generateAddons userData options = Throw (Error (message options))) /\
  (forall e,
     generateAddons userData options = Throw e ->
     e = Error (message options)) /\
  (forall addons,
     generateAddons userData options = Return addons ->
     addons = [generateAddon userData options]) /\
  message options
  = CustomPreset.ToString Number_toString (get options "name") +:+
    " has an invalid Manifest URL. It must be a valid link to a manifest.json"
  /\ includes "Manifest URL" (message options) = true
  /\ names_field "manifestUrl" (Error (message options))
     = includes "manifestUrl"
         (CustomPreset.ToString Number_toString (get options "name")).
Proof.
  unfold CustomPreset.generateAddons.
  split; [|split; [|split; [|split; [|split; [|split; [|split]]]]]].
  - intros u -> H. cbn [try_catch_rethrow]. now rewrite H.
  - intros u -> H. cbn [try_catch_rethrow]. now rewrite H.
  - intros e ->. reflexivity.
  - intros e. destruct (new_URL _) as [u|e0]; cbn [try_catch_rethrow].
    + destruct (endsWith _ _); cbn [negb]; [discriminate | congruence].
    + congruence.
  - intros addons. destruct (new_URL _) as [u|e0]; cbn [try_catch_rethrow].
    + destruct (endsWith _ _); cbn [negb]; [congruence | discriminate].
    + discriminate.
  - reflexivity.
  - unfold invalid_manifest_message. now apply includes_append_r.
  - unfold names_field, message_of, invalid_manifest_message.
    rewrite (includes_before "manifestUrl" _
               "has an invalid Manifest URL. It must be a valid link to a manifest.json"
               " ") by (reflexivity || discriminate).
    apply orb_false_r.
Qed.

(** C10.  In the addon [generateAddon] builds, an option read with [||]
    cannot tell a falsy value from an absent one: a [timeout] of 0 gives the
    timeout of the family and an empty [name] gives ["Custom"], as for every
    other falsy value and as when the option is absent; a truthy value is
    kept.  An option read with [??] keeps an explicit [false]:
    [libraryAddon], [resultPassthrough], [forceToTop], and
    [formatPassthrough], which stays [false] even when [streamPassthrough]
    is [true].  For [name], [timeout], [resources] and [mediaTypes], the
    addon built from a falsy value is the addon built without the option,
    but for the raw options object it carries in [preset.options]. *)
Theorem generateAddon_falsy_options (userData : UserData) (options : Options) :
  truthy (JsNumber 0) = false /\ truthy (JsString "") = false /\
  (forall v, truthy v = false ->
     timeout (generateAddon userData (<["timeout" := v]> options))
     = JsNumber (DEFAULT_TIMEOUT env) /\
     name (generateAddon userData (<["name" := v]> options))
     = JsString "Custom") /\
  (timeout (generateAddon userData (delete "timeout" options))
   = JsNumber (DEFAULT_TIMEOUT env) /\
   name (generateAddon userData (delete "name" options))
   = JsString "Custom") /\
  (forall v, truthy v = true ->
     timeout (generateAddon userData (<["timeout" := v]> options)) = v /\
     name (generateAddon userData (<["name" := v]> options)) = v) /\
  (forall b,
     library (generateAddon userData
                (<["libraryAddon" := JsBoolean b]> options)) = JsBoolean b /\
     resultPassthrough
       (generateAddon userData
          (<["resultPassthrough" := JsBoolean b]> options)) = JsBoolean b /\
     forceToTop (generateAddon userData
                   (<["forceToTop" := JsBoolean b]> options)) = JsBoolean b /\
     forall s,
       formatPassthrough
         (generateAddon userData
            (<["formatPassthrough" := JsBoolean b]>
               (<["streamPassthrough" := s]> options))) = JsBoolean b) /\
  library (generateAddon userData (delete "libraryAddon" options))
  = JsBoolean false /\
  formatPassthrough
    (generateAddon userData
       (delete "formatPassthrough"
          (<["streamPassthrough" := JsBoolean true]> options)))
  = JsBoolean true /\
  (forall key v,
     key = "name" \/ key = "timeout" \/ key = "resources" \/
     key = "mediaTypes" ->
     truthy v = false ->
     generateAddon userData (<[key := v]> options)
     = with_options (<[key := v]> options)
         (generateAddon userData (delete key options))).
Proof.
  split; [reflexivity|]. split; [reflexivity|].
  split; [|split; [|split; [|split; [|split; [|split]]]]].
  7:{ intros key v Hkey Hv. unfold CustomPreset.generateAddon, with_options.
      cbn [name manifestUrl enabled library resources mediaTypes timeout
           preset preset_id preset_type formatPassthrough resultPassthrough
           forceToTop headers].
      destruct Hkey as [Hk|[Hk|[Hk|Hk]]]; subst key;
        rewrite ?get_insert, ?get_delete;
        rewrite ?(or_else_falsy v) by assumption;
        rewrite ?get_insert_ne, ?get_delete_ne by discriminate;
        reflexivity. }
  all: cbn [CustomPreset.generateAddon timeout name library resultPassthrough
            forceToTop formatPassthrough].
  - intros v Hv. rewrite !get_insert. now rewrite !or_else_falsy.
  - now rewrite !get_delete.
  - intros v Hv. rewrite !get_insert. now rewrite !or_else_truthy.
  - intros b. rewrite !get_insert. repeat split.
    intros s. now rewrite get_insert.
  - now rewrite get_delete.
  - rewrite get_delete. unfold get.
    rewrite lookup_delete_ne by discriminate.
    now rewrite lookup_insert_eq.
Qed.

End CustomClaims.

(** The examples of the specification for C7: a manifest address is
    accepted, the same address without ["/manifest.json"] and a text that is
    no URL are refused with the error that names the Manifest URL. *)
Lemma generateAddons_manifest_example :
  CustomPreset.generateAddons unit Preset.example_env
    CustomPreset.example_new_URL CustomPreset.example_Number_toString tt
    (CustomPreset.example_options "https://example.com/foo/manifest.json")
  = Preset.Return
      [CustomPreset.generateAddon unit Preset.example_env tt
         (CustomPreset.example_options
            "https://example.com/foo/manifest.json")] /\
  CustomPreset.generateAddons unit Preset.example_env
    CustomPreset.example_new_URL CustomPreset.example_Number_toString tt
    (CustomPreset.example_options "https://example.com/foo")
  = Preset.Throw
      (Preset.Error
         "My addon has an invalid Manifest URL. It must be a valid link to a manifest.json") /\
  CustomPreset.generateAddons unit Preset.example_env
    CustomPreset.example_new_URL CustomPreset.example_Number_toString tt
    (CustomPreset.example_options "example.com")
  = Preset.Throw
      (Preset.Error
         "My addon has an invalid Manifest URL. It must be a valid link to a manifest.json").
Proof.
  split; [|split].
  - refine (proj1 (generateAddons_manifest unit Preset.example_env
              CustomPreset.example_new_URL
              CustomPreset.example_Number_toString tt _) _ _ _);
      reflexivity.
  - refine (proj1 (proj2 (generateAddons_manifest unit Preset.example_env
              CustomPreset.example_new_URL
              CustomPreset.example_Number_toString tt _)) _ _ _);
      reflexivity.
  - refine (proj1 (proj2 (proj2 (generateAddons_manifest unit
              Preset.example_env CustomPreset.example_new_URL
              CustomPreset.example_Number_toString tt _))) _ _);
      reflexivity.
Defined.

(** C7, as stated, fails.  The address without ["/manifest.json"] and the
    text that is no URL are refused with a plain [Error] whose message is
    "My addon has an invalid Manifest URL. It must be a valid link to a
    manifest.json": no exception thrown there names the option
    [manifestUrl].  The message begins with the name option, a text of the
    user: an addon named "timeout" is refused, for its manifest URL, with an
    error that names [timeout] and not [manifestUrl]. *)
Lemma generateAddons_manifest_counterexample :
  (CustomPreset.generateAddons unit Preset.example_env
     CustomPreset.example_new_URL CustomPreset.example_Number_toString tt
     (CustomPreset.example_options "https://example.com/foo")
   = Preset.Throw
       (Preset.Error
          "My addon has an invalid Manifest URL. It must be a valid link to a manifest.json") /\
   ~ exists e,
       CustomPreset.generateAddons unit Preset.example_env
         CustomPreset.example_new_URL CustomPreset.example_Number_toString tt
         (CustomPreset.example_options "https://example.com/foo")
       = Preset.Throw e /\
       Preset.names_field "manifestUrl" e = true) /\
  (~ exists e,
       CustomPreset.generateAddons unit Preset.example_env
         CustomPreset.example_new_URL CustomPreset.example_Number_toString tt
         (CustomPreset.example_options "example.com")
       = Preset.Throw e /\
       Preset.names_field "manifestUrl" e = true) /\
  (exists e,
     CustomPreset.generateAddons unit Preset.example_env
       CustomPreset.example_new_URL CustomPreset.example_Number_toString tt
       (<["name" := Js.JsString "timeout"]>
          (CustomPreset.example_options "https://example.com/foo"))
     = Preset.Throw e /\
     Preset.names_field "timeout" e = true /\
     Preset.names_field "manifestUrl" e = false).
Proof.
  split; [split; [reflexivity|]|split].
  - intros (e & H & Hn). vm_compute in H. injection H as <-.
    vm_compute in Hn. discriminate Hn.
  - intros (e & H & Hn). vm_compute in H. injection H as <-.
    vm_compute in Hn. discriminate Hn.
  - eexists. split; [vm_compute; reflexivity|]. split; reflexivity.
Qed.

(** C10 at an empty set of options: a timeout of 0 and an empty name give
    the defaults, an explicit [false] for [libraryAddon] is kept. *)
Lemma generateAddon_falsy_options_example :
  CustomPreset.timeout
    (CustomPreset.generateAddon unit Preset.example_env tt
       (<["timeout" := Js.JsNumber 0]> ∅)) = Js.JsNumber 15000 /\
  CustomPreset.name
    (CustomPreset.generateAddon unit Preset.example_env tt
       (<["name" := Js.JsString ""]> ∅)) = Js.JsString "Custom" /\
  CustomPreset.library
    (CustomPreset.generateAddon unit Preset.example_env tt
       (<["libraryAddon" := Js.JsBoolean false]> ∅)) = Js.JsBoolean false.
Proof.
  destruct (generateAddon_falsy_options unit Preset.example_env tt ∅)
    as (_ & _ & Hfalsy & _ & _ & Hbool & _).
  split; [|split].
  - exact (proj1 (Hfalsy (Js.JsNumber 0) eq_refl)).
  - exact (proj2 (Hfalsy (Js.JsString "") eq_refl)).
  - exact (proj1 (Hbool false)).
Defined.

(* ------------------------------------------------------------------ *)
(** ** Claims on [JackettPreset] *)

Section JackettClaims.
Import Js Preset JackettPreset.

Variable UserData : Type.
Variable ServiceId : Type.
Variable BaseConfig : Type.
Variable getBaseConfig : UserData -> list ServiceId -> BaseConfig.
Variable base64EncodeJSON : Config BaseConfig -> string.

Abbreviation generateManifestUrl :=
  (JackettPreset.generateManifestUrl UserData ServiceId BaseConfig
     getBaseConfig base64EncodeJSON).
Abbreviation address_of :=
  (JackettPreset.address_of UserData ServiceId BaseConfig getBaseConfig
     base64EncodeJSON).

(** C8.  When the user supplied a (truthy) [jackettUrl] or [jackettApiKey],
    both values are the user's and the built-in ones of the environment
    play no part: the outcome is the same in every environment with the
    same internal URL, an address is built from the user's URL and key, and
    a user who supplied only one of the two gets the error, whatever the
    environment holds.  Only when the user supplied neither are the built-in
    URL and key taken.  When the URL or the key so selected is absent or
    empty, as when it is missing from the options and from the environment,
    [generateManifestUrl] throws the [Error] "Jackett URL and API Key are
    required" and builds no address. *)
Theorem generateManifestUrl_defaults (env : Env) (userData : UserData)
  (services : list ServiceId) (options : Options) :
  let userUrl := get options "jackettUrl" in
  let userKey := get options "jackettApiKey" in
  let supplied := truthy userUrl || truthy userKey in
  (supplied = true ->
   selected env options = (userUrl, userKey) /\
   forall env', INTERNAL_URL env' = INTERNAL_URL env ->
     generateManifestUrl env' userData services options
     = generateManifestUrl env userData services options) /\
  (supplied = false ->
   selected env options
   = (of_opt_string (BUILTIN_JACKETT_URL env),
      of_opt_string (BUILTIN_JACKETT_API_KEY env))) /\
  (forall u,
     userUrl = JsString u -> truthy userUrl = true -> truthy userKey = true ->
     generateManifestUrl env userData services options
     = Return (address_of env userData services u userKey)) /\
  (forall u k,
     supplied = false ->
     BUILTIN_JACKETT_URL env = Some u -> u <> "" ->
     BUILTIN_JACKETT_API_KEY env = Some k -> k <> "" ->
     generateManifestUrl env userData services options
     = Return (address_of env userData services u (JsString k))) /\
  (truthy (fst (selected env options)) = false \/
   truthy (snd (selected env options)) = false ->
   generateManifestUrl env userData services options
   = Throw (Error "Jackett URL and API Key are required")) /\
  (supplied = true -> truthy userUrl = false \/ truthy userKey = false ->
   generateManifestUrl env userData services options
   = Throw (Error "Jackett URL and API Key are required")) /\
  (supplied = false ->
   truthy_str (BUILTIN_JACKETT_URL env) = false \/
   truthy_str (BUILTIN_JACKETT_API_KEY env) = false ->
   generateManifestUrl env userData services options
   = Throw (Error "Jackett URL and API Key are required")) /\
  (forall address,
     generateManifestUrl env userData services options = Return address ->
     exists u, fst (selected env options) = JsString u /\ u <> "" /\
       truthy (snd (selected env options)) = true /\
       address
       = address_of env userData services u (snd (selected env options))).
Proof.
  intros userUrl userKey supplied.
  assert (Hopt : forall o, truthy (of_opt_string o) = truthy_str o).
  { intros [s|]; reflexivity. }
  assert (Hthrow : truthy (fst (selected env options)) = false \/
                   truthy (snd (selected env options)) = false ->
                   generateManifestUrl env userData services options
                   = Throw (Error "Jackett URL and API Key are required")).
  { unfold JackettPreset.generateManifestUrl.
    destruct (selected env options) as [a b]. cbn [fst snd].
    intros [H|H]; rewrite H; cbn [negb orb]; [reflexivity|].
    now rewrite orb_true_r. }
  assert (Hsel : supplied = true -> selected env options = (userUrl, userKey)).
  { intros H. unfold selected. fold userUrl userKey supplied. now rewrite H. }
  assert (Hsel' : supplied = false ->
            selected env options
            = (of_opt_string (BUILTIN_JACKETT_URL env),
               of_opt_string (BUILTIN_JACKETT_API_KEY env))).
  { intros H. unfold selected. fold userUrl userKey supplied. now rewrite H. }
  split; [|split; [|split; [|split; [|split; [|split; [|split]]]]]].
  - intros H. split; [now apply Hsel|]. intros env' Henv.
    unfold JackettPreset.generateManifestUrl, selected.
    fold userUrl userKey supplied. rewrite H.
    destruct (negb (truthy userUrl) || negb (truthy userKey));
      [reflexivity|]. destruct userUrl; try reflexivity. now rewrite Henv.
  - exact Hsel'.
  - intros u Hu H1 H2.
    unfold JackettPreset.generateManifestUrl. rewrite Hsel.
    + rewrite H1, H2. cbn [negb orb]. now rewrite Hu.
    + unfold supplied. now rewrite H1.
  - intros u k H Hu Hne Hk Hne'.
    unfold JackettPreset.generateManifestUrl. rewrite (Hsel' H), Hu, Hk.
    cbn [of_opt_string truthy].
    apply String.eqb_neq in Hne, Hne'. now rewrite Hne, Hne'.
  - exact Hthrow.
  - intros H Hone. apply Hthrow. now rewrite (Hsel H).
  - intros H Hone. apply Hthrow. rewrite (Hsel' H). cbn [fst snd].
    now rewrite !Hopt.
  - intros address. unfold JackettPreset.generateManifestUrl.
    destruct (selected env options) as [a b]. cbn [fst snd].
    destruct (truthy a) eqn:Ha; [|discriminate].
    destruct (truthy b) eqn:Hb; [|discriminate]. cbn [negb orb].
    destruct a as [| |b0|n|u|xs]; try discriminate.
    intros [= <-]. exists u. repeat split.
    cbn [truthy] in Ha. apply negb_true_iff in Ha. now apply String.eqb_neq.
Qed.

End JackettClaims.

(** C8 at examples.  With a built-in instance in the environment, the URL
    and the key of the user are the ones used; a user who gives a URL and no
    key gets the error, although the environment has a key; a user who gives
    neither gets the built-in instance, and the error without one. *)
Lemma generateManifestUrl_defaults_example :
  JackettPreset.generateManifestUrl unit unit unit
    JackettPreset.example_getBaseConfig JackettPreset.example_encode
    Preset.example_env_builtin tt [] JackettPreset.user_options
  = Preset.Return
      "http://localhost:3000/builtins/torznab/http://my-jackett:9117/api/v2.0/indexers/all/results/torznab/manifest.json" /\
  JackettPreset.generateManifestUrl unit unit unit
    JackettPreset.example_getBaseConfig JackettPreset.example_encode
    Preset.example_env_builtin tt [] JackettPreset.url_only_options
  = Preset.Throw (Preset.Error "Jackett URL and API Key are required") /\
  JackettPreset.generateManifestUrl unit unit unit
    JackettPreset.example_getBaseConfig JackettPreset.example_encode
    Preset.example_env_builtin tt [] ∅
  = Preset.Return
      "http://localhost:3000/builtins/torznab/http://jackett:9117/api/v2.0/indexers/all/results/torznab/manifest.json" /\
  JackettPreset.generateManifestUrl unit unit unit
    JackettPreset.example_getBaseConfig JackettPreset.example_encode
    Preset.example_env tt [] ∅
  = Preset.Throw (Preset.Error "Jackett URL and API Key are required").
Proof.
  split; [|split; [|split]].
  - destruct (generateManifestUrl_defaults unit unit unit
                JackettPreset.example_getBaseConfig
                JackettPreset.example_encode Preset.example_env_builtin tt []
                JackettPreset.user_options) as (_ & _ & H & _).
    now rewrite (H "http://my-jackett:9117/").
  - destruct (generateManifestUrl_defaults unit unit unit
                JackettPreset.example_getBaseConfig
                JackettPreset.example_encode Preset.example_env_builtin tt []
                JackettPreset.url_only_options) as (_ & _ & _ & _ & _ & H & _).
    apply H; [reflexivity | now right].
  - destruct (generateManifestUrl_defaults unit unit unit
                JackettPreset.example_getBaseConfig
                JackettPreset.example_encode Preset.example_env_builtin tt []
                ∅) as (_ & _ & _ & H & _).
    now rewrite (H "http://jackett:9117/" "builtin-key").
  - destruct (generateManifestUrl_defaults unit unit unit
                JackettPreset.example_getBaseConfig
                JackettPreset.example_encode Preset.example_env tt []
                ∅) as (_ & _ & _ & _ & _ & _ & H & _).
    apply H; [reflexivity | now left].
Defined.

(* ------------------------------------------------------------------ *)
(** ** The addon [CustomPreset] builds *)

Section CustomAddon.
Import Js Preset CustomPreset.

Variable UserData : Type.
Variable env : Env.

Abbreviation generateAddon := (CustomPreset.generateAddon UserData env).

Lemma or_else_cases (v d : JsValue) :
  (truthy v = true /\ or_else v d = v) \/ (truthy v = false /\ or_else v d = d).
Proof. unfold or_else. destruct (truthy v); auto. Qed.

Lemma coalesce_defined (v d : JsValue) :
  nullish d = false -> nullish (coalesce v d) = false.
Proof. unfold coalesce. destruct (nullish v) eqn:E; auto. Qed.

(** Whatever the options hold, the addon [generateAddon] builds is filled
    in: its name and its media types are truthy, its resources are truthy or
    [undefined], its timeout is truthy or the default timeout of the
    environment, and none of the four flags [library], [formatPassthrough],
    [resultPassthrough] and [forceToTop] is [null] or [undefined].  The
    addon is enabled, and it carries the manifest URL and the options
    object as they were given. *)
Theorem generateAddon_normalised (userData : UserData) (options : Options) :
  let addon := generateAddon userData options in
  truthy (name addon) = true /\
  truthy (mediaTypes addon) = true /\
  (truthy (resources addon) = true \/ resources addon = JsUndefined) /\
  (truthy (timeout addon) = true \/
   timeout addon = JsNumber (DEFAULT_TIMEOUT env)) /\
  nullish (library addon) = false /\
  nullish (formatPassthrough addon) = false /\
  nullish (resultPassthrough addon) = false /\
  nullish (forceToTop addon) = false /\
  enabled addon = true /\
  manifestUrl addon = get options "manifestUrl" /\
  preset_options (preset addon) = options.
Proof.
  intros addon. subst addon. unfold CustomPreset.generateAddon.
  cbn [name mediaTypes resources timeout library formatPassthrough
       resultPassthrough forceToTop enabled manifestUrl preset preset_options].
  split; [|split; [|split; [|split]]].
  - destruct (or_else_cases (get options "name") (JsString METADATA_NAME))
      as [[H ->]|[_ ->]]; [exact H | reflexivity].
  - destruct (or_else_cases (get options "mediaTypes") (JsArray []))
      as [[H ->]|[_ ->]]; [exact H | reflexivity].
  - destruct (or_else_cases (get options "resources") JsUndefined)
      as [[H ->]|[_ ->]]; auto.
  - destruct (or_else_cases (get options "timeout")
                (JsNumber (METADATA_TIMEOUT env)))
      as [[H ->]|[_ ->]]; auto.
  - repeat split; now apply coalesce_defined.
Qed.

End CustomAddon.

(* ------------------------------------------------------------------ *)
(** ** The built-in presets and their metadata *)

Section BuiltinPresets.
Import Js Preset.
Local Open Scope list_scope.

Variable UserData : Type.
Variable ServiceId : Type.
Variable BaseConfig : Type.
Variable getBaseConfig : UserData -> list ServiceId -> BaseConfig.
Variable encodeJackett : JackettPreset.Config BaseConfig -> string.
Variable encodeBitmagnet : BitmagnetPreset.Config BaseConfig -> string.
Variable encodeKnaben : BaseConfig -> string.
Variable supportedServices : list ServiceId.
Variable SERVICE_NAME : ServiceId -> string.
Variable STREAM_RESOURCE : string.
Variable DEBRID_STREAM_TYPE : string.

Abbreviation jackett_url :=
  (JackettPreset.generateManifestUrl UserData ServiceId BaseConfig
     getBaseConfig encodeJackett).
Abbreviation jackett_metadata :=
  (JackettPreset.METADATA ServiceId supportedServices SERVICE_NAME
     STREAM_RESOURCE DEBRID_STREAM_TYPE).
Abbreviation bitmagnet_url :=
  (BitmagnetPreset.generateManifestUrl UserData ServiceId BaseConfig
     getBaseConfig encodeBitmagnet).
Abbreviation bitmagnet_metadata :=
  (BitmagnetPreset.METADATA ServiceId supportedServices SERVICE_NAME
     STREAM_RESOURCE DEBRID_STREAM_TYPE).
Abbreviation knaben_url :=
  (KnabenPreset.generateManifestUrl UserData ServiceId BaseConfig
     getBaseConfig encodeKnaben).
Abbreviation knaben_metadata :=
  (KnabenPreset.METADATA ServiceId supportedServices SERVICE_NAME
     STREAM_RESOURCE DEBRID_STREAM_TYPE).

Lemma replace_trailing_slash_append (u : string) :
  JackettPreset.replace_trailing_slash (u +:+ "/") = u.
Proof.
  induction u as [|a u IH]; [reflexivity|].
  simpl String.append. cbn [JackettPreset.replace_trailing_slash].
  rewrite IH. now destruct u.
Qed.

Lemma replace_trailing_slash_id (u : string) :
  endsWith "/" u = false -> JackettPreset.replace_trailing_slash u = u.
Proof.
  induction u as [|a u IH]; [reflexivity|].
  cbn [endsWith JackettPreset.replace_trailing_slash].
  intros [H1 H2]%orb_false_elim. destruct u as [|b u].
  - destruct (Ascii.eqb_spec a "/") as [->|Hne]; [discriminate H1 | reflexivity].
  - now rewrite (IH H2).
Qed.

Lemma endsWith_append (n s : string) : endsWith n (s +:+ n) = true.
Proof.
  induction s as [|a s IH].
  - simpl String.append. destruct n; simpl; [reflexivity|].
    now rewrite Ascii.eqb_refl, String.eqb_refl.
  - simpl String.append. cbn [endsWith]. rewrite IH. apply orb_true_r.
Qed.

Lemma endsWith_append_r (n s1 s2 : string) :
  endsWith n s2 = true -> endsWith n (s1 +:+ s2) = true.
Proof.
  intros H. induction s1 as [|a s1 IH]; [exact H|].
  simpl String.append. cbn [endsWith]. rewrite IH. apply orb_true_r.
Qed.

Lemma truthy_of_opt_string (o : option string) :
  truthy (of_opt_string o) = truthy_str o.
Proof. now destruct o. Qed.

(** With neither option supplied, [generateManifestUrl] of Jackett returns
    exactly when the environment holds a URL and a key. *)
Lemma jackett_url_builtin (env : Env) (userData : UserData)
  (services : list ServiceId) (options : Options) :
  truthy (get options "jackettUrl") = false ->
  truthy (get options "jackettApiKey") = false ->
  if JackettPreset.credentials_required env
  then jackett_url env userData services options
       = Throw (Error JackettPreset.REQUIRED_MESSAGE)
  else exists u k,
         BUILTIN_JACKETT_URL env = Some u /\
         BUILTIN_JACKETT_API_KEY env = Some k /\
         jackett_url env userData services options
         = Return (JackettPreset.address_of UserData ServiceId BaseConfig
                     getBaseConfig encodeJackett env userData services u
                     (JsString k)).
Proof.
  intros Hu Hk.
  unfold JackettPreset.generateManifestUrl, JackettPreset.selected,
    JackettPreset.credentials_required.
  rewrite Hu, Hk. cbn [orb]. rewrite !truthy_of_opt_string.
  destruct (BUILTIN_JACKETT_URL env) as [u|];
    destruct (BUILTIN_JACKETT_API_KEY env) as [k|]; cbn [truthy_str negb orb];
    try reflexivity.
  - destruct (negb (u =? ""))%string; cbn [negb orb]; [|reflexivity].
    destruct (negb (k =? ""))%string; cbn [negb orb]; [|reflexivity].
    cbn [of_opt_string]. exists u, k. auto.
  - destruct (negb (u =? ""))%string; reflexivity.
Qed.

(** The options of Jackett are marked as required exactly when leaving them
    empty makes [generateManifestUrl] throw: both carry the same [required]
    flag, which is set when the environment lacks a built-in URL or key;
    with the flag set, a call without a URL and a key throws the error, and
    without it the call returns an address.  The note that the fields need
    not be filled is among the options exactly when the flag is not set.
    The ids of the options are distinct, and the default of the [timeout]
    option is the timeout of the metadata. *)
Theorem jackett_options_consistent (env : Env) (userData : UserData)
  (services : list ServiceId) (options : Options) :
  let M := jackett_metadata env in
  let required := JackettPreset.credentials_required env in
  NoDup (map opt_id (OPTIONS M)) /\
  ("notRequiredNote" ∈ map opt_id (OPTIONS M) <-> required = false) /\
  (forall o, o ∈ OPTIONS M ->
     opt_id o = "jackettUrl" \/ opt_id o = "jackettApiKey" ->
     opt_required o = Some required) /\
  (truthy (get options "jackettUrl") = false ->
   truthy (get options "jackettApiKey") = false ->
   (required = true <->
    jackett_url env userData services options
    = Throw (Error "Jackett URL and API Key are required")) /\
   (required = false <->
    exists address,
      jackett_url env userData services options = Return address)) /\
  (forall o, o ∈ OPTIONS M -> opt_id o = "timeout" ->
     opt_default o = Some (JsNumber (TIMEOUT M))).
Proof.
  intros M required. subst M required.
  assert (Hpre : JackettPreset.preconfigured env
                 = negb (JackettPreset.credentials_required env)).
  { unfold JackettPreset.preconfigured, JackettPreset.credentials_required.
    destruct (truthy_str (BUILTIN_JACKETT_URL env)),
      (truthy_str (BUILTIN_JACKETT_API_KEY env)); reflexivity. }
  pose proof (jackett_url_builtin env userData services options) as Hcall.
  unfold JackettPreset.METADATA. cbn [OPTIONS TIMEOUT]. rewrite Hpre.
  unfold JackettPreset.jackettUrl_option, JackettPreset.jackettApiKey_option.
  destruct (JackettPreset.credentials_required env); cbn [negb app].
  all: split; [|split; [|split; [|split]]].
  all: try match goal with
       | |- NoDup ?l => apply (bool_decide_unpack (NoDup l)); vm_compute; exact I
       end.
  - split; [|discriminate]. intros H. exfalso. cbn in H.
    repeat (apply elem_of_cons in H as [H|H]; [discriminate H|]).
    inversion H.
  - intros o Ho Hid.
    repeat (apply elem_of_cons in Ho as [->|Ho]);
      try (now inversion Ho);
      try reflexivity; destruct Hid as [Hid|Hid]; discriminate Hid.
  - intros Hu Hk. rewrite (Hcall Hu Hk).
    split; split; try reflexivity; try discriminate.
    intros [a Ha]. discriminate Ha.
  - intros o Ho Hid.
    repeat (apply elem_of_cons in Ho as [->|Ho]);
      try (now inversion Ho); try discriminate Hid; reflexivity.
  - split; [intros _; reflexivity|]. intros _. cbn. do 3 right. left.
  - intros o Ho Hid.
    repeat (apply elem_of_cons in Ho as [->|Ho]);
      try (now inversion Ho);
      try reflexivity; destruct Hid as [Hid|Hid]; discriminate Hid.
  - intros Hu Hk. destruct (Hcall Hu Hk) as (u & k & _ & _ & ->).
    split; split; try discriminate; try reflexivity. intros _. eauto.
  - intros o Ho Hid.
    repeat (apply elem_of_cons in Ho as [->|Ho]);
      try (now inversion Ho); try discriminate Hid; reflexivity.
Qed.

(** One slash at the end of the URL of the instance makes no difference:
    [replace] drops exactly one, so a URL and the same URL followed by a
    slash give the same address, for the Jackett URL of the user as for
    the built-in Bitmagnet URL.  A second slash is kept. *)
Theorem trailing_slash_ignored (u : string) :
  JackettPreset.replace_trailing_slash (u +:+ "/") = u /\
  (endsWith "/" u = false -> JackettPreset.replace_trailing_slash u = u) /\
  (endsWith "/" u = false -> u <> "" ->
   forall env userData services options key,
     truthy key = true ->
     jackett_url env userData services
       (<["jackettUrl" := JsString (u +:+ "/")]>
          (<["jackettApiKey" := key]> options))
     = jackett_url env userData services
         (<["jackettUrl" := JsString u]>
            (<["jackettApiKey" := key]> options))) /\
  (endsWith "/" u = false -> u <> "" ->
   forall env timeout timeout' userData services options,
     bitmagnet_url env (mkBuiltinEnv (Some (u +:+ "/")) timeout timeout')
       userData services options
     = bitmagnet_url env (mkBuiltinEnv (Some u) timeout timeout')
         userData services options).
Proof.
  split; [apply replace_trailing_slash_append|].
  split; [apply replace_trailing_slash_id|]. split.
  - intros Hend Hne env userData services options key Hkey.
    assert (Hne' : u +:+ "/" <> "") by (intros H; destruct u; discriminate H).
    apply String.eqb_neq in Hne, Hne'.
    unfold JackettPreset.generateManifestUrl, JackettPreset.selected.
    rewrite !get_insert.
    do 2 (rewrite get_insert_ne by discriminate; rewrite !get_insert).
    cbn [truthy]. rewrite Hne, Hne', Hkey. cbn [negb orb truthy].
    rewrite Hne, Hne', Hkey. cbn [negb orb].
    now rewrite replace_trailing_slash_append, replace_trailing_slash_id.
  - intros Hend Hne env timeout timeout' userData services options.
    assert (Hne' : u +:+ "/" <> "") by (intros H; destruct u; discriminate H).
    apply String.eqb_neq in Hne, Hne'.
    unfold BitmagnetPreset.generateManifestUrl.
    cbn [BUILTIN_BITMAGNET_URL truthy_str]. rewrite Hne, Hne'. cbn [negb].
    now rewrite replace_trailing_slash_append, replace_trailing_slash_id.
Qed.

(** Every address a built-in preset generates lies under the URL of its
    metadata and ends with ["/manifest.json"].  Bitmagnet generates one
    exactly when the environment holds a non-empty Bitmagnet URL, and throws
    the error "The Bitmagnet URL is not set" otherwise, whatever the
    options; Knaben always generates one. *)
Theorem builtin_manifest_location (env : Env) (builtin : BuiltinEnv)
  (userData : UserData) (services : list ServiceId) (options : Options) :
  (forall address,
     jackett_url env userData services options = Return address ->
     startsWith (URL (jackett_metadata env) +:+ "/") address = true /\
     endsWith "/manifest.json" address = true) /\
  (forall address,
     bitmagnet_url env builtin userData services options = Return address ->
     startsWith (URL (bitmagnet_metadata env builtin) +:+ "/") address = true /\
     endsWith "/manifest.json" address = true) /\
  (truthy_str (BUILTIN_BITMAGNET_URL builtin) = true <->
   exists address,
     bitmagnet_url env builtin userData services options = Return address) /\
  (truthy_str (BUILTIN_BITMAGNET_URL builtin) = false <->
   bitmagnet_url env builtin userData services options
   = Throw (Error "The Bitmagnet URL is not set")) /\
  (exists address,
     knaben_url env userData services options = Return address /\
     startsWith (URL (knaben_metadata env builtin) +:+ "/") address = true /\
     endsWith "/manifest.json" address = true).
Proof.
  assert (Hloc : forall base cfg,
            startsWith ((INTERNAL_URL env +:+ base) +:+ "/")
              (INTERNAL_URL env +:+ (base +:+ "/") +:+ cfg +:+ "/manifest.json")
            = true /\
            endsWith "/manifest.json"
              (INTERNAL_URL env +:+ (base +:+ "/") +:+ cfg +:+ "/manifest.json")
            = true).
  { intros base cfg. split.
    - rewrite <- (append_assoc (INTERNAL_URL env) (base +:+ "/")).
      rewrite <- (append_assoc (INTERNAL_URL env) base "/").
      apply startsWith_append.
    - do 2 apply endsWith_append_r. apply endsWith_append. }
  split; [|split; [|split; [|split]]].
  - intros address. unfold JackettPreset.generateManifestUrl.
    destruct (JackettPreset.selected env options) as [a b].
    destruct (negb (truthy a) || negb (truthy b)); [discriminate|].
    destruct a; try discriminate. intros [= <-].
    apply (Hloc "/builtins/torznab").
  - intros address. unfold BitmagnetPreset.generateManifestUrl.
    destruct (BUILTIN_BITMAGNET_URL builtin) as [u|]; [|discriminate].
    destruct (negb (truthy_str (Some u))); [discriminate|]. intros [= <-].
    apply (Hloc "/builtins/torznab").
  - unfold BitmagnetPreset.generateManifestUrl.
    destruct (BUILTIN_BITMAGNET_URL builtin) as [u|].
    + destruct (truthy_str (Some u)); cbn [negb]; split; eauto;
        try discriminate. intros [a Ha]. discriminate Ha.
    + split; [discriminate|]. intros [a Ha]. discriminate Ha.
  - unfold BitmagnetPreset.generateManifestUrl.
    destruct (BUILTIN_BITMAGNET_URL builtin) as [u|].
    + destruct (truthy_str (Some u)); cbn [negb]; split; auto; discriminate.
    + split; reflexivity.
  - eexists. split; [reflexivity|]. apply (Hloc "/builtins/knaben").
Qed.

End BuiltinPresets.

(* ------------------------------------------------------------------ *)
(** ** Transactions of [DB] *)

Section Transactions.
Import Js Preset DB.
Local Open Scope list_scope.

Variable Row : Type.
Variable Param : Type.
Variable DSNModifier : Type.
Variable driver : Driver Row Param.
Variable adaptQuery : string -> DBDialect -> string.
Variable trim : string -> string.
Variable toUpperCase : string -> string.

Abbreviation TxState := (TxWorld Param DSNModifier).
Abbreviation call_on :=
  (@tx_call Row Param DSNModifier driver adaptQuery trim toUpperCase).
Abbreviation calls_on :=
  (@tx_calls Row Param DSNModifier driver adaptQuery trim toUpperCase).

Lemma tx_calls_app (tx : Transaction) (cs1 cs2 : list (TxCall Param))
  (s : TxState) :
  calls_on tx (cs1 ++ cs2) s = calls_on tx cs2 (calls_on tx cs1 s).
Proof. apply fold_left_app. Qed.

Lemma tx_calls_snoc (tx : Transaction) (cs : list (TxCall Param))
  (c : TxCall Param) (s : TxState) :
  calls_on tx (cs ++ [c]) s = snd (call_on tx c (calls_on tx cs s)).
Proof. now rewrite tx_calls_app. Qed.

(** Splitting a list that ends with [x] at one of its elements. *)
Lemma snoc_split {A} (l pre post : list A) (x c : A) :
  l ++ [x] = pre ++ c :: post ->
  (post = [] /\ pre = l /\ c = x) \/
  (exists post', post = post' ++ [x] /\ l = pre ++ c :: post').
Proof.
  destruct post as [|y post _] using rev_ind; intros H.
  - left. apply app_inj_tail in H as [-> ->]. auto.
  - right. exists post.
    change (pre ++ c :: post ++ [y]) with (pre ++ (c :: post) ++ [y]) in H.
    rewrite app_assoc in H. apply app_inj_tail in H as [-> ->]. auto.
Qed.

(** *** SQLite *)

(** A finalised transaction does nothing any more. *)
Lemma sqlite_call_finalised (c : TxCall Param) (s : TxState) :
  finalised s = true ->
  call_on SqliteTransaction c s
  = (match c with
     | Execute _ _ => Throw (Error FINALISED_MESSAGE)
     | _ => Return None
     end, s).
Proof.
  intros H. destruct c; unfold tx_call, commit, rollback, end_transaction,
    tx_execute, bind, get_state, ret, throw; now rewrite H.
Qed.

(** What one call does to a transaction that is not finalised: it makes at
    most one call to the database, and sets the flag exactly when that call
    was a [COMMIT] or [ROLLBACK] that succeeded. *)
Lemma sqlite_call_step (c : TxCall Param) (s : TxState) :
  finalised s = false ->
  let s' := snd (call_on SqliteTransaction c s) in
  (trace (world s') = trace (world s) /\ finalised s' = false) \/
  (exists sql,
     (sql = "COMMIT" \/ sql = "ROLLBACK") /\
     trace (world s') = trace (world s) ++ [sqlite_exec sql] /\
     (finalised s' = true <->
      on_sqlite_exec driver (trace (world s)) sql = Return tt)) \/
  (exists call,
     trace (world s') = trace (world s) ++ [call] /\
     (forall sql, call <> sqlite_exec sql) /\ finalised s' = false).
Proof.
  intros H. destruct s as [f w]. cbn [finalised] in H. subst f.
  assert (Hend : forall sql, sql = "COMMIT" \/ sql = "ROLLBACK" ->
    let s' := snd (bind (end_transaction driver sql SqliteTransaction)
                     (fun _ => ret (@None (UnifiedQueryResult Row)))
                     (mkTxWorld false w)) in
    (trace (world s') = trace w /\ finalised s' = false) \/
    (exists sql0,
       (sql0 = "COMMIT" \/ sql0 = "ROLLBACK") /\
       trace (world s') = trace w ++ [sqlite_exec sql0] /\
       (finalised s' = true <-> on_sqlite_exec driver (trace w) sql0 = Return tt))
    \/ (exists call,
          trace (world s') = trace w ++ [call] /\
          (forall sql0, call <> sqlite_exec sql0) /\ finalised s' = false)).
  { intros sql Hsql.
    unfold end_transaction, database_exec, bind, get_state, ret, lift, on_db,
      perform, modify, set_finalised.
    cbn [finalised world].
    destruct (db w) as [[|]|]; cbn [fst snd finalised world trace record];
      [left; auto| |left; auto].
    right. left. exists sql. split; [assumption|].
    destruct (on_sqlite_exec driver (trace w) sql) as [[]|e];
      cbn [snd finalised world trace record];
      (split; [reflexivity|]); split; congruence. }
  destruct c as [| |q params].
  - apply (Hend "COMMIT"). now left.
  - apply (Hend "ROLLBACK"). now right.
  - cbv zeta. cbn [tx_call].
    unfold tx_execute, bind, get_state, ret, lift, on_db, perform.
    destruct (is_write _); cbv beta iota; cbn [finalised world];
      (destruct (db w) as [[|]|]; cbn [fst snd finalised world trace record];
       [left; auto| |left; auto]);
      right; right;
      [ exists (sqlite_run (adaptQuery q sqlite) params)
      | exists (sqlite_all (adaptQuery q sqlite) params) ];
      [ destruct (on_sqlite_run driver (trace w) _ params)
      | destruct (on_sqlite_all driver (trace w) _ params) ];
      cbn [snd finalised world trace record]; repeat split; discriminate.
Qed.

(** The calls a SQLite transaction has made: nothing follows a [COMMIT] or
    [ROLLBACK] that succeeded, and the flag is set exactly when the last
    call is one. *)
Lemma sqlite_calls_inv (cs : list (TxCall Param)) (s0 : TxState) :
  finalised s0 = false ->
  let s := calls_on SqliteTransaction cs s0 in
  exists new,
    trace (world s) = trace (world s0) ++ new /\
    (forall pre c post sql,
       new = pre ++ c :: post -> c = sqlite_exec sql ->
       on_sqlite_exec driver (trace (world s0) ++ pre) sql = Return tt ->
       post = [] /\ finalised s = true) /\
    (finalised s = true ->
     exists pre sql,
       new = pre ++ [sqlite_exec sql] /\
       on_sqlite_exec driver (trace (world s0) ++ pre) sql = Return tt) /\
    (forall sql, sqlite_exec sql ∈ new -> sql = "COMMIT" \/ sql = "ROLLBACK").
Proof.
  intros H0. induction cs as [|c cs IH] using rev_ind; intros s.
  - exists []. subst s. cbn [tx_calls fold_left]. rewrite app_nil_r.
    split; [reflexivity|]. split; [|split].
    + intros pre c post sql H. now destruct pre.
    + congruence.
    + intros sql H. inversion H.
  - subst s. rewrite tx_calls_snoc.
    set (s1 := calls_on SqliteTransaction cs s0) in *.
    destruct IH as (new & Ht & HA & HB & HC).
    destruct (finalised s1) eqn:Hf.
    { rewrite (sqlite_call_finalised c s1 Hf). cbn [snd]. exists new.
      rewrite Hf. auto. }
    assert (Hnone : forall pre c0 post sql,
              new = pre ++ c0 :: post -> c0 = sqlite_exec sql ->
              on_sqlite_exec driver (trace (world s0) ++ pre) sql = Return tt ->
              False).
    { intros pre c0 post sql H1 H2 H3.
      destruct (HA pre c0 post sql H1 H2 H3) as [_ H]. congruence. }
    destruct (sqlite_call_step c s1 Hf)
      as [[Hs Hf']|[(sql & Hsql & Hs & Hf')|(call & Hs & Hcall & Hf')]];
      set (s2 := snd (call_on SqliteTransaction c s1)) in *.
    + exists new. rewrite Hs, Hf'. split; [assumption|]. split; [|split].
      * intros pre c0 post sql0 H1 H2 H3. exfalso. eauto.
      * discriminate.
      * assumption.
    + exists (new ++ [sqlite_exec sql]). rewrite Hs, Ht, <- app_assoc.
      split; [reflexivity|]. split; [|split].
      * intros pre c0 post sql0 H1 H2 H3.
        apply snoc_split in H1 as [(-> & -> & ->)|(post' & -> & ->)].
        -- injection H2 as <-. split; [reflexivity|].
           apply Hf'. now rewrite Ht.
        -- exfalso. eauto.
      * intros H. exists new, sql. split; [reflexivity|].
        rewrite <- Ht. now apply Hf'.
      * intros sql0 [H|H]%elem_of_app; [now apply HC|].
        apply list_elem_of_singleton in H. now injection H as ->.
    + exists (new ++ [call]). rewrite Hs, Ht, <- app_assoc.
      split; [reflexivity|]. split; [|split].
      * intros pre c0 post sql0 H1 H2 H3.
        apply snoc_split in H1 as [(-> & -> & ->)|(post' & -> & ->)].
        -- now destruct (Hcall sql0).
        -- exfalso. eauto.
      * congruence.
      * intros sql0 [H|H]%elem_of_app; [now apply HC|].
        apply list_elem_of_singleton in H. now destruct (Hcall sql0).
Qed.

(** On SQLite, a transaction sends nothing after a [COMMIT] or [ROLLBACK]
    that succeeded: in any sequence of calls on a transaction, awaited one
    after the other, the statement that succeeded is the last call the
    database receives, and it is the only way the transaction becomes
    finalised; a [COMMIT] that fails leaves the transaction open.  On a
    finalised transaction [commit] and [rollback] return without effect,
    and [execute] throws "Transaction has already been finalised." and
    sends nothing. *)
Theorem sqlite_transaction_ends_once (cs : list (TxCall Param))
  (w : World Param DSNModifier) :
  let s := calls_on SqliteTransaction cs (started w) in
  exists new,
    trace (world s) = trace w ++ new /\
    (forall pre c post sql,
       new = pre ++ c :: post -> c = sqlite_exec sql ->
       on_sqlite_exec driver (trace w ++ pre) sql = Return tt ->
       post = [] /\ finalised s = true) /\
    (finalised s = true ->
     exists pre sql,
       new = pre ++ [sqlite_exec sql] /\
       on_sqlite_exec driver (trace w ++ pre) sql = Return tt) /\
    (forall sql, sqlite_exec sql ∈ new -> sql = "COMMIT" \/ sql = "ROLLBACK") /\
    (finalised s = true ->
     forall c more,
       call_on SqliteTransaction c s
       = (match c with
          | Execute _ _ =>
              Throw (Error "Transaction has already been finalised.")
          | _ => Return None
          end, s) /\
       calls_on SqliteTransaction more s = s).
Proof.
  intros s.
  destruct (sqlite_calls_inv cs (started w) eq_refl)
    as (new & Ht & HA & HB & HC).
  exists new. do 4 (split; [assumption|]).
  intros Hf c more. split; [now apply sqlite_call_finalised|].
  induction more as [|c' more IH]; [reflexivity|].
  cbn [tx_calls fold_left]. fold s.
  now rewrite (sqlite_call_finalised c' s Hf).
Qed.

(** *** PostgreSQL *)

(** What one call does: [execute] sends its statement; [commit] and
    [rollback] send theirs, set the flag, and release the client if the
    flag was not set. *)
Lemma pg_call_step (client : nat) (c : TxCall Param) (s : TxState) :
  let s' := snd (call_on (PgTransaction client) c s) in
  match c with
  | Execute q params =>
      trace (world s')
      = trace (world s) ++ [client_query client (adaptQuery q postgres) params]
      /\ finalised s' = finalised s
  | _ =>
      exists statement,
        (statement = "COMMIT" \/ statement = "ROLLBACK") /\
        trace (world s')
        = trace (world s) ++ [client_query client statement None] ++
          (if finalised s then [] else [client_release client]) /\
        finalised s' = true
  end.
Proof.
  destruct s as [f w].
  assert (Hend : forall statement,
    let s' := snd (bind (end_transaction driver statement
                           (PgTransaction client))
                     (fun _ => ret (@None (UnifiedQueryResult Row)))
                     (mkTxWorld f w)) in
    trace (world s')
    = trace w ++ [client_query client statement None] ++
      (if f then [] else [client_release client]) /\
    finalised s' = true).
  { intros statement.
    unfold end_transaction, try_finally, client_statement, finalise, bind,
      get_state, ret, lift, perform, modify, set_finalised.
    cbn [finalised world].
    destruct (on_client_query driver (trace w) client statement None);
      destruct f; cbn [negb fst snd finalised world trace record];
      try (destruct (on_client_release driver _ client) as [[]|]);
      cbn [snd finalised world trace record];
      rewrite <- ?app_assoc; auto. }
  destruct c as [| |q params]; cbv zeta.
  - exists "COMMIT". split; [now left|]. apply Hend.
  - exists "ROLLBACK". split; [now right|]. apply Hend.
  - cbn [tx_call]. unfold tx_execute, bind, ret, lift, perform.
    cbn [finalised world].
    destruct (on_client_query driver (trace w) client _ params);
      cbn [snd finalised world trace record]; auto.
Qed.

Lemma filter_release_snoc (l : list (Call Param)) (c : Call Param) :
  filter (fun x => is_release x = true) (l ++ [c])
  = filter (fun x => is_release x = true) l ++
    (if is_release c then [c] else []).
Proof.
  rewrite filter_app. f_equal. destruct (is_release c) eqn:E.
  - now rewrite filter_cons_True.
  - rewrite filter_cons_False; [reflexivity | congruence].
Qed.

Lemma filter_query_snoc (l : list (Call Param)) (c : Call Param) :
  filter (fun x => is_client_query x = true) (l ++ [c])
  = filter (fun x => is_client_query x = true) l ++
    (if is_client_query c then [c] else []).
Proof.
  rewrite filter_app. f_equal. destruct (is_client_query c) eqn:E.
  - now rewrite filter_cons_True.
  - rewrite filter_cons_False; [reflexivity | congruence].
Qed.

(** On PostgreSQL, the client of a transaction is released once: in any
    sequence of calls on a transaction, awaited one after the other, the
    client is released exactly once if [commit] or [rollback] was called,
    whether or not the statement succeeded, and never otherwise; the
    release directly follows a [COMMIT] or [ROLLBACK] on that client.
    Every call of the sequence sends one statement, also after the
    release: a finalised transaction is not closed to further calls. *)
Theorem pg_transaction_releases_once (client : nat)
  (cs : list (TxCall Param)) (w : World Param DSNModifier) :
  let s := calls_on (PgTransaction client) cs (started w) in
  exists new,
    trace (world s) = trace w ++ new /\
    filter (fun c => is_release c = true) new
    = (if existsb ends cs then [client_release client] else []) /\
    finalised s = existsb ends cs /\
    length (filter (fun c => is_client_query c = true) new) = length cs /\
    (forall pre c post,
       new = pre ++ c :: post -> is_release c = true ->
       exists pre' statement,
         pre = pre' ++ [client_query client statement None] /\
         (statement = "COMMIT" \/ statement = "ROLLBACK")).
Proof.
  induction cs as [|c cs IH] using rev_ind; intros s.
  - exists []. subst s. cbn [tx_calls fold_left existsb length].
    rewrite app_nil_r. repeat split.
    intros pre c post H. now destruct pre.
  - subst s. rewrite tx_calls_snoc.
    set (s1 := calls_on (PgTransaction client) cs (started w)) in *.
    destruct IH as (new & Ht & Hrel & Hf & Hq & Hpos).
    pose proof (pg_call_step client c s1) as Hstep. cbv zeta in Hstep.
    set (s2 := snd (call_on (PgTransaction client) c s1)) in *.
    rewrite existsb_app, length_app. cbn [existsb length].
    assert (Hend : forall statement,
      (statement = "COMMIT" \/ statement = "ROLLBACK") ->
      trace (world s2)
      = trace (world s1) ++ [client_query client statement None] ++
        (if finalised s1 then [] else [client_release client]) ->
      finalised s2 = true ->
      exists new2,
        trace (world s2) = trace w ++ new2 /\
        filter (fun c => is_release c = true) new2 = [client_release client] /\
        finalised s2 = true /\
        length (filter (fun c => is_client_query c = true) new2)
        = length cs + 1 /\
        (forall pre c post,
           new2 = pre ++ c :: post -> is_release c = true ->
           exists pre' statement,
             pre = pre' ++ [client_query client statement None] /\
             (statement = "COMMIT" \/ statement = "ROLLBACK"))).
    { intros statement Hst Hs Hf2. rewrite Hf in Hs.
      destruct (existsb ends cs) eqn:He.
      - exists (new ++ [client_query client statement None]).
        rewrite app_nil_r in Hs. rewrite Hs, Ht, <- app_assoc.
        split; [reflexivity|]. split; [|split; [assumption|split]].
        + rewrite filter_release_snoc, Hrel. cbn [is_release].
          now rewrite app_nil_r.
        + rewrite filter_query_snoc, length_app, Hq. reflexivity.
        + intros pre c0 post H Hc.
          apply snoc_split in H as [(-> & -> & ->)|(post' & -> & ->)];
            [discriminate Hc | now apply (Hpos pre c0 post')].
      - exists ((new ++ [client_query client statement None])
                ++ [client_release client]).
        rewrite Hs, Ht, <- !app_assoc.
        split; [reflexivity|]. split; [|split; [assumption|split]].
        + rewrite app_assoc, !filter_release_snoc, Hrel. reflexivity.
        + rewrite app_assoc, !filter_query_snoc, !length_app, Hq.
          cbn [is_client_query length]. lia.
        + intros pre c0 post H Hc. rewrite app_assoc in H.
          apply snoc_split in H as [(-> & -> & ->)|(post' & -> & H)];
            [eauto|].
          apply snoc_split in H as [(-> & -> & ->)|(post'' & -> & ->)];
            [discriminate Hc | now apply (Hpos pre c0 post'')]. }
    destruct c as [| |q params]; cbn [ends]; rewrite ?orb_true_r, ?orb_false_r.
    + destruct Hstep as (statement & Hst & Hs & Hf2).
      exact (Hend statement Hst Hs Hf2).
    + destruct Hstep as (statement & Hst & Hs & Hf2).
      exact (Hend statement Hst Hs Hf2).
    + destruct Hstep as [Hs Hf2].
      exists (new ++ [client_query client (adaptQuery q postgres) params]).
      rewrite Hs, Ht, <- app_assoc. split; [reflexivity|].
      rewrite Hf2, Hf.
      split; [|split; [reflexivity|split]].
      * rewrite filter_release_snoc, Hrel. cbn [is_release].
        now rewrite app_nil_r.
      * rewrite filter_query_snoc, length_app, Hq. reflexivity.
      * intros pre c post H Hc.
        apply snoc_split in H as [(-> & -> & ->)|(post' & -> & ->)];
          [discriminate Hc | now apply (Hpos pre c post')].
Qed.

(** *** The statements of a SQLite transaction *)

Lemma first_word_split (t : string) :
  exists rest, t = first_word t +:+ rest /\
               (rest = "" \/ startsWith " " rest = true).
Proof.
  induction t as [|a t IH]; [exists ""; auto|].
  cbn [first_word]. destruct (Ascii.eqb_spec a " ") as [->|Hne].
  - exists (String " " t). auto.
  - destruct IH as (rest & Ht & Hrest). exists rest. simpl String.append.
    now rewrite <- Ht.
Qed.

Lemma first_word_append (keyword rest : string) :
  all_chars (fun a => negb (Ascii.eqb a " ")) keyword = true ->
  rest = "" \/ startsWith " " rest = true ->
  first_word (keyword +:+ rest) = keyword.
Proof.
  intros Hk Hrest. induction keyword as [|a k IH].
  - simpl String.append. destruct Hrest as [->|H]; [reflexivity|].
    destruct rest as [|b rest]; [reflexivity|]. cbn [startsWith] in H.
    apply andb_prop in H as [Hb%Ascii.eqb_eq _]. subst b. reflexivity.
  - cbn [all_chars] in Hk. apply andb_prop in Hk as [Ha Hk].
    simpl String.append. cbn [first_word].
    apply negb_true_iff in Ha. rewrite Ha. now rewrite IH.
Qed.

Lemma upper_ascii_space (a : ascii) :
  Ascii.eqb (upper_ascii a) " " = Ascii.eqb a " ".
Proof.
  destruct a as [[|] [|] [|] [|] [|] [|] [|] [|]]; vm_compute; reflexivity.
Qed.

Lemma upper_ascii_below (a : ascii) :
  (nat_of_ascii (upper_ascii a) <? 128)%nat = (nat_of_ascii a <? 128)%nat.
Proof.
  destruct a as [[|] [|] [|] [|] [|] [|] [|] [|]]; vm_compute; reflexivity.
Qed.

Lemma toUpperCase_ascii_no_space (s : string) :
  all_chars (fun a => negb (Ascii.eqb a " ")) (toUpperCase_ascii s)
  = all_chars (fun a => negb (Ascii.eqb a " ")) s.
Proof.
  induction s as [|a s IH]; [reflexivity|].
  cbn [toUpperCase_ascii all_chars]. now rewrite upper_ascii_space, IH.
Qed.

Lemma is_ascii_toUpperCase_ascii (s : string) :
  is_ascii (toUpperCase_ascii s) = is_ascii s.
Proof.
  unfold is_ascii. induction s as [|a s IH]; [reflexivity|].
  cbn [toUpperCase_ascii all_chars]. now rewrite upper_ascii_below, IH.
Qed.

Lemma is_write_elem (command : string) :
  is_write command = true <-> command ∈ WRITE_COMMANDS.
Proof.
  unfold is_write. rewrite existsb_exists. split.
  - intros (x & Hx%list_elem_of_In & ->%String.eqb_eq). exact Hx.
  - intros H. exists command. split; [now apply list_elem_of_In|].
    apply String.eqb_refl.
Qed.

(** A word that is insert, update or delete in letters of any case is
    ASCII and has no space. *)
Lemma write_keyword_ascii (keyword : string) :
  toUpperCase_ascii keyword ∈ WRITE_COMMANDS ->
  is_ascii keyword = true /\
  all_chars (fun a => negb (Ascii.eqb a " ")) keyword = true.
Proof.
  intros Hk.
  rewrite <- is_ascii_toUpperCase_ascii, <- toUpperCase_ascii_no_space.
  unfold WRITE_COMMANDS in Hk.
  repeat (apply elem_of_cons in Hk as [->|Hk]); [..|inversion Hk];
    split; reflexivity.
Qed.

(** [toUpperCase] on ASCII text: it turns the letters a to z into A to Z
    and leaves every other character. *)
Hypothesis toUpperCase_on_ascii :
  forall s, is_ascii s = true -> toUpperCase s = toUpperCase_ascii s.

(** The statements that go through [run]: those whose text, trimmed,
    starts with the word insert, update or delete in any case, the word
    being the whole text or followed by a space. *)
Lemma is_write_keyword (text keyword rest : string) :
  trim text = keyword +:+ rest ->
  toUpperCase_ascii keyword ∈ WRITE_COMMANDS ->
  rest = "" \/ startsWith " " rest = true ->
  is_write (command_of trim toUpperCase text) = true.
Proof.
  intros Ht Hk Hrest. destruct (write_keyword_ascii keyword Hk) as [Ha Hs].
  unfold command_of. rewrite Ht, first_word_append by assumption.
  rewrite toUpperCase_on_ascii by assumption. now apply is_write_elem.
Qed.

Lemma is_write_keyword_inv (text : string) :
  is_ascii (first_word (trim text)) = true ->
  is_write (command_of trim toUpperCase text) = true ->
  exists keyword rest,
    trim text = keyword +:+ rest /\
    toUpperCase_ascii keyword ∈ WRITE_COMMANDS /\
    (rest = "" \/ startsWith " " rest = true).
Proof.
  unfold command_of. intros Ha H. rewrite toUpperCase_on_ascii in H by exact Ha.
  apply is_write_elem in H.
  destruct (first_word_split (trim text)) as (rest & Ht & Hrest).
  exists (first_word (trim text)), rest. auto.
Qed.

(** In a SQLite transaction that is not finalised, [execute] sends the
    adapted statement through [run] when [toUpperCase] of the first word of
    its trimmed text is INSERT, UPDATE or DELETE, and through [all]
    otherwise.  With [toUpperCase] acting on ASCII text as it does, that is
    the case whenever the trimmed text starts with the word insert, update
    or delete, in ASCII letters of any case, followed by a space or by
    nothing; and, when the first word is ASCII, only then -- a word
    followed by a tab or a line break goes through [all], as does every
    other write.  A first word with characters outside ASCII is classified
    by what [trim] and [toUpperCase] of the platform make of it.  Through
    [run] the result has no rows and counts the changes (0 when the driver
    reports none); through [all] it has the rows and counts them.  The
    command it reports is [toUpperCase] of the first word. *)
Theorem sqlite_execute_classified (q : string) (params : option (list Param))
  (s : TxState) :
  finalised s = false -> db (world s) = Some DatabaseHandle ->
  let text := adaptQuery q sqlite in
  let command := command_of trim toUpperCase text in
  let outcome :=
    fst (tx_execute driver adaptQuery trim toUpperCase SqliteTransaction
           q params s) in
  let s' :=
    snd (tx_execute driver adaptQuery trim toUpperCase SqliteTransaction
           q params s) in
  (forall keyword rest,
     trim text = keyword +:+ rest ->
     toUpperCase_ascii keyword ∈ WRITE_COMMANDS ->
     rest = "" \/ startsWith " " rest = true ->
     is_write command = true) /\
  (is_ascii (first_word (trim text)) = true ->
   is_write command = true ->
   exists keyword rest,
     trim text = keyword +:+ rest /\
     toUpperCase_ascii keyword ∈ WRITE_COMMANDS /\
     (rest = "" \/ startsWith " " rest = true)) /\
  (is_write command = true ->
   trace (world s') = trace (world s) ++ [sqlite_run text params] /\
   outcome
   = match on_sqlite_run driver (trace (world s)) text params with
     | Return result =>
         Return {| rows := []; rowCount := or_zero (changes result);
                   command := Some command |}
     | Throw e => Throw e
     end) /\
  (is_write command = false ->
   trace (world s') = trace (world s) ++ [sqlite_all text params] /\
   outcome
   = match on_sqlite_all driver (trace (world s)) text params with
     | Return found =>
         Return {| rows := found; rowCount := length found;
                   command := Some command |}
     | Throw e => Throw e
     end) /\
  finalised s' = false.
Proof.
  intros Hf Hdb text command outcome s'. subst outcome s'.
  split; [intros keyword rest; apply is_write_keyword|].
  split; [apply is_write_keyword_inv|].
  destruct s as [f w]. cbn [finalised world] in *. subst f.
  unfold tx_execute, bind, get_state, ret, lift, on_db, perform.
  cbn [finalised world]. fold text. fold command.
  destruct (is_write command); cbv beta iota; cbn [finalised world];
    rewrite Hdb.
  - destruct (on_sqlite_run driver (trace w) text params);
      cbn [fst snd finalised world trace record];
      (split; [auto|]); (split; [discriminate|]); reflexivity.
  - destruct (on_sqlite_all driver (trace w) text params);
      cbn [fst snd finalised world trace record];
      (split; [discriminate|]); (split; [auto|]); reflexivity.
Qed.

End Transactions.

(* ------------------------------------------------------------------ *)
(** ** Initialisation of [DB] *)

Section Initialisation.
Import Js Preset DB.
Local Open Scope list_scope.

Variable Row : Type.
Variable Param : Type.
Variable DSNModifier : Type.
Variable driver : Driver Row Param.
Variable parseConnectionURI : string -> Completion ConnectionURI.
Variable adaptQuery : string -> DBDialect -> string.
Variable TABLES : list (string * string).
Variable dirname : string -> string.

Abbreviation DbState := (World Param DSNModifier).
Abbreviation statement := (@run_statement Row Param DSNModifier driver adaptQuery).
Abbreviation init :=
  (@initialise Row Param DSNModifier driver parseConnectionURI adaptQuery
     TABLES dirname).

Lemma same_fields_refl (w : DbState) : same_fields w w.
Proof. repeat split. Qed.

Lemma same_fields_trans (w1 w2 w3 : DbState) :
  same_fields w1 w2 -> same_fields w2 w3 -> same_fields w1 w3.
Proof.
  intros (A1 & A2 & A3 & A4 & A5) (B1 & B2 & B3 & B4 & B5).
  repeat split; congruence.
Qed.

Lemma same_fields_record (c : Call Param) (w : DbState) :
  same_fields w (record c w).
Proof. repeat split. Qed.

(** One statement of [initialise]: the call is made, whatever comes of
    it. *)
Lemma run_statement_spec (u : ConnectionURI) (text : string) (w : DbState) :
  uri w = Some u -> db w = Some (handle_of u) ->
  let w' := snd (statement text w) in
  same_fields w w' /\
  trace w' = trace w ++ [statement_call adaptQuery (uri_dialect u) text].
Proof.
  intros Hu Hdb.
  unfold run_statement, execute, bind, this_uri, on_db, perform, ret.
  rewrite Hu. destruct u as [url|filename]; cbn [handle_of] in Hdb;
    rewrite Hdb; cbn [uri_dialect statement_call].
  - destruct (on_pool_query driver (trace w) _ None);
      cbn [snd trace record]; split;
      (reflexivity || apply same_fields_record).
  - destruct (on_sqlite_run driver (trace w) _ None);
      cbn [snd trace record]; split;
      (reflexivity || apply same_fields_record).
Qed.

(** The statements of a loop of [initialise]: all of them when the loop
    returns, some of them when it throws. *)
Lemma for_each_statements {A} (u : ConnectionURI) (f : A -> string)
  (xs : list A) (w : DbState) :
  uri w = Some u -> db w = Some (handle_of u) ->
  let outcome := fst (for_each xs (fun x => statement (f x)) w) in
  let w' := snd (for_each xs (fun x => statement (f x)) w) in
  same_fields w w' /\
  ((outcome = Return tt /\
    trace w'
    = trace w ++ map (fun x => statement_call adaptQuery (uri_dialect u) (f x)) xs)
   \/ (exists e before, outcome = Throw e /\ trace w' = trace w ++ before)).
Proof.
  revert w. induction xs as [|x xs IH]; intros w Hu Hdb; cbv zeta.
  - cbn [for_each ret fst snd map]. rewrite app_nil_r.
    split; [apply same_fields_refl | now left].
  - cbn [for_each]. unfold bind.
    destruct (run_statement_spec u (f x) w Hu Hdb) as [Hsame Htrace].
    destruct (statement (f x) w) as [[[]|e] w1] eqn:E; cbn [fst snd] in *.
    + destruct Hsame as (S1 & S2 & S3 & S4 & S5).
      destruct (IH w1) as [Hsame' Hrest]; [congruence | congruence |].
      split; [eapply same_fields_trans; [|exact Hsame']; repeat split;
              assumption|].
      destruct Hrest as [[-> ->]|(e & before & -> & ->)].
      * left. split; [reflexivity|]. rewrite Htrace, <- app_assoc. reflexivity.
      * right. exists e, ([statement_call adaptQuery (uri_dialect u) (f x)]
                         ++ before).
        split; [reflexivity|]. now rewrite Htrace, <- app_assoc.
    + split; [assumption|]. right. eauto.
Qed.

(** [open]: the object it leaves in [this.db] and the calls it makes. *)
Lemma open_spec (u : ConnectionURI) (w : DbState) :
  uri w = Some u ->
  let outcome := fst (open driver dirname w) in
  let w' := snd (open driver dirname w) in
  initialised w' = initialised w /\ dialect w' = dialect w /\
  uri w' = uri w /\ dsnModifiers w' = dsnModifiers w /\
  ((outcome = Return tt /\ db w' = Some (handle_of u) /\
    exists present, trace w' = trace w ++ open_calls dirname u present)
   \/ (exists e before, outcome = Throw e /\ trace w' = trace w ++ before)).
Proof.
  intros Hu. unfold open, bind, this_uri, perform, modify, log, throw, ret.
  rewrite Hu. destruct u as [url|filename]; cbn [handle_of open_calls].
  - destruct (on_pool_new driver (trace w) url) as [[]|e];
      cbn [fst snd initialised dialect uri dsnModifiers db trace record set_db];
      do 4 (split; [first [reflexivity | assumption]|]).
    + left. split; [reflexivity|]. split; [reflexivity|]. now exists true.
    + right. eauto.
  - destruct (negb (truthy_str (Some (dirname filename)))).
    { cbn [fst snd]. do 4 (split; [first [reflexivity | assumption]|]). right.
      exists (Error "Invalid SQLite path"), []. now rewrite app_nil_r. }
    cbv beta iota. cbn [trace record].
    destruct (on_fs_existsSync driver (trace w) (dirname filename)) eqn:Ex;
      cbn [negb]; cbv beta iota; cbn [trace record].
    + destruct (on_sqlite_open driver _ filename) as [[]|e];
        cbn [fst snd initialised dialect uri dsnModifiers db trace record
             set_db]; do 4 (split; [first [reflexivity | assumption]|]).
      * left. split; [reflexivity|]. split; [reflexivity|]. exists true.
        cbn [app]. now rewrite <- !app_assoc.
      * right. exists e. eexists. split; [reflexivity|].
        rewrite <- !app_assoc. reflexivity.
    + destruct (on_fs_mkdirSync driver _ (dirname filename)) as [[]|e0];
        cbv beta iota; cbn [trace record].
      * destruct (on_sqlite_open driver _ filename) as [[]|e];
          cbn [fst snd initialised dialect uri dsnModifiers db trace record
               set_db]; do 4 (split; [first [reflexivity | assumption]|]).
        -- left. split; [reflexivity|]. split; [reflexivity|]. exists false.
           cbn [app]. now rewrite <- !app_assoc.
        -- right. exists e. eexists. split; [reflexivity|].
           rewrite <- !app_assoc. reflexivity.
      * cbn [fst snd initialised dialect uri dsnModifiers db trace record].
        do 4 (split; [first [reflexivity | assumption]|]). right. exists e0. eexists.
        split; [reflexivity|]. rewrite <- !app_assoc. reflexivity.
Qed.

(** [ping]: one call, whatever comes of it. *)
Lemma ping_spec (u : ConnectionURI) (w : DbState) :
  uri w = Some u -> db w = Some (handle_of u) ->
  let w' := snd (ping driver w) in
  same_fields w w' /\ trace w' = trace w ++ [ping_call u].
Proof.
  intros Hu Hdb. unfold ping, bind, this_uri, on_db, perform, ret.
  rewrite Hu. destruct u as [url|filename]; cbn [handle_of] in Hdb;
    rewrite Hdb; cbn [ping_call].
  - destruct (on_pool_query driver (trace w) _ None);
      cbn [snd trace record]; split;
      (reflexivity || apply same_fields_record).
  - destruct (on_sqlite_get driver (trace w) _);
      cbn [snd trace record]; split;
      (reflexivity || apply same_fields_record).
Qed.

Lemma bind_inv {S A B} (m : M S A) (f : A -> M S B) (s s' : S)
  (r : Completion B) :
  bind m f s = (r, s') ->
  (exists a s1, m s = (Return a, s1) /\ f a s1 = (r, s')) \/
  (exists e, m s = (Throw e, s') /\ r = Throw e).
Proof.
  unfold bind. destruct (m s) as [[a|e] s1]; [left; eauto|].
  intros [= <- <-]. right. eauto.
Qed.

(** The body of the [try] block of [initialise], from a state whose
    [this.uri] and [this.dsnModifiers] are set: when it returns, the
    instance is initialised and the calls are those of [open], [ping] and
    the statements; when it throws, the static fields are as before. *)
Lemma initialise_steps (u : ConnectionURI) (w1 w2 : DbState)
  (r : Completion unit) :
  uri w1 = Some u ->
  bind (open driver dirname) (fun _ =>
  bind (ping driver) (fun _ =>
  bind (for_each TABLES (fun table => statement (createTableQuery table)))
    (fun _ =>
  bind this_uri (fun u' =>
  bind (match u' with
        | SqliteURI _ => for_each PRAGMAS statement
        | PostgresURI _ => ret tt
        end) (fun _ =>
  bind (modify (set_initialised true)) (fun _ =>
  bind this_uri (fun u'' =>
  bind (modify (set_dialect (uri_dialect u''))) (fun _ =>
  log (logger_info "Database initialised"))))))))) w1 = (r, w2) ->
  uri w2 = Some u /\ dsnModifiers w2 = dsnModifiers w1 /\
  (r = Return tt ->
   exists present,
     initialised w2 = true /\ dialect w2 = Some (uri_dialect u) /\
     db w2 = Some (handle_of u) /\
     trace w2
     = trace w1 ++ open_calls dirname u present ++ [ping_call u] ++
       map (statement_call adaptQuery (uri_dialect u))
         (schema_statements TABLES (uri_dialect u)) ++
       [logger_info "Database initialised"]) /\
  (forall e, r = Throw e ->
     initialised w2 = initialised w1 /\ dialect w2 = dialect w1 /\
     exists before, trace w2 = trace w1 ++ before).
Proof.
  intros Hu H.
  (* open *)
  pose proof (open_spec u w1 Hu) as Hopen. cbv zeta in Hopen.
  apply bind_inv in H as [([] & wa & Eo & H)|(e & Eo & ->)];
    rewrite Eo in Hopen; cbn [fst snd] in Hopen;
    destruct Hopen as (O1 & O2 & O3 & O4 & Hopen).
  2:{ destruct Hopen as [[H _]|(e' & before & _ & Ht)]; [discriminate H|].
      split; [congruence|]. split; [assumption|].
      split; [discriminate|]. intros e1 _. eauto. }
  destruct Hopen as [(_ & Odb & present & Otrace)|(e' & before & H' & _)];
    [|discriminate H'].
  assert (Hua : uri wa = Some u) by congruence.
  (* ping *)
  pose proof (ping_spec u wa Hua Odb) as Hping. cbv zeta in Hping.
  apply bind_inv in H as [([] & wb & Ep & H)|(e & Ep & ->)];
    rewrite Ep in Hping; cbn [snd] in Hping;
    destruct Hping as ((P1 & P2 & P3 & P4 & P5) & Ptrace).
  2:{ split; [congruence|]. split; [congruence|].
      split; [discriminate|]. intros e1 _.
      split; [congruence|]. split; [congruence|].
      rewrite Ptrace, Otrace, <- app_assoc. eauto. }
  assert (Hub : uri wb = Some u) by congruence.
  assert (Hdb : db wb = Some (handle_of u)) by congruence.
  (* the tables *)
  pose proof (for_each_statements u createTableQuery TABLES wb Hub Hdb)
    as Htab. cbv zeta in Htab.
  apply bind_inv in H as [([] & wc & Et & H)|(e & Et & ->)];
    rewrite Et in Htab; cbn [fst snd] in Htab;
    destruct Htab as ((T1 & T2 & T3 & T4 & T5) & Htab).
  2:{ destruct Htab as [[H _]|(e' & before & _ & Ht)]; [discriminate H|].
      split; [congruence|]. split; [congruence|].
      split; [discriminate|]. intros e1 _.
      split; [congruence|]. split; [congruence|].
      rewrite Ht, Ptrace, Otrace, <- !app_assoc. eauto. }
  destruct Htab as [[_ Ttrace]|(e' & before & H' & _)]; [|discriminate H'].
  assert (Huc : uri wc = Some u) by congruence.
  assert (Hdc : db wc = Some (handle_of u)) by congruence.
  (* this.uri.dialect === 'sqlite' *)
  apply bind_inv in H as [(u' & wc' & Eu & H)|(e & Eu & ->)];
    unfold this_uri in Eu; rewrite Huc in Eu; [|discriminate Eu].
  injection Eu as <- <-.
  assert (Hprag : exists wd rp,
            (match u with
             | SqliteURI _ => for_each PRAGMAS statement
             | PostgresURI _ => ret tt
             end) wc = (rp, wd) /\
            same_fields wc wd /\
            ((rp = Return tt /\
              trace wd
              = trace wc ++
                map (statement_call adaptQuery (uri_dialect u))
                  (match uri_dialect u with
                   | sqlite => PRAGMAS
                   | postgres => []
                   end))
             \/ (exists e before, rp = Throw e /\ trace wd = trace wc ++ before))).
  { destruct u as [url|filename]; cbn [uri_dialect].
    - exists wc, (Return tt). split; [reflexivity|].
      split; [apply same_fields_refl|]. left. cbn [map].
      now rewrite app_nil_r.
    - pose proof (for_each_statements (SqliteURI filename) (fun x => x)
                    PRAGMAS wc Huc Hdc) as Hp. cbv zeta in Hp.
      destruct (for_each PRAGMAS (fun x => statement x) wc) as [rp wd] eqn:E.
      exists wd, rp. split; [reflexivity|]. cbn [fst snd] in Hp. exact Hp. }
  destruct Hprag as (wd & rp & Epr & (G1 & G2 & G3 & G4 & G5) & Hprag).
  apply bind_inv in H as [([] & wd' & Epr' & H)|(e & Epr' & ->)];
    rewrite Epr in Epr'; injection Epr' as -> ->.
  2:{ destruct Hprag as [[H _]|(e' & before & _ & Ht)]; [discriminate H|].
      split; [congruence|]. split; [congruence|].
      split; [discriminate|]. intros e1 _.
      split; [congruence|]. split; [congruence|].
      rewrite Ht, Ttrace, Ptrace, Otrace, <- !app_assoc. eauto. }
  destruct Hprag as [[_ Gtrace]|(e' & before & H' & _)]; [|discriminate H'].
  (* the tail *)
  unfold bind, modify, this_uri, log in H.
  cbn [uri set_initialised] in H. rewrite G3, Huc in H.
  injection H as <- <-.
  cbn [uri dsnModifiers initialised dialect db trace record set_dialect
       set_initialised].
  split; [congruence|]. split; [congruence|].
  split; [|discriminate]. intros _. exists present.
  split; [reflexivity|]. split; [reflexivity|]. split; [congruence|].
  rewrite Gtrace, Ttrace, Ptrace, Otrace. unfold schema_statements.
  rewrite map_app, map_map, <- !app_assoc. reflexivity.
Qed.

(** [initialise] does nothing on an initialised instance.  Otherwise, when
    it returns, the instance is initialised, [DB.dialect] is the dialect of
    the parsed URI, [this.db] is the pool or the database of that dialect,
    and the environment has received, in this order, the calls of [open],
    the ping, one [CREATE TABLE IF NOT EXISTS] per table and, on SQLite
    only, the four PRAGMAs, then the log line; when it throws, the error is
    the one that occurred, it was logged last, and [DB.initialised] and
    [DB.dialect] are as before, so that [initialise] can be called
    again. *)
Theorem initialise_outcome (uri_text : string)
  (modifiers : list DSNModifier) (w : DbState) :
  let outcome := fst (init uri_text modifiers w) in
  let w' := snd (init uri_text modifiers w) in
  (initialised w = true -> outcome = Return tt /\ w' = w) /\
  (initialised w = false ->
   (outcome = Return tt ->
    exists u present,
      parseConnectionURI uri_text = Return u /\
      initialised w' = true /\ dialect w' = Some (uri_dialect u) /\
      uri w' = Some u /\ db w' = Some (handle_of u) /\
      dsnModifiers w' = modifiers /\
      trace w'
      = trace w ++ open_calls dirname u present ++ [ping_call u] ++
        map (statement_call adaptQuery (uri_dialect u))
          (schema_statements TABLES (uri_dialect u)) ++
        [logger_info "Database initialised"]) /\
   (forall e, outcome = Throw e ->
      initialised w' = false /\ dialect w' = dialect w /\
      exists before,
        trace w'
        = trace w ++ before ++
          [logger_error "Failed to initialize database:" e])).
Proof.
  intros outcome w'. subst outcome w'.
  destruct (init uri_text modifiers w) as [r w2] eqn:E. cbn [fst snd].
  unfold initialise in E. unfold bind at 1 in E. unfold get_state in E.
  destruct (initialised w) eqn:Hi.
  { injection E as <- <-. split; [auto | discriminate]. }
  split; [discriminate|]. intros _. unfold try_catch in E.
  match type of E with
  | (match ?body w with _ => _ end) = _ =>
      destruct (body w) as [rb wb] eqn:Eb
  end.
  apply bind_inv in Eb as [(u & w0 & Eparse & Eb)|(e & Eparse & ->)].
  2:{ injection Eparse as Hp <-. unfold bind, log, throw in E.
      injection E as <- <-. split; [discriminate|].
      intros e' [= <-]. cbn [initialised dialect trace record].
      split; [assumption|]. split; [reflexivity|]. now exists []. }
  injection Eparse as Hp <-.
  apply bind_inv in Eb as [([] & w1 & Em & Eb)|(e & Em & _)];
    [|discriminate Em].
  injection Em as <-.
  apply bind_inv in Eb as [([] & w1 & Em & Eb)|(e & Em & _)];
    [|discriminate Em].
  injection Em as <-.
  apply initialise_steps with (u := u) in Eb; [|reflexivity].
  cbn [dsnModifiers initialised dialect trace set_dsnModifiers set_uri] in Eb.
  destruct Eb as (Hu & Hd & Hret & Hthrow).
  destruct rb as [[]|e].
  - injection E as <- <-. split; [|discriminate]. intros _.
    destruct (Hret eq_refl) as (present & H1 & H2 & H3 & H4).
    exists u, present. auto 10.
  - unfold bind, log, throw in E. injection E as <- <-.
    split; [discriminate|]. intros e' [= <-].
    destruct (Hthrow e eq_refl) as (H1 & H2 & before & H3).
    cbn [initialised dialect trace record].
    split; [congruence|]. split; [assumption|].
    exists before. now rewrite H3, <- app_assoc.
Qed.

End Initialisation.

(* ------------------------------------------------------------------ *)
(** ** The rows a statement of [DB] affected *)

Section RowsAffected.
Import Js Preset DB.
Local Open Scope list_scope.

Variable Row : Type.
Variable Param : Type.
Variable DSNModifier : Type.
Variable driver : Driver Row Param.
Variable adaptQuery : string -> DBDialect -> string.

(** Once [DB.dialect] is the dialect of the connection, as it is after
    [initialise], [getRowsAffected] reads from the result of [execute] the
    count its driver reports: the changes of [run] on SQLite, the row count
    of the query on PostgreSQL, and 0 when the driver reports none.  While
    [DB.dialect] is not set, as it is until [initialise] has run its last
    statement, the result of a SQLite statement counts as 0 rows, whatever
    its changes. *)
Theorem getRowsAffected_of_execute (u : ConnectionURI) (q : string)
  (params : option (list Param)) (w w' : World Param DSNModifier)
  (result : ExecuteResult Row) :
  uri w = Some u -> dialect w = Some (uri_dialect u) ->
  execute driver adaptQuery q params w = (Return result, w') ->
  getRowsAffected w' result
  = match result with
    | SqliteExecuted r => or_zero (changes r)
    | PgExecuted r => or_zero (pg_rowCount r)
    end /\
  match u, result with
  | SqliteURI _, SqliteExecuted _ | PostgresURI _, PgExecuted _ => True
  | _, _ => False
  end /\
  (forall (w0 : World Param DSNModifier) r,
     dialect w0 = None -> getRowsAffected w0 (@SqliteExecuted Row r) = 0).
Proof.
  intros Hu Hd. unfold execute, bind, this_uri, on_db, perform, ret.
  rewrite Hu. intros H. split; [|split].
  - destruct u as [url|filename];
      (destruct (db w) as [[|]|]; try discriminate H);
      [ destruct (on_pool_query driver (trace w) _ params)
      | destruct (on_sqlite_run driver (trace w) _ params) ];
      try discriminate H; injection H as <- <-;
      unfold getRowsAffected, isSQLite, getDialect;
      cbn [dialect record]; rewrite Hd; cbn [uri_dialect result_changes
        result_rowCount]; [reflexivity|].
    destruct (changes a) as [[|n]|]; reflexivity.
  - destruct u as [url|filename];
      (destruct (db w) as [[|]|]; try discriminate H);
      [ destruct (on_pool_query driver (trace w) _ params)
      | destruct (on_sqlite_run driver (trace w) _ params) ];
      try discriminate H; injection H as <- <-; exact I.
  - intros w0 r H0. unfold getRowsAffected, isSQLite, getDialect.
    now rewrite H0.
Qed.

End RowsAffected.

Section DatabaseExamples.
Import Js Preset DB.
Local Open Scope list_scope.

(** A statement that deletes: on SQLite it goes through [run], which
    reports two changes here; a REPLACE goes through [all] and counts the
    rows found, none.  Here [trim] and [toUpperCase] are those of ASCII
    text. *)
Lemma sqlite_execute_classified_example :
  let execute_in_transaction q :=
    tx_execute example_driver example_adaptQuery trim_ascii toUpperCase_ascii
      SqliteTransaction q None (started sqlite_world) in
  fst (execute_in_transaction "  delete from users ")
  = Return {| rows := []; rowCount := 2; command := Some "DELETE" |} /\
  trace (world (snd (execute_in_transaction "  delete from users ")))
  = [sqlite_run "  delete from users " None] /\
  fst (execute_in_transaction "REPLACE INTO users VALUES (1)")
  = Return {| rows := []; rowCount := 0; command := Some "REPLACE" |} /\
  trace (world (snd (execute_in_transaction "REPLACE INTO users VALUES (1)")))
  = [sqlite_all "REPLACE INTO users VALUES (1)" None].
Proof.
  intros execute_in_transaction.
  destruct (sqlite_execute_classified unit unit unit example_driver
              example_adaptQuery trim_ascii toUpperCase_ascii
              (fun s _ => eq_refl) "  delete from users " None
              (started sqlite_world) eq_refl eq_refl)
    as (Hkeyword & _ & Hrun & _).
  assert (Hdelete : toUpperCase_ascii "delete" ∈ WRITE_COMMANDS)
    by (cbn; repeat constructor).
  destruct (Hrun (Hkeyword "delete" " from users" eq_refl Hdelete
                    (or_intror eq_refl))) as [Ht Ho].
  destruct (sqlite_execute_classified unit unit unit example_driver
              example_adaptQuery trim_ascii toUpperCase_ascii
              (fun s _ => eq_refl) "REPLACE INTO users VALUES (1)" None
              (started sqlite_world) eq_refl eq_refl)
    as (_ & _ & _ & Hall & _).
  destruct (Hall eq_refl) as [Ht' Ho'].
  split; [exact Ho|]. split; [exact Ht|]. split; [exact Ho' | exact Ht'].
Defined.

(** After a statement on SQLite, [getRowsAffected] is the two changes of
    the driver. *)
Lemma getRowsAffected_of_execute_example :
  let executed :=
    execute example_driver example_adaptQuery "DELETE FROM users" None
      sqlite_world in
  fst executed = Return (SqliteExecuted (mkRunResult (Some 2))) /\
  getRowsAffected (snd executed) (@SqliteExecuted unit (mkRunResult (Some 2)))
  = 2.
Proof.
  intros executed. split; [reflexivity|].
  destruct (getRowsAffected_of_execute unit unit unit example_driver
              example_adaptQuery (SqliteURI "./data/db.sqlite")
              "DELETE FROM users" None sqlite_world (snd executed)
              (SqliteExecuted (mkRunResult (Some 2)))
              eq_refl eq_refl eq_refl) as (H & _).
  exact H.
Defined.

(** A COMMIT that fails leaves the transaction open: the ROLLBACK after it
    is sent, and ends it; the second [commit] and the [execute] after that
    send nothing. *)
Lemma sqlite_transaction_ends_once_example :
  let calls := [Commit; Rollback; Commit; Execute "SELECT 1" None] in
  exists w1,
    begin failing_commit_driver sqlite_world = (Return SqliteTransaction, w1) /\
    let s := tx_calls failing_commit_driver example_adaptQuery trim_ascii
               toUpperCase_ascii SqliteTransaction calls (started w1) in
    trace (world s)
    = [sqlite_exec "BEGIN"; sqlite_exec "COMMIT"; sqlite_exec "ROLLBACK"] /\
    finalised s = true /\
    tx_call failing_commit_driver example_adaptQuery trim_ascii
      toUpperCase_ascii SqliteTransaction (Execute "SELECT 1" None) s
    = (Throw (Error "Transaction has already been finalised."), s).
Proof.
  intros calls. eexists. split; [reflexivity|]. cbv zeta.
  match goal with
  | |- context [tx_calls _ _ _ _ _ _ (started ?w)] =>
      destruct (sqlite_transaction_ends_once unit unit unit
                  failing_commit_driver example_adaptQuery trim_ascii
                  toUpperCase_ascii calls w)
        as (new & _ & _ & _ & _ & Hfinal)
  end.
  split; [reflexivity|]. split; [reflexivity|].
  exact (proj1 (Hfinal eq_refl (Execute "SELECT 1" None) [])).
Defined.

(** The client is released after the COMMIT that failed, and not again
    after the ROLLBACK, which is still sent. *)
Lemma pg_transaction_releases_once_example :
  let calls := [Execute "INSERT INTO users VALUES (1)" None; Commit; Rollback] in
  exists w1,
    begin failing_commit_driver postgres_world
    = (Return (PgTransaction 7), w1) /\
    let s := tx_calls failing_commit_driver example_adaptQuery trim_ascii
               toUpperCase_ascii (PgTransaction 7) calls (started w1) in
    trace (world s)
    = [pool_connect; client_query 7 "BEGIN" None;
       client_query 7 "INSERT INTO users VALUES (1)" None;
       client_query 7 "COMMIT" None; client_release 7;
       client_query 7 "ROLLBACK" None] /\
    filter (fun c => is_release c = true) (trace (world s))
    = [client_release 7].
Proof.
  intros calls. eexists. split; [reflexivity|]. cbv zeta.
  match goal with
  | |- context [tx_calls _ _ _ _ _ _ (started ?w)] =>
      destruct (pg_transaction_releases_once unit unit unit
                  failing_commit_driver example_adaptQuery trim_ascii
                  toUpperCase_ascii 7 calls w)
        as (new & Ht & Hrel & _)
  end.
  split; [reflexivity|]. rewrite Ht, filter_app, Hrel. reflexivity.
Defined.

(** The calls of [initialise] on SQLite, where the directory exists. *)
Lemma initialise_outcome_example :
  let initialised_world :=
    initialise example_driver example_parseConnectionURI example_adaptQuery
      example_TABLES example_dirname "sqlite://./data/db.sqlite" []
      (@initial_world unit unit) in
  fst initialised_world = Return tt /\
  dialect (snd initialised_world) = Some sqlite /\
  trace (snd initialised_world)
  = [fs_existsSync "./data";
     logger_debug "Opening SQLite database: ./data/db.sqlite";
     sqlite_open "./data/db.sqlite"; sqlite_get "SELECT 1";
     sqlite_run "CREATE TABLE IF NOT EXISTS users (uuid TEXT PRIMARY KEY)" None;
     sqlite_run "PRAGMA busy_timeout = 5000" None;
     sqlite_run "PRAGMA foreign_keys = ON" None;
     sqlite_run "PRAGMA synchronous = OFF" None;
     sqlite_run "PRAGMA journal_mode = WAL" None;
     logger_info "Database initialised"].
Proof.
  intros initialised_world.
  destruct (initialise_outcome unit unit unit example_driver
              example_parseConnectionURI example_adaptQuery example_TABLES
              example_dirname "sqlite://./data/db.sqlite" []
              initial_world) as [_ H].
  destruct (H eq_refl) as [Hret _].
  destruct (Hret eq_refl) as (u & present & Hparse & _ & Hd & _).
  injection Hparse as <-.
  split; [reflexivity|]. split; [exact Hd | reflexivity].
Defined.

End DatabaseExamples.
